(** * Identity reconciliation service: contact chains over a key-value table

    A shallow embedding of the reconciliation core of the repository:
    [ContactModel] (the five table operations built on the DynamoDB document
    client) and [ContactService] (matching, grouping by chain root, the merge
    decision and the consolidated view).

    Conventions of the embedding.
    - An optional TypeScript field [f?: string] is an [option string];
      JavaScript truthiness of such a field is [truthy].
    - A timestamp is produced by [new Date().toISOString()] and only ever
      compared through [new Date(s) < new Date(s')]; it is represented by the
      number of milliseconds it denotes, a [Z].
    - [uuidv4()], [new Date()] and the availability of the document client
      are external: they are read from an environment [Env], indexed by how
      many values have been drawn so far.
    - The table is the list of its items in the order in which a Scan
      enumerates them. *)

From Stdlib Require Import String List ZArith Bool Lia Permutation.
Import ListNotations.
Open Scope string_scope.
Open Scope list_scope.

Set Implicit Arguments.

(** ** Types (types/contact.types.ts, types/common.types.ts) *)

Inductive LinkPrecedence : Type := primary | secondary.

Definition isPrimary (p : LinkPrecedence) : bool :=
  match p with primary => true | secondary => false end.

Definition isSecondary (p : LinkPrecedence) : bool :=
  match p with primary => false | secondary => true end.

(** [deletedAt] is declared by the source type but never read or written by
    the model or the service; it is left out. *)
Record Contact : Type := mkContact {
  id : string;
  phoneNumber : option string;
  email : option string;
  linkedId : option string;
  linkPrecedence : LinkPrecedence;
  createdAt : Z;
  updatedAt : Z
}.

Record IdentifyRequest : Type := mkRequest {
  req_email : option string;
  req_phoneNumber : option string
}.

Record ConsolidatedContact : Type := mkConsolidated {
  primaryContactId : string;
  emails : list string;
  phoneNumbers : list string;
  secondaryContactIds : list string
}.

Record ContactQueryParams : Type := mkQuery {
  q_email : option string;
  q_phoneNumber : option string
}.

Record CreateContactParams : Type := mkCreate {
  cp_phoneNumber : option string;
  cp_email : option string;
  cp_linkedId : option string;
  cp_linkPrecedence : LinkPrecedence
}.

Record UpdateContactParams : Type := mkUpdate {
  up_id : string;
  up_linkedId : option string;
  up_linkPrecedence : option LinkPrecedence;
  up_updatedAt : Z
}.

Record DbOperationResult (T : Type) : Type := mkResult {
  success : bool;
  data : option T;
  error : option string
}.

Definition succeeded {T} (x : T) : DbOperationResult T :=
  {| success := true; data := Some x; error := None |}.

Definition failed {T} (msg : string) : DbOperationResult T :=
  {| success := false; data := None; error := Some msg |}.

(** Helper interface of the service for grouping contacts. *)
Record ContactGroup : Type := mkGroup {
  primaryId : string;
  g_createdAt : Z;
  contacts : list Contact
}.

(** ** JavaScript value tests *)

(** [if (s)] on an optional string: [undefined] and the empty string are
    falsy. *)
Definition truthy (s : option string) : bool :=
  match s with
  | Some v => negb (String.eqb v EmptyString)
  | None => false
  end.

(** [a === b] on optional strings. *)
Definition strictEq (a b : option string) : bool :=
  match a, b with
  | Some x, Some y => String.eqb x y
  | None, None => true
  | _, _ => false
  end.

(** [if (src.f) dst.f = src.f]: a field is copied only when truthy. *)
Definition provided (s : option string) : option string :=
  if truthy s then s else None.

(** [arr.includes(v)]. *)
Definition includes (arr : list string) (v : string) : bool :=
  existsb (String.eqb v) arr.

(** ** The document client (external collaborator) *)

Inductive ScanFilter : Type :=
| FilterEmailOrPhone (e p : option string)
| FilterLinkedId (k : string).

Inductive Command : Type :=
| PutCommand (item : Contact)
| GetCommand (key : string)
| UpdateCommand (params : UpdateContactParams)
| ScanCommand (filter : ScanFilter).

Definition isWrite (c : Command) : bool :=
  match c with
  | PutCommand _ | UpdateCommand _ => true
  | GetCommand _ | ScanCommand _ => false
  end.

(** What a command's response carries: [Item] for a Get, [Attributes] for an
    Update with [ReturnValues: ALL_NEW], [Items] for a Scan. *)
Record CommandOutput : Type := mkOutput {
  Item : option Contact;
  Attributes : option Contact;
  Items : list Contact
}.

Definition noOutput : CommandOutput :=
  {| Item := None; Attributes := None; Items := [] |}.

Definition hasId (k : string) (c : Contact) : bool := String.eqb (id c) k.

Definition getItem (k : string) (t : list Contact) : option Contact :=
  find (hasId k) t.

(** A condition [attr = :v] holds of an item that carries the attribute with
    that value. *)
Definition attrIs (attr : option string) (v : string) : bool :=
  strictEq attr (Some v).

(** [FilterEmailOrPhone e p] stands for the conditions that
    [findByEmailOrPhone] pushed, joined by OR. *)
Definition satisfies (f : ScanFilter) (c : Contact) : bool :=
  match f with
  | FilterEmailOrPhone e p =>
      match e with Some v => attrIs (email c) v | None => false end
      || match p with Some v => attrIs (phoneNumber c) v | None => false end
  | FilterLinkedId k => attrIs (linkedId c) k
  end.

(** [SET] of the attributes an Update names. *)
Definition applyUpdate (u : UpdateContactParams) (c : Contact) : Contact :=
  {| id := id c;
     phoneNumber := phoneNumber c;
     email := email c;
     linkedId := match up_linkedId u with Some k => Some k | None => linkedId c end;
     linkPrecedence :=
       match up_linkPrecedence u with Some p => p | None => linkPrecedence c end;
     createdAt := createdAt c;
     updatedAt := up_updatedAt u |}.

Definition updateItem (u : UpdateContactParams) (t : list Contact) : list Contact :=
  map (fun c => if hasId (up_id u) c then applyUpdate u c else c) t.

(** A Put replaces the item that has the same key; a new key lands at the
    position [pos] of the scan order, which the store decides (it orders a
    table by a hash of the key, not by time of insertion). *)
Definition putItem (pos : nat) (item : Contact) (t : list Contact) : list Contact :=
  if existsb (hasId (id item)) t
  then map (fun c => if hasId (id item) c then item else c) t
  else firstn pos t ++ item :: skipn pos t.

(** The effect of a command on the table and its response.  The service
    updates only keys it has read in the same call; an Update of a key that
    the table lacks is modelled as changing nothing. *)
Definition execute (pos : nat) (c : Command) (t : list Contact)
  : list Contact * CommandOutput :=
  match c with
  | PutCommand item => (putItem pos item t, noOutput)
  | GetCommand k =>
      (t, {| Item := getItem k t; Attributes := None; Items := [] |})
  | UpdateCommand u =>
      let t' := updateItem u t in
      (t', {| Item := None; Attributes := getItem (up_id u) t'; Items := [] |})
  | ScanCommand f =>
      (t, {| Item := None; Attributes := None; Items := filter (satisfies f) t |})
  end.

(** ** Environment and world *)

Record Env : Type := mkEnv {
  uuidv4 : nat -> string;   (* the n-th identifier generated *)
  clock : nat -> Z;         (* the n-th reading of the clock *)
  online : nat -> bool;     (* whether the n-th command sent is served *)
  slot : nat -> nat         (* scan position given to an item put by the n-th command *)
}.

(** [trace] lists every command handed to the document client, oldest
    first, served or not. *)
Record World : Type := mkWorld {
  table : list Contact;
  trace : list Command;
  uuids : nat;
  dates : nat
}.

Definition emptyWorld : World :=
  {| table := []; trace := []; uuids := 0; dates := 0 |}.

Definition writes (w : World) : list Command := filter isWrite (trace w).

(** The world after a command was served, and after it was refused. *)
Definition served (pos : nat) (c : Command) (w : World) : World :=
  {| table := fst (execute pos c (table w));
     trace := trace w ++ [c];
     uuids := uuids w;
     dates := dates w |}.

Definition refused (c : Command) (w : World) : World :=
  {| table := table w;
     trace := trace w ++ [c];
     uuids := uuids w;
     dates := dates w |}.

(** ** Computations: state passing with JavaScript exceptions *)

Inductive outcome (A : Type) : Type :=
| Ret (a : A)
| Throw.

Arguments Throw {A}.

Definition M (A : Type) : Type := World -> outcome A * World.

Definition ret {A} (a : A) : M A := fun w => (Ret a, w).

Definition throw {A} : M A := fun w => (Throw, w).

Definition bind {A B} (m : M A) (f : A -> M B) : M B :=
  fun w =>
    match m w with
    | (Ret a, w') => f a w'
    | (Throw, w') => (Throw, w')
    end.

(** [try { m } catch (error) { h }]. *)
Definition tryCatch {A} (m : M A) (h : M A) : M A :=
  fun w =>
    match m w with
    | (Ret a, w') => (Ret a, w')
    | (Throw, w') => h w'
    end.

Notation "x <- m ;; k" := (bind m (fun x => k))
  (at level 61, m at next level, right associativity).
Notation "m ;;; k" := (bind m (fun _ => k))
  (at level 61, right associativity).

Definition when (b : bool) (m : M unit) : M unit :=
  if b then m else ret tt.

(** [for (const x of xs) { body(x) }]. *)
Fixpoint forOf {A} (xs : list A) (body : A -> M unit) : M unit :=
  match xs with
  | [] => ret tt
  | x :: rest => body x ;;; forOf rest body
  end.

Section Service.

Variable E : Env.

Definition newDate : M Z :=
  fun w => (Ret (clock E (dates w)),
            {| table := table w; trace := trace w;
               uuids := uuids w; dates := S (dates w) |}).

Definition newUuid : M string :=
  fun w => (Ret (uuidv4 E (uuids w)),
            {| table := table w; trace := trace w;
               uuids := S (uuids w); dates := dates w |}).

(** [docClient.send(command)]: the command is recorded; when the client is
    not served the call throws and the table is untouched. *)
Definition docClient_send (c : Command) : M CommandOutput :=
  fun w =>
    let n := length (trace w) in
    if online E n
    then (Ret (snd (execute (slot E n) c (table w))), served (slot E n) c w)
    else (Throw, refused c w).

(** ** ContactModel (models/contact.model.ts) *)

Definition create (params : CreateContactParams) : M (DbOperationResult Contact) :=
  tryCatch
    (now <- newDate ;;
     uuid <- newUuid ;;
     let contact :=
       {| id := uuid;
          phoneNumber := cp_phoneNumber params;
          email := cp_email params;
          linkedId := cp_linkedId params;
          linkPrecedence := cp_linkPrecedence params;
          createdAt := now;
          updatedAt := now |} in
     docClient_send (PutCommand contact) ;;;
     ret (succeeded contact))
    (ret (failed "Failed to create contact")).

Definition getById (k : string) : M (DbOperationResult Contact) :=
  tryCatch
    (result <- docClient_send (GetCommand k) ;;
     match Item result with
     | None => ret (failed "Contact not found")
     | Some item => ret (succeeded item)
     end)
    (ret (failed "Failed to get contact")).

Definition update (params : UpdateContactParams) : M (DbOperationResult Contact) :=
  tryCatch
    (result <- docClient_send (UpdateCommand params) ;;
     ret {| success := true; data := Attributes result; error := None |})
    (ret (failed "Failed to update contact")).

Definition findByEmailOrPhone (params : ContactQueryParams)
  : M (DbOperationResult (list Contact)) :=
  tryCatch
    (let e := provided (q_email params) in
     let p := provided (q_phoneNumber params) in
     if truthy (q_email params) || truthy (q_phoneNumber params)
     then result <- docClient_send (ScanCommand (FilterEmailOrPhone e p)) ;;
          ret (succeeded (Items result))
     else ret (succeeded []))
    (ret (failed "Failed to find contacts")).

Definition getLinkedContacts (primaryContactId : string)
  : M (DbOperationResult (list Contact)) :=
  tryCatch
    (primaryResult <- getById primaryContactId ;;
     match success primaryResult, data primaryResult with
     | true, Some p =>
         scanResult <- docClient_send (ScanCommand (FilterLinkedId primaryContactId)) ;;
         ret (succeeded (p :: Items scanResult))
     | _, _ => ret (failed "Primary contact not found")
     end)
    (ret (failed "Failed to get linked contacts")).

(** ** ContactService (services/contact.service.ts) *)

(** [s ? [s] : []]. *)
Definition singleton (s : option string) : list string :=
  match s with
  | Some v => if truthy s then [v] else []
  | None => []
  end.

(** [if (s && !arr.includes(s)) arr.push(s)]. *)
Definition pushNew (arr : list string) (s : option string) : list string :=
  match s with
  | Some v => if truthy s && negb (includes arr v) then arr ++ [v] else arr
  | None => arr
  end.

Definition createNewPrimaryContact (request : IdentifyRequest)
  : M (DbOperationResult ConsolidatedContact) :=
  let createParams :=
    {| cp_phoneNumber := provided (req_phoneNumber request);
       cp_email := provided (req_email request);
       cp_linkedId := None;
       cp_linkPrecedence := primary |} in
  createResult <- create createParams ;;
  match success createResult, data createResult with
  | true, Some c =>
      ret (succeeded
             {| primaryContactId := id c;
                emails := singleton (email c);
                phoneNumbers := singleton (phoneNumber c);
                secondaryContactIds := [] |})
  | _, _ => ret (failed "Failed to create new primary contact")
  end.

(** [groups.has(primaryId)] and [groups.get(primaryId)!.contacts.push(contact)]
    on the insertion-ordered Map of the source. *)
Definition hasGroup (k : string) (groups : list ContactGroup) : bool :=
  existsb (fun g => String.eqb (primaryId g) k) groups.

Definition pushContact (k : string) (c : Contact) (groups : list ContactGroup)
  : list ContactGroup :=
  map (fun g =>
         if String.eqb (primaryId g) k
         then {| primaryId := primaryId g; g_createdAt := g_createdAt g;
                 contacts := contacts g ++ [c] |}
         else g)
      groups.

(** The chain root a matched record names: itself when primary, its
    [linkedId] otherwise. *)
Definition rootIdOf (c : Contact) : option string :=
  match linkPrecedence c with
  | primary => Some (id c)
  | secondary => linkedId c
  end.

(** [if (!groups.has(primaryId)) { ... groups.set(primaryId, ...) }]: the
    root is the contact itself when it is primary and is fetched by id
    otherwise; a root that cannot be fetched leaves [data] undefined, and
    reading [createdAt] from it throws. *)
Definition ensureGroup (contact : Contact) (pid : string)
           (groups : list ContactGroup) : M (list ContactGroup) :=
  if hasGroup pid groups then ret groups
  else
    primaryContact <-
      (match linkPrecedence contact with
       | primary => ret contact
       | secondary =>
           r <- getById pid ;;
           match data r with
           | Some p => ret p
           | None => throw
           end
       end) ;;
    ret (groups ++ [ {| primaryId := pid;
                        g_createdAt := createdAt primaryContact;
                        contacts := [] |} ]).

(** The loop of [groupContactsByPrimary].  A secondary without [linkedId]
    gives no key to look up: the fetch fails and the loop throws. *)
Fixpoint groupLoop (cs : list Contact) (groups : list ContactGroup)
  : M (list ContactGroup) :=
  match cs with
  | [] => ret groups
  | contact :: rest =>
      match rootIdOf contact with
      | None => throw
      | Some pid =>
          groups' <- ensureGroup contact pid groups ;;
          groupLoop rest (pushContact pid contact groups')
      end
  end.

Definition groupContactsByPrimary (cs : list Contact) : M (list ContactGroup) :=
  groupLoop cs [].

Definition isExactMatch (request : IdentifyRequest) (contact : Contact) : bool :=
  strictEq (email contact) (req_email request)
  && strictEq (phoneNumber contact) (req_phoneNumber request).

Definition shouldCreateSecondaryContact (request : IdentifyRequest)
           (existingContacts : list Contact) : bool :=
  match find (isExactMatch request) existingContacts with
  | Some _ => false
  | None =>
      let hasNewEmail :=
        truthy (req_email request)
        && negb (existsb (fun contact => strictEq (email contact) (req_email request))
                         existingContacts) in
      let hasNewPhone :=
        truthy (req_phoneNumber request)
        && negb (existsb (fun contact =>
                            strictEq (phoneNumber contact) (req_phoneNumber request))
                         existingContacts) in
      hasNewEmail || hasNewPhone
  end.

(** The result of the create is only logged. *)
Definition createSecondaryContact (request : IdentifyRequest)
           (primaryContactId : string) : M unit :=
  let createParams :=
    {| cp_phoneNumber := provided (req_phoneNumber request);
       cp_email := provided (req_email request);
       cp_linkedId := Some primaryContactId;
       cp_linkPrecedence := secondary |} in
  create createParams ;;; ret tt.

Definition collect (acc : list string * list string) (contact : Contact)
  : list string * list string :=
  (pushNew (fst acc) (email contact), pushNew (snd acc) (phoneNumber contact)).

Definition buildConsolidatedResponse (primaryContactId : string)
  : M (DbOperationResult ConsolidatedContact) :=
  linkedContactsResult <- getLinkedContacts primaryContactId ;;
  match success linkedContactsResult, data linkedContactsResult with
  | true, Some allContacts =>
      match find (fun c => isPrimary (linkPrecedence c)) allContacts with
      | None => throw
      | Some primaryContact =>
          let secondaryContacts :=
            filter (fun c => isSecondary (linkPrecedence c)) allContacts in
          let collected :=
            fold_left collect secondaryContacts
                      (singleton (email primaryContact),
                       singleton (phoneNumber primaryContact)) in
          ret (succeeded
                 {| primaryContactId := id primaryContact;
                    emails := fst collected;
                    phoneNumbers := snd collected;
                    secondaryContactIds := map id secondaryContacts |})
      end
  | _, _ => ret (failed "Failed to retrieve linked contacts")
  end.

Definition demotion (newer older : string) (now : Z) : UpdateContactParams :=
  {| up_id := newer;
     up_linkedId := Some older;
     up_linkPrecedence := Some secondary;
     up_updatedAt := now |}.

Definition repoint (older : string) (contact : Contact) : M unit :=
  match linkPrecedence contact with
  | secondary =>
      now <- newDate ;;
      update (demotion (id contact) older now) ;;; ret tt
  | primary => ret tt
  end.

Definition linkTwoPrimaryContacts (contactGroups : list ContactGroup)
           (request : IdentifyRequest)
  : M (DbOperationResult ConsolidatedContact) :=
  match contactGroups with
  | [group1; group2] =>
      let isGroup1Older := Z.ltb (g_createdAt group1) (g_createdAt group2) in
      let olderGroup := if isGroup1Older then group1 else group2 in
      let newerGroup := if isGroup1Older then group2 else group1 in
      now <- newDate ;;
      updateResult <-
        update (demotion (primaryId newerGroup) (primaryId olderGroup) now) ;;
      if negb (success updateResult)
      then ret (failed "Failed to link primary contacts")
      else
        forOf (contacts newerGroup) (repoint (primaryId olderGroup)) ;;;
        let allContacts := contacts olderGroup ++ contacts newerGroup in
        when (shouldCreateSecondaryContact request allContacts)
             (createSecondaryContact request (primaryId olderGroup)) ;;;
        buildConsolidatedResponse (primaryId olderGroup)
  | _ => ret (failed "Expected exactly 2 contact groups for linking")
  end.

(** The callback of [contactGroups.reduce]. *)
Definition olderOf (oldest current : ContactGroup) : ContactGroup :=
  if Z.ltb (g_createdAt oldest) (g_createdAt current) then oldest else current.

Definition missingFields : DbOperationResult ConsolidatedContact :=
  failed "At least one of email or phoneNumber must be provided".

Definition internalError : DbOperationResult ConsolidatedContact :=
  failed "Internal server error during contact identification".

Definition identifyContact (request : IdentifyRequest)
  : M (DbOperationResult ConsolidatedContact) :=
  tryCatch
    (if negb (truthy (req_email request)) && negb (truthy (req_phoneNumber request))
     then ret missingFields
     else
       let queryParams :=
         {| q_email := provided (req_email request);
            q_phoneNumber := provided (req_phoneNumber request) |} in
       existingContactsResult <- findByEmailOrPhone queryParams ;;
       if negb (success existingContactsResult)
       then ret (failed "Failed to search for existing contacts")
       else
         let existingContacts :=
           match data existingContactsResult with Some l => l | None => [] end in
         match existingContacts with
         | [] => createNewPrimaryContact request
         | _ :: _ =>
             contactGroups <- groupContactsByPrimary existingContacts ;;
             match contactGroups with
             | [group] =>
                 when (shouldCreateSecondaryContact request (contacts group))
                      (createSecondaryContact request (primaryId group)) ;;;
                 buildConsolidatedResponse (primaryId group)
             | [_; _] => linkTwoPrimaryContacts contactGroups request
             | [] => throw
             | first :: others =>
                 buildConsolidatedResponse (primaryId (fold_left olderOf others first))
             end
         end)
    (ret internalError).

End Service.

(** ** ContactController (controllers/contact.controller.ts) *)

(** What [res.status(code).json(body)] sends: the failure shape
    [{ success: false, error, message }] or [{ contact }]. *)
Inductive ResponseBody : Type :=
| ApiFailure (error : option string) (message : string)
| IdentifyResponse (contact : ConsolidatedContact).

Record HttpResponse : Type := mkResponse {
  statusCode : nat;
  body : ResponseBody
}.

(** [ContactController.identify]: the body of the request is handed to the
    service; reading [result.data!.primaryContactId] for the log throws
    when a successful result carries no data, and the handler answers
    whatever it catches with a 500. *)
Definition identify (E : Env) (identifyRequest : IdentifyRequest) : M HttpResponse :=
  tryCatch
    (result <- identifyContact E identifyRequest ;;
     if negb (success result)
     then ret {| statusCode := 400;
                 body := ApiFailure (error result) "Failed to identify contact" |}
     else
       match data result with
       | Some contact =>
           ret {| statusCode := 200; body := IdentifyResponse contact |}
       | None => throw
       end)
    (ret {| statusCode := 500;
            body := ApiFailure (Some "Internal server error")
                      "An unexpected error occurred while processing your request" |}).

(** ** Running a sequence of requests *)

Fixpoint identifyAll (E : Env) (requests : list IdentifyRequest) (w : World) : World :=
  match requests with
  | [] => w
  | r :: rest => identifyAll E rest (snd (identifyContact E r w))
  end.

Module Scenario.

Definition ids (n : nat) : string :=
  match n with
  | 0 => "c1" | 1 => "c2" | 2 => "c3" | 3 => "c4" | _ => "c5"
  end.

(** A clock that advances at every reading, a client that is always
    served, and items enumerated in the order of their insertion. *)
Definition calm : Env :=
  {| uuidv4 := ids;
     clock := fun n => Z.of_nat (10 * S n);
     online := fun _ => true;
     slot := fun n => n |}.

Definition req (e p : string) : IdentifyRequest :=
  {| req_email := Some e; req_phoneNumber := Some p |}.

(** A chain of two records: c1 with email a, c2 with email b, both with
    phone 1. *)
Definition oneChain : World :=
  identifyAll calm [req "a" "1"; req "b" "1"] emptyWorld.

(** Two primaries created independently. *)
Definition twoPrimaries : World :=
  identifyAll calm [req "g@h.edu" "919191"; req "b@h.edu" "717171"] emptyWorld.

(** Records that answer a request for email b or phone 4 from three
    chains: c2 (under c1), c3 (still attached to c2) and c4. *)
Definition threeChains : World :=
  identifyAll calm
    [req "a" "1"; req "b" "2"; req "b" "3"; req "a" "2"; req "d" "4"] emptyWorld.

End Scenario.

(** * Vocabulary of the statements *)

Unset Implicit Arguments.

(** [preserves P m]: running [m] keeps the world inside [P], whether it
    returns or throws. *)
Definition preserves {A} (P : World -> Prop) (m : M A) : Prop :=
  forall w, P w -> P (snd (m w)).

(** ** Reads and requests *)

(** [unwritten w0 w]: between [w0] and [w] no item changed, no write was
    even attempted, and neither an identifier nor a date was drawn. *)
Definition unwritten (w0 w : World) : Prop :=
  table w = table w0 /\ writes w = writes w0
  /\ uuids w = uuids w0 /\ dates w = dates w0.

Definition isRead (c : Command) : Prop := isWrite c = false.

Definition supplied (request : IdentifyRequest) : Prop :=
  truthy (req_email request) = true \/ truthy (req_phoneNumber request) = true.

Definition queryOf (request : IdentifyRequest) : ContactQueryParams :=
  {| q_email := provided (req_email request);
     q_phoneNumber := provided (req_phoneNumber request) |}.

(** [guarded m] is [m] under the [try]/[catch] of [identifyContact]. *)
Definition guarded (m : M (DbOperationResult ConsolidatedContact))
  : M (DbOperationResult ConsolidatedContact) :=
  tryCatch m (ret internalError).

(** Once the matching read has returned records and they are grouped,
    [identifyContact] continues with the branch chosen by the number of
    groups. *)
Definition dispatch (E : Env) (request : IdentifyRequest)
           (contactGroups : list ContactGroup)
  : M (DbOperationResult ConsolidatedContact) :=
  match contactGroups with
  | [group] =>
      when (shouldCreateSecondaryContact request (contacts group))
           (createSecondaryContact E request (primaryId group)) ;;;
      buildConsolidatedResponse E (primaryId group)
  | [_; _] => linkTwoPrimaryContacts E contactGroups request
  | [] => throw
  | first :: others =>
      buildConsolidatedResponse E (primaryId (fold_left olderOf others first))
  end.

Definition matches (request : IdentifyRequest) (c : Contact) : bool :=
  satisfies (FilterEmailOrPhone (provided (req_email request))
                                (provided (req_phoneNumber request))) c.

Definition hasNewEmail (request : IdentifyRequest) (cs : list Contact) : bool :=
  truthy (req_email request)
  && negb (existsb (fun contact => strictEq (email contact) (req_email request)) cs).

Definition hasNewPhone (request : IdentifyRequest) (cs : list Contact) : bool :=
  truthy (req_phoneNumber request)
  && negb (existsb (fun contact =>
                      strictEq (phoneNumber contact) (req_phoneNumber request)) cs).

(** A member agrees with the request on every field the request supplies. *)
Definition agrees (request : IdentifyRequest) (c : Contact) : Prop :=
  (truthy (req_email request) = true -> email c = req_email request)
  /\ (truthy (req_phoneNumber request) = true ->
      phoneNumber c = req_phoneNumber request).

(** Every supplied value already appears on some record of [cs]. *)
Definition known (request : IdentifyRequest) (cs : list Contact) : Prop :=
  (truthy (req_email request) = true ->
   exists c, In c cs /\ email c = req_email request)
  /\ (truthy (req_phoneNumber request) = true ->
      exists c, In c cs /\ phoneNumber c = req_phoneNumber request).

(** ** Empty fields *)

(** The request with its falsy fields dropped. *)
Definition normalize (request : IdentifyRequest) : IdentifyRequest :=
  {| req_email := provided (req_email request);
     req_phoneNumber := provided (req_phoneNumber request) |}.

Definition nonEmpty (s : option string) : Prop := s <> Some EmptyString.

(** A command that neither filters on an empty string nor stores one. *)
Definition clean (c : Command) : Prop :=
  match c with
  | PutCommand item => nonEmpty (email item) /\ nonEmpty (phoneNumber item)
  | ScanCommand (FilterEmailOrPhone e p) => nonEmpty e /\ nonEmpty p
  | _ => True
  end.

Definition cleanTrace (w : World) : Prop := Forall clean (trace w).

(** ** Views *)

(** The truthy values of a field along a list of records. *)
Definition valuesOf (f : Contact -> option string) (cs : list Contact) : list string :=
  flat_map (fun c => singleton (f c)) cs.

Definition differs (x y : string) : bool := negb (String.eqb y x).

(** Deduplication in which the first occurrence wins; strings are compared
    character by character, case included. *)
Fixpoint keepFirst (xs : list string) : list string :=
  match xs with
  | [] => []
  | x :: rest => x :: filter (differs x) (keepFirst rest)
  end.

Definition secondariesOf (all : list Contact) : list Contact :=
  filter (fun c => isSecondary (linkPrecedence c)) all.

(** The records a Scan on [linkedId = k] returns, in scan order. *)
Definition chainScan (k : string) (t : list Contact) : list Contact :=
  filter (satisfies (FilterLinkedId k)) t.

Definition afterView (k : string) (w : World) : World :=
  served 0 (ScanCommand (FilterLinkedId k)) (served 0 (GetCommand k) w).

(** The view the consolidator builds from a root and the secondaries
    listed after it. *)
Definition viewOf (root : Contact) (secondaries : list Contact) : ConsolidatedContact :=
  {| primaryContactId := id root;
     emails := keepFirst (valuesOf email (root :: secondaries));
     phoneNumbers := keepFirst (valuesOf phoneNumber (root :: secondaries));
     secondaryContactIds := map id secondaries |}.

Module Shuffled.

(** As [Scenario.calm], but every new item is enumerated right after the
    first item of the table. *)
Definition env : Env :=
  {| uuidv4 := Scenario.ids;
     clock := fun n => Z.of_nat (10 * S n);
     online := fun _ => true;
     slot := fun _ => 1 |}.

Definition world : World :=
  identifyAll env
    [Scenario.req "a" "1"; Scenario.req "b" "1"; Scenario.req "c" "1"] emptyWorld.

End Shuffled.

(** The order the specification asks for: secondaries by ascending
    [createdAt]. *)
Fixpoint insertByCreatedAt (c : Contact) (sorted : list Contact) : list Contact :=
  match sorted with
  | [] => [c]
  | x :: rest =>
      if Z.ltb (createdAt c) (createdAt x) then c :: x :: rest
      else x :: insertByCreatedAt c rest
  end.

Definition byCreatedAt (cs : list Contact) : list Contact :=
  fold_right insertByCreatedAt [] cs.

(** ** Worlds left by served commands *)

Definition matchingScan (request : IdentifyRequest) : Command :=
  ScanCommand (FilterEmailOrPhone (provided (req_email request))
                                  (provided (req_phoneNumber request))).

(** The record [create] builds in world [w], and the world it leaves when
    the Put is served. *)
Definition createdIn (E : Env) (params : CreateContactParams) (w : World) : Contact :=
  {| id := uuidv4 E (uuids w);
     phoneNumber := cp_phoneNumber params;
     email := cp_email params;
     linkedId := cp_linkedId params;
     linkPrecedence := cp_linkPrecedence params;
     createdAt := clock E (dates w);
     updatedAt := clock E (dates w) |}.

Definition afterCreate (E : Env) (params : CreateContactParams) (w : World) : World :=
  {| table := putItem (slot E (length (trace w))) (createdIn E params w) (table w);
     trace := trace w ++ [PutCommand (createdIn E params w)];
     uuids := S (uuids w);
     dates := S (dates w) |}.

Definition primaryParams (request : IdentifyRequest) : CreateContactParams :=
  {| cp_phoneNumber := provided (req_phoneNumber request);
     cp_email := provided (req_email request);
     cp_linkedId := None;
     cp_linkPrecedence := primary |}.

(** ** Chains and merges *)

(** What holds of the two roots from the demotion on: the older root is
    the record [rootO], the newer root is the record [demoted], the keys of
    the table are [keys] and no identifier has been drawn since. *)
Definition merged (olderId newerId : string) (rootO demoted : Contact)
           (keys : list string) (drawn : nat) (w : World) : Prop :=
  getItem olderId (table w) = Some rootO
  /\ getItem newerId (table w) = Some demoted
  /\ map id (table w) = keys
  /\ uuids w = drawn.

(** Commands that touch neither root. *)
Definition spares (olderId newerId : string) (c : Command) : Prop :=
  match c with
  | UpdateCommand u => up_id u <> olderId /\ up_id u <> newerId
  | PutCommand _ => False
  | _ => True
  end.

Definition olderGroup (g1 g2 : ContactGroup) : ContactGroup :=
  if Z.ltb (g_createdAt g1) (g_createdAt g2) then g1 else g2.

Definition newerGroup (g1 g2 : ContactGroup) : ContactGroup :=
  if Z.ltb (g_createdAt g1) (g_createdAt g2) then g2 else g1.

(** Every secondary record names a stored primary record. *)
Definition linksToPrimary (t : list Contact) (c : Contact) : bool :=
  match linkPrecedence c with
  | primary => true
  | secondary =>
      match linkedId c with
      | Some k =>
          match getItem k t with
          | Some p => isPrimary (linkPrecedence p)
          | None => false
          end
      | None => false
      end
  end.

Definition chainIntegrity (t : list Contact) : bool := forallb (linksToPrimary t) t.

(** ** Scenarios with an unmatched secondary and with refused writes *)

Module Orphan.

(** c1 and c2 are created as primaries, c3 is attached to c2 through the
    email b with a new phone; the last request joins c1 and c2 without
    matching c3. *)
Definition before : World :=
  identifyAll Scenario.calm
    [Scenario.req "a" "1"; Scenario.req "b" "2"; Scenario.req "b" "3"] emptyWorld.

Definition request : IdentifyRequest := Scenario.req "a" "2".

Definition after : World := snd (identifyContact Scenario.calm request before).

(** The records the matching read of that last call returns, and the
    groups made of them. *)
Definition matched : list Contact := filter (matches request) (table before).

Definition groups : outcome (list ContactGroup) :=
  fst (groupContactsByPrimary Scenario.calm matched
         (snd (findByEmailOrPhone Scenario.calm (queryOf request) before))).

End Orphan.

Module Flaky.

(** The store refuses the fourth command it receives and serves all the
    others. *)
Definition env : Env :=
  {| uuidv4 := Scenario.ids;
     clock := fun n => Z.of_nat (10 * S n);
     online := fun n => negb (Nat.eqb n 3);
     slot := fun n => n |}.

Definition before : World := identifyAll env [Scenario.req "a" "1"] emptyWorld.

Definition request : IdentifyRequest := Scenario.req "b" "1".

Definition after : World := snd (identifyContact env request before).

(** The store refuses the eleventh command it receives. *)
Definition env' : Env :=
  {| uuidv4 := Scenario.ids;
     clock := fun n => Z.of_nat (10 * S n);
     online := fun n => negb (Nat.eqb n 10);
     slot := fun n => n |}.

Definition before' : World :=
  identifyAll env'
    [Scenario.req "a" "1"; Scenario.req "b" "2"; Scenario.req "c" "2"] emptyWorld.

Definition request' : IdentifyRequest := Scenario.req "a" "2".

Definition after' : World := snd (identifyContact env' request' before').

End Flaky.

(** ** Results, records and runs *)

(** A result is either a success carrying data and no error, or a failure
    carrying an error message and no data. *)
Definition wellFormed {T} (r : DbOperationResult T) : Prop :=
  (exists x, r = succeeded x) \/ (exists msg, r = failed msg).

(** [yields Q m]: whatever [m] returns satisfies [Q]. *)
Definition yields {A} (Q : A -> Prop) (m : M A) : Prop :=
  forall w a w', m w = (Ret a, w') -> Q a.

Definition secondaryParams (request : IdentifyRequest) (k : string)
  : CreateContactParams :=
  {| cp_phoneNumber := provided (req_phoneNumber request);
     cp_email := provided (req_email request);
     cp_linkedId := Some k;
     cp_linkPrecedence := secondary |}.

(** The record [create] would store under key [k] at time [now]. *)
Definition recordOf (params : CreateContactParams) (k : string) (now : Z) : Contact :=
  {| id := k;
     phoneNumber := cp_phoneNumber params;
     email := cp_email params;
     linkedId := cp_linkedId params;
     linkPrecedence := cp_linkPrecedence params;
     createdAt := now;
     updatedAt := now |}.

Definition uniqueKeys (w : World) : Prop := NoDup (map id (table w)).

Definition keepsKeys (keys : list string) (w : World) : Prop :=
  incl keys (map id (table w)).

(** A primary carries no [linkedId]; a secondary carries one. *)
Definition linkShape (c : Contact) : Prop :=
  match linkPrecedence c with
  | primary => linkedId c = None
  | secondary => linkedId c <> None
  end.

Definition hasContactInfo (c : Contact) : Prop :=
  truthy (email c) = true \/ truthy (phoneNumber c) = true.

(** [c'] is [c] after demotions and re-pointings at most: key, email, phone
    and creation time are the same, and a secondary is still a secondary. *)
Definition sameCore (c c' : Contact) : Prop :=
  id c' = id c
  /\ email c' = email c
  /\ phoneNumber c' = phoneNumber c
  /\ createdAt c' = createdAt c
  /\ (linkPrecedence c = secondary -> linkPrecedence c' = secondary).

Definition keepsRecords (t0 t : list Contact) : Prop :=
  forall c, In c t0 -> exists c', In c' t /\ sameCore c c'.

(** Writes whose record or attributes have the shape of a link. *)
Definition linkWrite (c : Command) : Prop :=
  match c with
  | PutCommand item => linkShape item
  | UpdateCommand u =>
      up_linkedId u <> None /\ up_linkPrecedence u = Some secondary
  | _ => True
  end.

(** Writes that store a record only if it carries an email or a phone. *)
Definition infoWrite (c : Command) : Prop :=
  match c with
  | PutCommand item => hasContactInfo item
  | _ => True
  end.

(** The records of [t0] are kept and no fewer than [drawn] identifiers
    have been drawn. *)
Definition keepsRecordsFrom (t0 : list Contact) (drawn : nat) (w : World) : Prop :=
  keepsRecords t0 (table w) /\ drawn <= uuids w.

(** The world in which [linkTwoPrimaryContacts] builds its answer, when
    the demotion was served at clock reading [now]: after the loop over the
    members of the newer group and the optional creation. *)
Definition afterDemotion (E : Env) (request : IdentifyRequest)
           (older newer : ContactGroup) (w : World) : World :=
  let wb := served 0 (UpdateCommand (demotion (primaryId newer) (primaryId older)
                                              (clock E (dates w))))
                   (snd (newDate E w)) in
  let wc := snd (forOf (contacts newer) (repoint E (primaryId older)) wb) in
  snd (when (shouldCreateSecondaryContact request
               (contacts older ++ contacts newer))
            (createSecondaryContact E request (primaryId older)) wc).

(** The record under [k] is a secondary of [older]. *)
Definition linkedTo (older k : string) (t : list Contact) : Prop :=
  exists c, getItem k t = Some c
            /\ linkedId c = Some older /\ linkPrecedence c = secondary.

Module Tie.

(** As [Scenario.calm], but the clock stands still. *)
Definition still : Env :=
  {| uuidv4 := Scenario.ids;
     clock := fun _ => 10%Z;
     online := fun _ => true;
     slot := fun n => n |}.

(** The store serves the first [n] commands and refuses the later ones. *)
Definition until (n : nat) : Env :=
  {| uuidv4 := Scenario.ids;
     clock := fun k => Z.of_nat (10 * S k);
     online := fun k => Nat.ltb k n;
     slot := fun k => k |}.

End Tie.

Module Stale.

(** Five records.  c3 is demoted under c2 by a request that does not match
    its secondary c4; c2 is then demoted under c1 by a request that does
    not match c3; c5 is a primary of its own.  Every store operation
    succeeds.  The last request finds c3 and c4 by email and c5 by phone. *)
Definition before : World :=
  identifyAll Scenario.calm
    [Scenario.req "a" "1"; Scenario.req "b" "2"; Scenario.req "e" "3";
     Scenario.req "e" "4"; Scenario.req "b" "3"; Scenario.req "a" "2";
     Scenario.req "q" "5"] emptyWorld.

Definition request : IdentifyRequest := Scenario.req "e" "5".

Definition after : World := snd (identifyContact Scenario.calm request before).

Definition matched : list Contact := filter (matches request) (table before).

Definition groups : outcome (list ContactGroup) :=
  fst (groupContactsByPrimary Scenario.calm matched
         (snd (findByEmailOrPhone Scenario.calm (queryOf request) before))).

End Stale.

(** The identifiers still to be drawn are not keys of the table. *)
Definition freshFrom (E : Env) (w : World) : Prop :=
  forall n, uuids w <= n -> ~ In (uuidv4 E n) (map id (table w)).

(** * Properties *)

(** Runs the matching read and the grouper of a concrete call and hands
    their results to [k]. *)
Ltac with_groups E request w k :=
  let found := eval vm_compute in (findByEmailOrPhone E (queryOf request) w) in
  lazymatch found with
  | (Ret ?r, ?w1) =>
      let d := eval vm_compute in (data r) in
      lazymatch d with
      | Some ?cs =>
          let grouped := eval vm_compute in (groupContactsByPrimary E cs w1) in
          lazymatch grouped with
          | (Ret ?gs, ?w2) => k r w1 cs gs w2
          end
      end
  end.

(** ** What a computation leaves invariant

    [preserves P m]: running [m] keeps the world inside [P], whether it
    returns or throws.  The lemmas are parametric in the predicate and in
    the commands [ok] that are known to keep it. *)

Section Preservation.

Variable E : Env.
Variable P : World -> Prop.
Variable ok : Command -> Prop.

Local Abbreviation preserves := (preserves P).

Hypothesis P_send : forall c w, ok c -> P w -> P (snd (docClient_send E c w)).
Hypothesis P_date : forall w, P w -> P (snd (newDate E w)).
Hypothesis P_uuid : forall w, P w -> P (snd (newUuid E w)).

Lemma preserves_ret A (a : A) : preserves (ret a).
Proof. intros w H; exact H. Qed.

Lemma preserves_throw A : preserves (@throw A).
Proof. intros w H; exact H. Qed.

Lemma preserves_bind A B (m : M A) (f : A -> M B) :
  preserves m -> (forall a, preserves (f a)) -> preserves (bind m f).
Proof.
  intros Hm Hf w H. unfold bind.
  specialize (Hm w H). destruct (m w) as [[a|] w']; simpl in *.
  - apply Hf; assumption.
  - assumption.
Qed.

Lemma preserves_tryCatch A (m h : M A) :
  preserves m -> preserves h -> preserves (tryCatch m h).
Proof.
  intros Hm Hh w H. unfold tryCatch.
  specialize (Hm w H). destruct (m w) as [[a|] w']; simpl in *.
  - assumption.
  - apply Hh; assumption.
Qed.

Lemma preserves_when b (m : M unit) : preserves m -> preserves (when b m).
Proof. destruct b; simpl; auto using preserves_ret. Qed.

Lemma preserves_forOf A (xs : list A) (body : A -> M unit) :
  (forall x, In x xs -> preserves (body x)) -> preserves (forOf xs body).
Proof.
  induction xs as [|x xs IH]; intros Hb; simpl.
  - apply preserves_ret.
  - apply preserves_bind.
    + apply Hb; left; reflexivity.
    + intros _. apply IH. intros y Hy. apply Hb; right; assumption.
Qed.

Lemma preserves_send c : ok c -> preserves (docClient_send E c).
Proof. intros Hc w H. apply P_send; assumption. Qed.

Lemma preserves_getById k : ok (GetCommand k) -> preserves (getById E k).
Proof.
  intros Hk. unfold getById.
  apply preserves_tryCatch; [|apply preserves_ret].
  apply preserves_bind; [apply preserves_send; assumption|].
  intros r. destruct (Item r); apply preserves_ret.
Qed.

Lemma preserves_update u : ok (UpdateCommand u) -> preserves (update E u).
Proof.
  intros Hu. unfold update.
  apply preserves_tryCatch; [|apply preserves_ret].
  apply preserves_bind; [apply preserves_send; assumption|].
  intros r. apply preserves_ret.
Qed.

Lemma preserves_create params :
  (forall k now,
      ok (PutCommand {| id := k;
                        phoneNumber := cp_phoneNumber params;
                        email := cp_email params;
                        linkedId := cp_linkedId params;
                        linkPrecedence := cp_linkPrecedence params;
                        createdAt := now; updatedAt := now |})) ->
  preserves (create E params).
Proof.
  intros Hp. unfold create.
  apply preserves_tryCatch; [|apply preserves_ret].
  apply preserves_bind; [exact P_date|]. intros now.
  apply preserves_bind; [exact P_uuid|]. intros k.
  apply preserves_bind; [apply preserves_send; apply Hp|].
  intros _. apply preserves_ret.
Qed.

Lemma preserves_findByEmailOrPhone q :
  ok (ScanCommand (FilterEmailOrPhone (provided (q_email q))
                                      (provided (q_phoneNumber q)))) ->
  preserves (findByEmailOrPhone E q).
Proof.
  intros Hq. unfold findByEmailOrPhone.
  apply preserves_tryCatch; [|apply preserves_ret].
  destruct (truthy (q_email q) || truthy (q_phoneNumber q)).
  - apply preserves_bind; [apply preserves_send; assumption|].
    intros r. apply preserves_ret.
  - apply preserves_ret.
Qed.

Hypothesis ok_get : forall k, ok (GetCommand k).
Hypothesis ok_chain : forall k, ok (ScanCommand (FilterLinkedId k)).

Lemma preserves_getLinkedContacts k : preserves (getLinkedContacts E k).
Proof.
  unfold getLinkedContacts.
  apply preserves_tryCatch; [|apply preserves_ret].
  apply preserves_bind; [apply preserves_getById; apply ok_get|].
  intros r. destruct (success r); [|apply preserves_ret].
  destruct (data r); [|apply preserves_ret].
  apply preserves_bind; [apply preserves_send; apply ok_chain|].
  intros r'. apply preserves_ret.
Qed.

Lemma preserves_buildConsolidatedResponse k :
  preserves (buildConsolidatedResponse E k).
Proof.
  unfold buildConsolidatedResponse.
  apply preserves_bind; [apply preserves_getLinkedContacts|].
  intros r. destruct (success r); [|apply preserves_ret].
  destruct (data r) as [cs|]; [|apply preserves_ret].
  destruct (find _ cs); [apply preserves_ret|apply preserves_throw].
Qed.

Lemma preserves_ensureGroup c pid groups : preserves (ensureGroup E c pid groups).
Proof.
  unfold ensureGroup.
  destruct (hasGroup pid groups); [apply preserves_ret|].
  apply preserves_bind; [|intros p; apply preserves_ret].
  destruct (linkPrecedence c); [apply preserves_ret|].
  apply preserves_bind; [apply preserves_getById; apply ok_get|].
  intros r. destruct (data r); [apply preserves_ret|apply preserves_throw].
Qed.

Lemma preserves_groupLoop cs : forall groups, preserves (groupLoop E cs groups).
Proof.
  induction cs as [|c cs IH]; intros groups; simpl.
  - apply preserves_ret.
  - destruct (rootIdOf c) as [pid|]; [|apply preserves_throw].
    apply preserves_bind; [apply preserves_ensureGroup|intros g'; apply IH].
Qed.

Lemma preserves_groupContactsByPrimary cs :
  preserves (groupContactsByPrimary E cs).
Proof. apply preserves_groupLoop. Qed.

End Preservation.

(** ** Reads leave the store alone *)

Lemma unwritten_refl w : unwritten w w.
Proof. repeat split. Qed.

Lemma unwritten_send E w0 c w :
  isRead c -> unwritten w0 w -> unwritten w0 (snd (docClient_send E c w)).
Proof.
  unfold isRead, unwritten, writes, docClient_send.
  intros Hc (Ht & Hw & Hu & Hd).
  destruct (online E (length (trace w))); simpl;
    rewrite filter_app; simpl; rewrite Hc, app_nil_r;
    repeat split; try assumption.
  destruct c; simpl in *; try discriminate; assumption.
Qed.

Section Reads.

Variable E : Env.
Variable w0 : World.

Local Abbreviation keeps := (preserves (unwritten w0)).

Lemma findByEmailOrPhone_unwritten q : keeps (findByEmailOrPhone E q).
Proof.
  apply preserves_findByEmailOrPhone with (ok := isRead); [|reflexivity].
  intros; apply unwritten_send; assumption.
Qed.

Lemma groupContactsByPrimary_unwritten cs : keeps (groupContactsByPrimary E cs).
Proof.
  apply preserves_groupContactsByPrimary with (ok := isRead); [|reflexivity].
  intros; apply unwritten_send; assumption.
Qed.

Lemma buildConsolidatedResponse_unwritten k :
  keeps (buildConsolidatedResponse E k).
Proof.
  apply preserves_buildConsolidatedResponse with (ok := isRead);
    try reflexivity.
  intros; apply unwritten_send; assumption.
Qed.

End Reads.

(** How a run that returned is used in the proofs below. *)
Lemma unwritten_after A (m : M A) w a w' :
  (forall w0, preserves (unwritten w0) m) -> m w = (a, w') -> unwritten w w'.
Proof.
  intros Hm Hrun. specialize (Hm w w (unwritten_refl w)).
  rewrite Hrun in Hm. exact Hm.
Qed.

(** ** The request as the service reads it *)

Lemma supplied_guard request :
  supplied request ->
  negb (truthy (req_email request)) && negb (truthy (req_phoneNumber request)) = false.
Proof. intros [H|H]; rewrite H; simpl; auto using andb_false_r. Qed.

Lemma matching_unwritten E request w r w1 cs gs w2 :
  findByEmailOrPhone E (queryOf request) w = (Ret r, w1) ->
  groupContactsByPrimary E cs w1 = (Ret gs, w2) ->
  unwritten w w2.
Proof.
  intros Hfind Hgroup.
  assert (H1 : unwritten w w1)
    by (eapply unwritten_after; [|exact Hfind];
        intros; apply findByEmailOrPhone_unwritten).
  pose proof (groupContactsByPrimary_unwritten E w cs w1 H1) as H.
  rewrite Hgroup in H. exact H.
Qed.

Lemma guarded_view_unwritten E k w0 w :
  unwritten w0 w ->
  unwritten w0 (snd (guarded (buildConsolidatedResponse E k) w)).
Proof.
  intros H.
  assert (Hp : preserves (unwritten w0) (guarded (buildConsolidatedResponse E k))).
  { apply preserves_tryCatch; [|apply preserves_ret].
    apply buildConsolidatedResponse_unwritten. }
  apply Hp. exact H.
Qed.

Lemma groupContactsByPrimary_nil E w gs w' :
  groupContactsByPrimary E [] w = (Ret gs, w') -> gs = [].
Proof. unfold groupContactsByPrimary; simpl; unfold ret; congruence. Qed.

Lemma identifyContact_grouped E request w r w1 cs gs w2 :
  supplied request ->
  findByEmailOrPhone E (queryOf request) w = (Ret r, w1) ->
  success r = true ->
  data r = Some cs ->
  groupContactsByPrimary E cs w1 = (Ret gs, w2) ->
  gs <> [] ->
  identifyContact E request w = guarded (dispatch E request gs) w2.
Proof.
  intros Hs Hfind Hok Hdata Hgroup Hne.
  unfold identifyContact, guarded, tryCatch.
  rewrite (supplied_guard request Hs).
  fold (queryOf request). unfold bind at 1. rewrite Hfind, Hok, Hdata.
  destruct cs as [|c cs'].
  - apply groupContactsByPrimary_nil in Hgroup. contradiction.
  - cbn [negb]. unfold bind at 1. rewrite Hgroup. reflexivity.
Qed.

(** ** Requests without a usable field *)

(** C8. A request that supplies neither an email nor a phone number is
    answered with the failure "At least one of email or phoneNumber must be
    provided", and the world is unchanged: no command reached the document
    client, neither a read nor a write. *)
Theorem identifyContact_rejects_missing_fields E request w :
  truthy (req_email request) = false ->
  truthy (req_phoneNumber request) = false ->
  identifyContact E request w
  = (Ret {| success := false;
            data := None;
            error := Some "At least one of email or phoneNumber must be provided" |},
     w).
Proof.
  intros He Hp. unfold identifyContact, tryCatch. rewrite He, Hp. reflexivity.
Qed.

Lemma identifyContact_rejects_missing_fields_witness :
  identifyContact Scenario.calm {| req_email := None; req_phoneNumber := None |}
                  Scenario.oneChain
  = (Ret {| success := false;
            data := None;
            error := Some "At least one of email or phoneNumber must be provided" |},
     Scenario.oneChain).
Proof.
  apply (identifyContact_rejects_missing_fields Scenario.calm
           {| req_email := None; req_phoneNumber := None |}); reflexivity.
Defined.

(** ** More than two chains *)

Lemma olderOf_cases a b :
  (olderOf a b = a /\ (g_createdAt a < g_createdAt b)%Z)
  \/ (olderOf a b = b /\ (g_createdAt b <= g_createdAt a)%Z).
Proof.
  unfold olderOf. destruct (Z.ltb_spec (g_createdAt a) (g_createdAt b)); auto.
Qed.

Lemma reduce_olderOf_oldest others : forall first,
  In (fold_left olderOf others first) (first :: others)
  /\ forall g, In g (first :: others) ->
               (g_createdAt (fold_left olderOf others first) <= g_createdAt g)%Z.
Proof.
  induction others as [|o os IH]; intros first; simpl.
  - split; [left; reflexivity|]. intros g [<-|[]]. lia.
  - destruct (IH (olderOf first o)) as [Hin Hmin]. split.
    + destruct Hin as [Hin|Hin]; [|right; right; exact Hin].
      destruct (olderOf_cases first o) as [[Ho _]|[Ho _]];
        [left|right; left]; congruence.
    + intros g Hg.
      assert (Hfo : (g_createdAt (fold_left olderOf os (olderOf first o))
                     <= g_createdAt (olderOf first o))%Z)
        by (apply Hmin; left; reflexivity).
      assert (Hle : (g_createdAt (olderOf first o) <= g_createdAt first
                     /\ g_createdAt (olderOf first o) <= g_createdAt o)%Z)
        by (destruct (olderOf_cases first o) as [[-> ?]|[-> ?]]; lia).
      destruct Hg as [<-|[<-|Hg]]; [lia|lia|].
      apply Hmin. right. exact Hg.
Qed.

(** ** What the grouper returns *)

Lemma strictEq_refl a : strictEq a a = true.
Proof. destruct a; simpl; auto using String.eqb_refl. Qed.

Lemma strictEq_eq a b : strictEq a b = true <-> a = b.
Proof.
  destruct a, b; simpl; split; intros H; try discriminate; try reflexivity.
  - apply String.eqb_eq in H. congruence.
  - injection H as ->. apply String.eqb_refl.
Qed.

Lemma ensureGroup_cases E c pid groups w groups' w' :
  ensureGroup E c pid groups w = (Ret groups', w') ->
  (hasGroup pid groups = true /\ groups' = groups)
  \/ (hasGroup pid groups = false
      /\ exists t, groups' = groups ++ [ {| primaryId := pid; g_createdAt := t;
                                           contacts := [] |} ]).
Proof.
  unfold ensureGroup. destruct (hasGroup pid groups).
  - unfold ret. intros H. left. split; congruence.
  - intros H. right. split; [reflexivity|].
    unfold bind in H.
    destruct (match linkPrecedence c with
              | primary => ret c
              | secondary => _
              end w) as [[p|] w1]; [|discriminate].
    unfold ret in H. exists (createdAt p). congruence.
Qed.

Lemma hasGroup_after_ensure E c pid groups w groups' w' :
  ensureGroup E c pid groups w = (Ret groups', w') ->
  hasGroup pid groups' = true /\ incl groups groups'.
Proof.
  intros H. apply ensureGroup_cases in H.
  destruct H as [[Hh ->]|[_ [t ->]]].
  - split; [assumption|apply incl_refl].
  - split; [|apply incl_appl, incl_refl].
    unfold hasGroup. rewrite existsb_app. simpl.
    rewrite String.eqb_refl. auto using orb_true_r.
Qed.

Lemma pushContact_pushes pid c groups :
  hasGroup pid groups = true ->
  exists g, In g (pushContact pid c groups) /\ In c (contacts g).
Proof.
  unfold hasGroup, pushContact. intros H.
  apply existsb_exists in H. destruct H as (g & Hg & Hk).
  eexists. split.
  - apply in_map. exact Hg.
  - rewrite Hk. simpl. apply in_or_app. right. left. reflexivity.
Qed.

Lemma pushContact_keeps pid c groups g x :
  In g groups -> In x (contacts g) ->
  exists g', In g' (pushContact pid c groups) /\ In x (contacts g').
Proof.
  unfold pushContact. intros Hg Hx.
  eexists. split.
  - apply in_map. exact Hg.
  - destruct (String.eqb (primaryId g) pid); simpl; [|assumption].
    apply in_or_app. left. assumption.
Qed.

(** Every record handed to the grouper ends up in one of the groups. *)
Lemma groupLoop_covers E cs : forall groups w gs w',
  groupLoop E cs groups w = (Ret gs, w') ->
  forall x,
    In x cs \/ (exists g, In g groups /\ In x (contacts g)) ->
    exists g, In g gs /\ In x (contacts g).
Proof.
  induction cs as [|c cs IH]; intros groups w gs w' Hrun x Hx; simpl in Hrun.
  - unfold ret in Hrun. injection Hrun as <- _.
    destruct Hx as [[]|Hx]. exact Hx.
  - destruct (rootIdOf c) as [pid|]; [|discriminate].
    unfold bind in Hrun.
    destruct (ensureGroup E c pid groups w) as [[groups'|] w1] eqn:He;
      [|discriminate].
    destruct (hasGroup_after_ensure _ _ _ _ _ _ _ He) as [Hhas Hincl].
    apply (IH _ _ _ _ Hrun).
    destruct Hx as [[<-|Hx]|(g & Hg & Hx)].
    + right. apply pushContact_pushes. exact Hhas.
    + left. exact Hx.
    + right. apply pushContact_keeps with (g := g); auto.
Qed.

Lemma groupContactsByPrimary_single E cs w g w' x :
  groupContactsByPrimary E cs w = (Ret [g], w') ->
  In x cs -> In x (contacts g).
Proof.
  intros Hrun Hx.
  destruct (groupLoop_covers E cs [] w [g] w' Hrun x (or_introl Hx))
    as (g' & [<-|[]] & Hin).
  exact Hin.
Qed.

(** ** The matching read *)

Lemma provided_idem s : provided (provided s) = provided s.
Proof.
  unfold provided. destruct (truthy s) eqn:H; [rewrite H|]; reflexivity.
Qed.

Lemma truthy_provided s : truthy (provided s) = truthy s.
Proof. unfold provided. destruct (truthy s) eqn:H; [rewrite H|]; reflexivity. Qed.

Lemma findByEmailOrPhone_matched E request w r w1 cs :
  supplied request ->
  findByEmailOrPhone E (queryOf request) w = (Ret r, w1) ->
  success r = true ->
  data r = Some cs ->
  cs = filter (matches request) (table w).
Proof.
  intros Hs Hfind Hok Hdata.
  unfold findByEmailOrPhone, tryCatch, queryOf in Hfind. simpl in Hfind.
  rewrite !truthy_provided, !provided_idem in Hfind.
  replace (truthy (req_email request) || truthy (req_phoneNumber request))
    with true in Hfind
    by (destruct Hs as [H|H]; rewrite H; auto using orb_true_r).
  unfold bind, docClient_send in Hfind.
  destruct (online E (length (trace w))); simpl in Hfind.
  - injection Hfind as <- _. simpl in Hdata. injection Hdata as <-. reflexivity.
  - injection Hfind as <- _. discriminate.
Qed.

Lemma matches_email request c :
  truthy (req_email request) = true ->
  email c = req_email request -> matches request c = true.
Proof.
  intros Ht He. unfold matches, satisfies, provided. rewrite Ht.
  destruct (req_email request) as [v|]; [|discriminate].
  unfold attrIs. rewrite He, strictEq_refl. reflexivity.
Qed.

Lemma matches_phone request c :
  truthy (req_phoneNumber request) = true ->
  phoneNumber c = req_phoneNumber request -> matches request c = true.
Proof.
  intros Ht He. unfold matches, satisfies, provided. rewrite Ht.
  destruct (req_phoneNumber request) as [v|]; [|discriminate].
  unfold attrIs. rewrite He, strictEq_refl. apply orb_true_r.
Qed.

(** ** New information *)

(** The exact-match test never changes the answer: a record equal to the
    request on both fields already rules out new information. *)
Lemma shouldCreateSecondaryContact_new request cs :
  shouldCreateSecondaryContact request cs
  = hasNewEmail request cs || hasNewPhone request cs.
Proof.
  unfold shouldCreateSecondaryContact, hasNewEmail, hasNewPhone.
  destruct (find (isExactMatch request) cs) as [c|] eqn:Hf; [|reflexivity].
  apply find_some in Hf. destruct Hf as [Hin Hm].
  unfold isExactMatch in Hm. apply andb_true_iff in Hm. destruct Hm as [He Hp].
  assert (H1 : existsb (fun contact => strictEq (email contact) (req_email request)) cs
               = true) by (apply existsb_exists; eauto).
  assert (H2 : existsb (fun contact =>
                          strictEq (phoneNumber contact) (req_phoneNumber request)) cs
               = true) by (apply existsb_exists; eauto).
  rewrite H1, H2. simpl. rewrite !andb_false_r. reflexivity.
Qed.

Lemma agrees_known request cs c : In c cs -> agrees request c -> known request cs.
Proof. intros Hin [He Hp]. split; intros H; exists c; auto. Qed.

Lemma known_matched request t :
  known request t -> known request (filter (matches request) t).
Proof.
  intros [He Hp]. split; intros H.
  - destruct (He H) as (c & Hin & Hc). exists c. split; [|exact Hc].
    apply filter_In. split; [exact Hin|]. apply matches_email; assumption.
  - destruct (Hp H) as (c & Hin & Hc). exists c. split; [|exact Hc].
    apply filter_In. split; [exact Hin|]. apply matches_phone; assumption.
Qed.

Lemma known_incl request cs cs' :
  (forall c, In c cs -> In c cs') -> known request cs -> known request cs'.
Proof.
  intros Hincl [He Hp]. split; intros H.
  - destruct (He H) as (c & Hin & Hc). exists c. auto.
  - destruct (Hp H) as (c & Hin & Hc). exists c. auto.
Qed.

Lemma known_nothing_new request cs :
  known request cs -> shouldCreateSecondaryContact request cs = false.
Proof.
  intros [He Hp]. rewrite shouldCreateSecondaryContact_new.
  unfold hasNewEmail, hasNewPhone. apply orb_false_iff. split.
  - destruct (truthy (req_email request)) eqn:Ht; [|reflexivity].
    destruct (He eq_refl) as (c & Hin & Hc). simpl.
    apply negb_false_iff, existsb_exists. exists c. split; [exact Hin|].
    apply strictEq_eq. exact Hc.
  - destruct (truthy (req_phoneNumber request)) eqn:Ht; [|reflexivity].
    destruct (Hp eq_refl) as (c & Hin & Hc). simpl.
    apply negb_false_iff, existsb_exists. exists c. split; [exact Hin|].
    apply strictEq_eq. exact Hc.
Qed.

(** C7. Single-chain case: the matched records form one group.  If some
    stored record agrees with the request on every field the request
    supplies, or if every supplied email and phone already appears on some
    stored record (in this case such records are members of the one matched
    chain), the call sends no Put and no Update, leaves the table as it
    was, and answers with the consolidated view of that chain. *)
Theorem identifyContact_nothing_new_no_write E request w r w1 cs g w2 :
  supplied request ->
  findByEmailOrPhone E (queryOf request) w = (Ret r, w1) ->
  success r = true ->
  data r = Some cs ->
  groupContactsByPrimary E cs w1 = (Ret [g], w2) ->
  (exists c, In c (table w) /\ agrees request c) \/ known request (table w) ->
  identifyContact E request w
  = guarded (buildConsolidatedResponse E (primaryId g)) w2
  /\ table (snd (identifyContact E request w)) = table w
  /\ writes (snd (identifyContact E request w)) = writes w.
Proof.
  intros Hs Hfind Hok Hdata Hgroup Hcond.
  assert (Hknown : known request (table w)).
  { destruct Hcond as [(c & Hin & Hc)|H]; [|exact H].
    apply agrees_known with (c := c); assumption. }
  assert (Hnone : shouldCreateSecondaryContact request (contacts g) = false).
  { apply known_nothing_new.
    apply known_incl with (cs := filter (matches request) (table w)).
    - rewrite <- (findByEmailOrPhone_matched E request w r w1 cs Hs Hfind Hok Hdata).
      intros c Hc. exact (groupContactsByPrimary_single E cs w1 g w2 c Hgroup Hc).
    - apply known_matched. exact Hknown. }
  assert (Hrun : identifyContact E request w
                 = guarded (buildConsolidatedResponse E (primaryId g)) w2).
  { rewrite (identifyContact_grouped E request w r w1 cs _ w2 Hs Hfind Hok Hdata Hgroup)
      by discriminate.
    unfold dispatch. rewrite Hnone. reflexivity. }
  split; [exact Hrun|].
  assert (Hkept : unwritten w (snd (identifyContact E request w))).
  { rewrite Hrun. apply guarded_view_unwritten.
    exact (matching_unwritten E request w r w1 cs _ w2 Hfind Hgroup). }
  destruct Hkept as (Htable & Hwrites & _). split; assumption.
Qed.

(** The store holds a chain with emails a, b and phone 1; a request for
    email b alone brings nothing new. *)
Lemma identifyContact_nothing_new_no_write_witness :
  let request := {| req_email := Some "b"; req_phoneNumber := None |} in
  exists g w2,
    identifyContact Scenario.calm request Scenario.oneChain
    = guarded (buildConsolidatedResponse Scenario.calm (primaryId g)) w2
    /\ table (snd (identifyContact Scenario.calm request Scenario.oneChain))
       = table Scenario.oneChain
    /\ writes (snd (identifyContact Scenario.calm request Scenario.oneChain))
       = writes Scenario.oneChain.
Proof.
  intros request.
  with_groups Scenario.calm request Scenario.oneChain
    ltac:(fun r w1 cs gs w2 =>
            lazymatch gs with
            | [?g] =>
                exists g, w2;
                apply (identifyContact_nothing_new_no_write Scenario.calm request
                         Scenario.oneChain r w1 cs g w2)
            end).
  - left. reflexivity.
  - vm_compute. reflexivity.
  - reflexivity.
  - reflexivity.
  - vm_compute. reflexivity.
  - left. eexists. split.
    + vm_compute. right. left. reflexivity.
    + split; intros H; [reflexivity|discriminate H].
Defined.

(** ** Empty strings *)

Lemma provided_nonEmpty s : nonEmpty (provided s).
Proof.
  unfold nonEmpty, provided. destruct s as [v|]; simpl; [|discriminate].
  destruct (String.eqb v EmptyString) eqn:H; simpl; [discriminate|].
  intros Heq. injection Heq as ->. discriminate.
Qed.

Lemma hasNewEmail_normalize request cs :
  hasNewEmail (normalize request) cs = hasNewEmail request cs.
Proof.
  unfold hasNewEmail, normalize. simpl. rewrite truthy_provided.
  unfold provided. destruct (truthy (req_email request)); reflexivity.
Qed.

Lemma hasNewPhone_normalize request cs :
  hasNewPhone (normalize request) cs = hasNewPhone request cs.
Proof.
  unfold hasNewPhone, normalize. simpl. rewrite truthy_provided.
  unfold provided. destruct (truthy (req_phoneNumber request)); reflexivity.
Qed.

Lemma shouldCreateSecondaryContact_normalize request cs :
  shouldCreateSecondaryContact (normalize request) cs
  = shouldCreateSecondaryContact request cs.
Proof.
  rewrite !shouldCreateSecondaryContact_new.
  rewrite hasNewEmail_normalize, hasNewPhone_normalize. reflexivity.
Qed.

Lemma createNewPrimaryContact_normalize E request :
  createNewPrimaryContact E (normalize request) = createNewPrimaryContact E request.
Proof.
  unfold createNewPrimaryContact, normalize. simpl.
  rewrite !provided_idem. reflexivity.
Qed.

Lemma createSecondaryContact_normalize E request k :
  createSecondaryContact E (normalize request) k = createSecondaryContact E request k.
Proof.
  unfold createSecondaryContact, normalize. simpl.
  rewrite !provided_idem. reflexivity.
Qed.

Lemma linkTwoPrimaryContacts_normalize E gs request :
  linkTwoPrimaryContacts E gs (normalize request)
  = linkTwoPrimaryContacts E gs request.
Proof.
  unfold linkTwoPrimaryContacts.
  destruct gs as [|g1 [|g2 [|g3 rest]]]; try reflexivity.
  rewrite shouldCreateSecondaryContact_normalize.
  rewrite createSecondaryContact_normalize. reflexivity.
Qed.

Lemma bind_ext A B (m : M A) (f g : A -> M B) w :
  (forall a w', f a w' = g a w') -> bind m f w = bind m g w.
Proof.
  intros H. unfold bind. destruct (m w) as [[a|] w']; [apply H|reflexivity].
Qed.

Lemma tryCatch_ext A (m m' h : M A) w :
  (forall w', m w' = m' w') -> tryCatch m h w = tryCatch m' h w.
Proof. intros H. unfold tryCatch. rewrite H. reflexivity. Qed.

Lemma identifyContact_normalize E request w :
  identifyContact E request w = identifyContact E (normalize request) w.
Proof.
  unfold identifyContact. apply tryCatch_ext. intros w0.
  cbn [normalize req_email req_phoneNumber].
  rewrite !truthy_provided, !provided_idem.
  destruct (negb (truthy (req_email request))
            && negb (truthy (req_phoneNumber request))); [reflexivity|].
  apply bind_ext. intros r w1.
  destruct (negb (success r)); [reflexivity|].
  destruct (match data r with Some l => l | None => [] end) as [|c cs].
  - change {| req_email := provided (req_email request);
              req_phoneNumber := provided (req_phoneNumber request) |}
      with (normalize request).
    rewrite createNewPrimaryContact_normalize. reflexivity.
  - apply bind_ext. intros gs w2.
    change {| req_email := provided (req_email request);
              req_phoneNumber := provided (req_phoneNumber request) |}
      with (normalize request).
    destruct gs as [|g1 [|g2 [|g3 rest]]]; try reflexivity.
    + rewrite shouldCreateSecondaryContact_normalize,
        createSecondaryContact_normalize. reflexivity.
    + rewrite linkTwoPrimaryContacts_normalize. reflexivity.
Qed.

Create HintDb clean.

Section CleanCommands.

Variable E : Env.

Local Abbreviation keeps := (preserves cleanTrace).

Lemma cleanTrace_send c w :
  clean c -> cleanTrace w -> cleanTrace (snd (docClient_send E c w)).
Proof.
  unfold cleanTrace, docClient_send. intros Hc Hw.
  destruct (online E (length (trace w))); simpl;
    apply Forall_app; split; auto.
Qed.

Lemma cleanTrace_date w : cleanTrace w -> cleanTrace (snd (newDate E w)).
Proof. intros H; exact H. Qed.

Lemma cleanTrace_uuid w : cleanTrace w -> cleanTrace (snd (newUuid E w)).
Proof. intros H; exact H. Qed.

#[local] Hint Resolve cleanTrace_send cleanTrace_date cleanTrace_uuid : clean.

Lemma create_clean params :
  nonEmpty (cp_email params) -> nonEmpty (cp_phoneNumber params) ->
  keeps (create E params).
Proof.
  intros He Hp.
  apply preserves_create with (ok := clean); auto with clean.
  intros k now. split; assumption.
Qed.

Lemma update_clean u : keeps (update E u).
Proof.
  apply preserves_update with (ok := clean); auto with clean. exact I.
Qed.

Lemma buildConsolidatedResponse_clean k : keeps (buildConsolidatedResponse E k).
Proof.
  apply preserves_buildConsolidatedResponse with (ok := clean);
    auto with clean; intros; exact I.
Qed.

Lemma createNewPrimaryContact_clean request :
  keeps (createNewPrimaryContact E request).
Proof.
  unfold createNewPrimaryContact.
  apply preserves_bind.
  - apply create_clean; apply provided_nonEmpty.
  - intros r. destruct (success r); [|apply preserves_ret].
    destruct (data r); apply preserves_ret.
Qed.

Lemma createSecondaryContact_clean request k :
  keeps (createSecondaryContact E request k).
Proof.
  unfold createSecondaryContact.
  apply preserves_bind.
  - apply create_clean; apply provided_nonEmpty.
  - intros _. apply preserves_ret.
Qed.

Lemma repoint_clean older c : keeps (repoint E older c).
Proof.
  unfold repoint. destruct (linkPrecedence c); [apply preserves_ret|].
  apply preserves_bind; [exact cleanTrace_date|]. intros now.
  apply preserves_bind; [apply update_clean|]. intros _. apply preserves_ret.
Qed.

Lemma attach_and_view_clean request cs k :
  keeps (when (shouldCreateSecondaryContact request cs)
              (createSecondaryContact E request k) ;;;
         buildConsolidatedResponse E k).
Proof.
  apply preserves_bind.
  - apply preserves_when. apply createSecondaryContact_clean.
  - intros _. apply buildConsolidatedResponse_clean.
Qed.

Lemma linkTwoPrimaryContacts_clean gs request :
  keeps (linkTwoPrimaryContacts E gs request).
Proof.
  unfold linkTwoPrimaryContacts.
  destruct gs as [|g1 [|g2 [|g3 rest]]]; try apply preserves_ret.
  apply preserves_bind; [exact cleanTrace_date|]. intros now.
  apply preserves_bind; [apply update_clean|]. intros r.
  destruct (negb (success r)); [apply preserves_ret|].
  apply preserves_bind.
  - apply preserves_forOf. intros c _. apply repoint_clean.
  - intros _. apply attach_and_view_clean.
Qed.

Lemma identifyContact_clean request : keeps (identifyContact E request).
Proof.
  unfold identifyContact.
  apply preserves_tryCatch; [|apply preserves_ret].
  destruct (negb (truthy (req_email request))
            && negb (truthy (req_phoneNumber request))); [apply preserves_ret|].
  apply preserves_bind.
  - apply preserves_findByEmailOrPhone with (ok := clean); auto with clean.
    simpl. split; apply provided_nonEmpty.
  - intros r. destruct (negb (success r)); [apply preserves_ret|].
    destruct (match data r with Some l => l | None => [] end) as [|c cs].
    + apply createNewPrimaryContact_clean.
    + apply preserves_bind.
      * apply preserves_groupContactsByPrimary with (ok := clean);
          auto with clean; intros; exact I.
      * intros gs. destruct gs as [|g1 [|g2 [|g3 rest]]].
        -- apply preserves_throw.
        -- apply attach_and_view_clean.
        -- apply linkTwoPrimaryContacts_clean.
        -- apply buildConsolidatedResponse_clean.
Qed.

Lemma identifyAll_clean requests : forall w,
  cleanTrace w -> cleanTrace (identifyAll E requests w).
Proof.
  induction requests as [|r rest IH]; intros w Hw; simpl.
  - exact Hw.
  - apply IH. apply identifyContact_clean. exact Hw.
Qed.

End CleanCommands.

(** C10. An empty-string field counts as absent.  (1) Any request is
    handled exactly as the request with its empty fields dropped: same
    answer, same final world.  (2) A request whose two fields are empty
    strings is rejected like one with both fields missing: the same failure
    and an untouched world, hence no command sent.  (3) Over any run of
    requests, if no earlier command filtered on an empty string or stored
    one, none does afterwards: the matching Scan never uses an empty string
    as a key and no created record carries one. *)
Theorem empty_string_is_absent E :
  (forall request w,
      identifyContact E request w = identifyContact E (normalize request) w)
  /\ (forall w,
         identifyContact E {| req_email := Some EmptyString;
                              req_phoneNumber := Some EmptyString |} w
         = (Ret missingFields, w)
         /\ identifyContact E {| req_email := None; req_phoneNumber := None |} w
            = (Ret missingFields, w))
  /\ (forall requests w,
         cleanTrace w -> cleanTrace (identifyAll E requests w)).
Proof.
  split; [|split].
  - apply identifyContact_normalize.
  - intros w. split; reflexivity.
  - intros requests w. apply identifyAll_clean.
Qed.

Lemma empty_string_is_absent_witness :
  cleanTrace emptyWorld
  /\ cleanTrace (identifyAll Scenario.calm
                   [ {| req_email := Some EmptyString; req_phoneNumber := Some "1" |};
                     {| req_email := Some "a"; req_phoneNumber := Some EmptyString |} ]
                   emptyWorld).
Proof.
  assert (H : cleanTrace emptyWorld) by constructor.
  split; [exact H|].
  apply (proj2 (proj2 (empty_string_is_absent Scenario.calm))). exact H.
Defined.

(** ** The consolidated view *)

Lemma filter_comm A (p q : A -> bool) l :
  filter p (filter q l) = filter q (filter p l).
Proof.
  induction l as [|a l IH]; simpl; [reflexivity|].
  destruct (p a) eqn:Hp, (q a) eqn:Hq; simpl; rewrite ?Hp, ?Hq, IH; reflexivity.
Qed.

Lemma filter_idem A (p : A -> bool) l : filter p (filter p l) = filter p l.
Proof.
  induction l as [|a l IH]; simpl; [reflexivity|].
  destruct (p a) eqn:Hp; simpl; rewrite ?Hp, IH; reflexivity.
Qed.

Lemma differs_refl x : differs x x = false.
Proof. unfold differs. rewrite String.eqb_refl. reflexivity. Qed.

(** A later occurrence of [v] does not survive the removal of [v]. *)
Lemma keepFirst_skip v l r :
  filter (differs v) (keepFirst (l ++ v :: r))
  = filter (differs v) (keepFirst (l ++ r)).
Proof.
  induction l as [|b l IH]; simpl.
  - rewrite differs_refl. apply filter_idem.
  - rewrite (filter_comm _ (differs v) (differs b)), IH.
    rewrite (filter_comm _ (differs b) (differs v)). reflexivity.
Qed.

Lemma keepFirst_seen v l r :
  In v l -> keepFirst (l ++ v :: r) = keepFirst (l ++ r).
Proof.
  induction l as [|b l IH]; intros Hin; simpl; [destruct Hin|].
  f_equal. destruct Hin as [->|Hin].
  - apply keepFirst_skip.
  - rewrite IH by assumption. reflexivity.
Qed.

Lemma includes_In arr v : includes arr v = true <-> In v arr.
Proof.
  unfold includes. rewrite existsb_exists. split.
  - intros (x & Hx & He). apply String.eqb_eq in He. congruence.
  - intros H. exists v. split; [assumption|apply String.eqb_refl].
Qed.

Lemma filter_differs_fresh v l : ~ In v l -> filter (differs v) l = l.
Proof.
  induction l as [|a l IH]; intros Hn; simpl; [reflexivity|].
  unfold differs at 1. destruct (String.eqb_spec a v) as [->|Hne]; simpl.
  - exfalso. apply Hn. left. reflexivity.
  - rewrite IH; [reflexivity|]. intros H. apply Hn. right. exact H.
Qed.

Lemma keepFirst_NoDup l : NoDup l -> keepFirst l = l.
Proof.
  induction 1 as [|a l Hn Hl IH]; simpl; [reflexivity|].
  rewrite IH, filter_differs_fresh by assumption. reflexivity.
Qed.

Lemma NoDup_snoc (v : string) acc : NoDup acc -> ~ In v acc -> NoDup (acc ++ [v]).
Proof.
  induction 1 as [|a l Hn Hl IH]; intros Hv; simpl.
  - constructor; [intros []|constructor].
  - constructor.
    + intros Hin. apply in_app_or in Hin. destruct Hin as [Hin|[->|[]]].
      * contradiction.
      * apply Hv. left. reflexivity.
    + apply IH. intros Hin. apply Hv. right. exact Hin.
Qed.

(** The push loop over one field computes the deduplicated values. *)
Lemma pushNew_loop f cs : forall acc,
  NoDup acc ->
  fold_left (fun a c => pushNew a (f c)) cs acc = keepFirst (acc ++ valuesOf f cs).
Proof.
  induction cs as [|c cs IH]; intros acc Hacc; simpl.
  - rewrite app_nil_r. symmetry. apply keepFirst_NoDup. exact Hacc.
  - unfold pushNew at 2. unfold singleton.
    destruct (f c) as [v|]; [|apply IH; exact Hacc].
    destruct (truthy (Some v)); simpl; [|apply IH; exact Hacc].
    destruct (includes acc v) eqn:Hinc; simpl.
    + rewrite keepFirst_seen by (apply includes_In; exact Hinc).
      apply IH. exact Hacc.
    + rewrite IH.
      * rewrite <- app_assoc. reflexivity.
      * apply NoDup_snoc; [exact Hacc|].
        intros Hin. apply includes_In in Hin. congruence.
Qed.

Lemma collect_fst cs : forall acc,
  fst (fold_left collect cs acc)
  = fold_left (fun a c => pushNew a (email c)) cs (fst acc).
Proof. induction cs as [|c cs IH]; intros acc; simpl; [|rewrite IH]; reflexivity. Qed.

Lemma collect_snd cs : forall acc,
  snd (fold_left collect cs acc)
  = fold_left (fun a c => pushNew a (phoneNumber c)) cs (snd acc).
Proof. induction cs as [|c cs IH]; intros acc; simpl; [|rewrite IH]; reflexivity. Qed.

Lemma NoDup_singleton s : NoDup (singleton s).
Proof.
  unfold singleton. destruct s as [v|]; [|constructor].
  destruct (truthy (Some v)); repeat constructor. intros [].
Qed.

Lemma collected_emails p cs :
  fst (fold_left collect cs (singleton (email p), singleton (phoneNumber p)))
  = keepFirst (valuesOf email (p :: cs)).
Proof.
  rewrite collect_fst. simpl.
  apply pushNew_loop. apply NoDup_singleton.
Qed.

Lemma collected_phoneNumbers p cs :
  snd (fold_left collect cs (singleton (email p), singleton (phoneNumber p)))
  = keepFirst (valuesOf phoneNumber (p :: cs)).
Proof.
  rewrite collect_snd. simpl.
  apply pushNew_loop. apply NoDup_singleton.
Qed.

(** ** Runs in which the store answers *)

Lemma docClient_send_online E c w :
  online E (length (trace w)) = true ->
  docClient_send E c w
  = (Ret (snd (execute (slot E (length (trace w))) c (table w))),
     served (slot E (length (trace w))) c w).
Proof. intros H. unfold docClient_send. rewrite H. reflexivity. Qed.

Lemma getById_online E k w :
  online E (length (trace w)) = true ->
  getById E k w
  = (Ret (match getItem k (table w) with
          | Some item => succeeded item
          | None => failed "Contact not found"
          end),
     served 0 (GetCommand k) w).
Proof.
  intros H. unfold getById, tryCatch, bind.
  rewrite (docClient_send_online E _ w H). simpl.
  destruct (getItem k (table w)); reflexivity.
Qed.

Lemma getLinkedContacts_online E k w root :
  online E (length (trace w)) = true ->
  online E (S (length (trace w))) = true ->
  getItem k (table w) = Some root ->
  getLinkedContacts E k w
  = (Ret (succeeded (root :: chainScan k (table w))), afterView k w).
Proof.
  intros H0 H1 Hroot. unfold getLinkedContacts, tryCatch.
  unfold bind at 1. rewrite (getById_online E k w H0), Hroot. simpl.
  unfold bind. rewrite docClient_send_online.
  - reflexivity.
  - simpl. rewrite length_app. simpl. rewrite Nat.add_1_r. exact H1.
Qed.

Lemma buildConsolidatedResponse_online E k w root :
  online E (length (trace w)) = true ->
  online E (S (length (trace w))) = true ->
  getItem k (table w) = Some root ->
  linkPrecedence root = primary ->
  buildConsolidatedResponse E k w
  = (Ret (succeeded (viewOf root (secondariesOf (chainScan k (table w))))),
     afterView k w).
Proof.
  intros H0 H1 Hroot Hp. unfold buildConsolidatedResponse, bind.
  rewrite (getLinkedContacts_online E k w root H0 H1 Hroot). simpl.
  rewrite Hp. simpl.
  unfold ret, viewOf. rewrite collected_emails, collected_phoneNumbers.
  reflexivity.
Qed.

(** C4, as the code has it.  For a chain whose root [k] is a primary record
    and while the store answers, the consolidated view lists the primary's
    email (when present) first in [emails] and the primary's phone (when
    present) first in [phoneNumbers]; the values of the secondaries follow
    in the order in which the Scan on [linkedId = k] enumerates them,
    duplicates removed with the first occurrence kept under exact,
    case-sensitive comparison; [secondaryContactIds] is in that same scan
    order.  No ordering by [createdAt] takes place. *)
Theorem consolidated_view_in_scan_order E k w root :
  online E (length (trace w)) = true ->
  online E (S (length (trace w))) = true ->
  getItem k (table w) = Some root ->
  linkPrecedence root = primary ->
  let secondaries := secondariesOf (chainScan k (table w)) in
  exists view,
    fst (buildConsolidatedResponse E k w) = Ret (succeeded view)
    /\ primaryContactId view = k
    /\ emails view = keepFirst (valuesOf email (root :: secondaries))
    /\ phoneNumbers view = keepFirst (valuesOf phoneNumber (root :: secondaries))
    /\ secondaryContactIds view = map id secondaries
    /\ (truthy (email root) = true -> hd_error (emails view) = email root)
    /\ (truthy (phoneNumber root) = true ->
        hd_error (phoneNumbers view) = phoneNumber root).
Proof.
  intros H0 H1 Hroot Hp secondaries.
  exists (viewOf root secondaries).
  rewrite (buildConsolidatedResponse_online E k w root H0 H1 Hroot Hp).
  repeat split.
  - simpl. apply find_some in Hroot. destruct Hroot as [_ Hk].
    apply String.eqb_eq. exact Hk.
  - intros Ht. simpl. unfold singleton. rewrite Ht.
    destruct (email root); [reflexivity|discriminate].
  - intros Ht. simpl. unfold singleton. rewrite Ht.
    destruct (phoneNumber root); [reflexivity|discriminate].
Qed.

(** Counterexample to C4 as stated.  Three calls from the empty store
    create c1 (email a), then the secondaries c2 (email b, created at 20)
    and c3 (email c, created at 30); the store enumerates c3 before c2.  The
    view lists c (from c3) before b (from c2) and c3 before c2, while
    ascending [createdAt] asks for b before c and c2 before c3. *)
Lemma consolidated_view_not_by_createdAt :
  let scanned := secondariesOf (chainScan "c1" (table Shuffled.world)) in
  option_map linkPrecedence (getItem "c1" (table Shuffled.world)) = Some primary
  /\ map id scanned = ["c3"; "c2"]
  /\ map createdAt scanned = [30%Z; 20%Z]
  /\ map id (byCreatedAt scanned) = ["c2"; "c3"]
  /\ fst (buildConsolidatedResponse Shuffled.env "c1" Shuffled.world)
     = Ret (succeeded {| primaryContactId := "c1";
                         emails := ["a"; "c"; "b"];
                         phoneNumbers := ["1"];
                         secondaryContactIds := ["c3"; "c2"] |})
  /\ valuesOf email (byCreatedAt scanned) = ["b"; "c"].
Proof.
  repeat split; vm_compute; reflexivity.
Qed.

Lemma consolidated_view_in_scan_order_witness :
  let secondaries := secondariesOf (chainScan "c1" (table Shuffled.world)) in
  exists root view,
    getItem "c1" (table Shuffled.world) = Some root
    /\ fst (buildConsolidatedResponse Shuffled.env "c1" Shuffled.world)
       = Ret (succeeded view)
    /\ primaryContactId view = "c1"
    /\ emails view = keepFirst (valuesOf email (root :: secondaries))
    /\ phoneNumbers view = keepFirst (valuesOf phoneNumber (root :: secondaries))
    /\ secondaryContactIds view = map id secondaries
    /\ (truthy (email root) = true -> hd_error (emails view) = email root)
    /\ (truthy (phoneNumber root) = true ->
        hd_error (phoneNumbers view) = phoneNumber root).
Proof.
  intros secondaries. eexists.
  assert (Hroot : getItem "c1" (table Shuffled.world) = Some _) by reflexivity.
  destruct (consolidated_view_in_scan_order Shuffled.env "c1" Shuffled.world _
              eq_refl eq_refl Hroot eq_refl) as (view & Hview).
  exists view. split; [exact Hroot|exact Hview].
Defined.

Lemma findByEmailOrPhone_online E request w :
  online E (length (trace w)) = true ->
  supplied request ->
  findByEmailOrPhone E (queryOf request) w
  = (Ret (succeeded (filter (matches request) (table w))),
     served 0 (matchingScan request) w).
Proof.
  intros Hon Hs. unfold findByEmailOrPhone, tryCatch, queryOf. simpl.
  rewrite !truthy_provided, !provided_idem.
  replace (truthy (req_email request) || truthy (req_phoneNumber request))
    with true
    by (destruct Hs as [H|H]; rewrite H; auto using orb_true_r).
  unfold bind. rewrite (docClient_send_online E _ w Hon). reflexivity.
Qed.

Lemma create_online E params w :
  online E (length (trace w)) = true ->
  create E params w = (Ret (succeeded (createdIn E params w)), afterCreate E params w).
Proof.
  intros Hon. unfold create, tryCatch, bind, newDate, newUuid, docClient_send.
  simpl. rewrite Hon. reflexivity.
Qed.

Lemma update_online E u w :
  online E (length (trace w)) = true ->
  update E u w
  = (Ret {| success := true;
            data := getItem (up_id u) (updateItem u (table w));
            error := None |},
     served 0 (UpdateCommand u) w).
Proof.
  intros Hon. unfold update, tryCatch, bind.
  rewrite (docClient_send_online E _ w Hon). reflexivity.
Qed.

Lemma identifyContact_unmatched E request w r w1 :
  supplied request ->
  findByEmailOrPhone E (queryOf request) w = (Ret r, w1) ->
  success r = true ->
  data r = Some [] ->
  identifyContact E request w = guarded (createNewPrimaryContact E request) w1.
Proof.
  intros Hs Hfind Hok Hdata.
  unfold identifyContact, guarded, tryCatch.
  rewrite (supplied_guard request Hs).
  fold (queryOf request). unfold bind at 1. rewrite Hfind, Hok, Hdata.
  reflexivity.
Qed.

Lemma provided_supplied s : truthy s = true -> provided s = s.
Proof. intros H. unfold provided. rewrite H. reflexivity. Qed.

(** C6. With a store that answers, a request carrying an email or a phone
    number, sent twice to an initially empty store, is answered both times
    with the same [primaryContactId] and with no secondary ids; the second
    call sends no write and leaves the table, a single record, as the first
    call left it. *)
Theorem identifyContact_repeat_idempotent E request :
  (forall n, online E n = true) ->
  supplied request ->
  exists view1 w1 view2 w2,
    identifyContact E request emptyWorld = (Ret (succeeded view1), w1)
    /\ identifyContact E request w1 = (Ret (succeeded view2), w2)
    /\ primaryContactId view2 = primaryContactId view1
    /\ secondaryContactIds view1 = []
    /\ secondaryContactIds view2 = []
    /\ length (table w1) = 1
    /\ table w2 = table w1
    /\ writes w2 = writes w1.
Proof.
  intros Hon Hs.
  set (w0 := served 0 (matchingScan request) emptyWorld).
  set (p := createdIn E (primaryParams request) w0).
  set (w1 := afterCreate E (primaryParams request) w0).
  assert (Hfirst : identifyContact E request emptyWorld
                   = (Ret (succeeded {| primaryContactId := id p;
                                        emails := singleton (email p);
                                        phoneNumbers := singleton (phoneNumber p);
                                        secondaryContactIds := [] |}), w1)).
  { rewrite (identifyContact_unmatched E request emptyWorld _ w0 Hs
               (findByEmailOrPhone_online E request emptyWorld (Hon _) Hs)
               eq_refl eq_refl).
    unfold guarded, tryCatch, createNewPrimaryContact, bind.
    fold (primaryParams request).
    rewrite (create_online E (primaryParams request) w0 (Hon _)). reflexivity. }
  assert (Htable : table w1 = [p]).
  { unfold w1, afterCreate. simpl. unfold putItem. simpl.
    rewrite firstn_nil, skipn_nil. reflexivity. }
  assert (Hmatch : matches request p = true).
  { destruct Hs as [H|H].
    - apply matches_email; [exact H|]. simpl. apply provided_supplied. exact H.
    - apply matches_phone; [exact H|]. simpl. apply provided_supplied. exact H. }
  set (w2 := served 0 (matchingScan request) w1).
  set (g := {| primaryId := id p; g_createdAt := createdAt p; contacts := [p] |}).
  assert (Hfind : findByEmailOrPhone E (queryOf request) w1
                  = (Ret (succeeded [p]), w2)).
  { rewrite (findByEmailOrPhone_online E request w1 (Hon _) Hs).
    rewrite Htable. simpl. rewrite Hmatch. reflexivity. }
  assert (Hgroup : groupContactsByPrimary E [p] w2 = (Ret [g], w2)).
  { unfold groupContactsByPrimary, groupLoop, rootIdOf, ensureGroup, bind.
    simpl. rewrite String.eqb_refl. reflexivity. }
  assert (Hnone : shouldCreateSecondaryContact request (contacts g) = false).
  { apply known_nothing_new. split; intros H; exists p; simpl;
      (split; [left; reflexivity|]); apply provided_supplied; exact H. }
  assert (Hroot : getItem (id p) (table w2) = Some p).
  { change (table w2) with (table w1). rewrite Htable.
    unfold getItem, find, hasId. rewrite String.eqb_refl. reflexivity. }
  assert (Hsecond : identifyContact E request w1
                    = (Ret (succeeded (viewOf p [])), afterView (id p) w2)).
  { rewrite (identifyContact_grouped E request w1 _ w2 [p] [g] w2 Hs Hfind
               eq_refl eq_refl Hgroup) by discriminate.
    assert (Hd : dispatch E request [g] w2
                 = buildConsolidatedResponse E (id p) w2)
      by (unfold dispatch; rewrite Hnone; reflexivity).
    unfold guarded, tryCatch. rewrite Hd.
    rewrite (buildConsolidatedResponse_online E (id p) w2 p (Hon _) (Hon _)
               Hroot eq_refl).
    change (table w2) with (table w1). rewrite Htable. reflexivity. }
  eexists. exists w1. eexists. eexists.
  split; [exact Hfirst|]. split; [exact Hsecond|].
  repeat split. rewrite Htable. reflexivity.
Qed.

Lemma identifyContact_repeat_idempotent_witness :
  exists view1 w1 view2 w2,
    identifyContact Scenario.calm (Scenario.req "a" "1") emptyWorld
    = (Ret (succeeded view1), w1)
    /\ identifyContact Scenario.calm (Scenario.req "a" "1") w1
       = (Ret (succeeded view2), w2)
    /\ primaryContactId view2 = primaryContactId view1
    /\ secondaryContactIds view1 = []
    /\ secondaryContactIds view2 = []
    /\ length (table w1) = 1
    /\ table w2 = table w1
    /\ writes w2 = writes w1.
Proof.
  apply (identifyContact_repeat_idempotent Scenario.calm (Scenario.req "a" "1")).
  - intros n. reflexivity.
  - left. reflexivity.
Defined.

(** ** Items and keys *)

Lemma getItem_id k t c : getItem k t = Some c -> id c = k.
Proof.
  intros H. apply find_some in H. destruct H as [_ H].
  apply String.eqb_eq. exact H.
Qed.

Lemma getItem_In k t c : getItem k t = Some c -> In c t.
Proof. intros H. apply find_some in H. tauto. Qed.

Lemma getItem_unique t : forall c,
  NoDup (map id t) -> In c t -> getItem (id c) t = Some c.
Proof.
  induction t as [|a t IH]; intros c Hnd Hin; [destruct Hin|].
  simpl in Hnd. inversion Hnd as [|x l Hx Hl]; subst.
  simpl. unfold hasId at 1.
  destruct Hin as [->|Hin].
  - rewrite String.eqb_refl. reflexivity.
  - destruct (String.eqb_spec (id a) (id c)) as [Heq|Hne].
    + exfalso. apply Hx. rewrite Heq. apply in_map. exact Hin.
    + apply IH; assumption.
Qed.

Lemma ids_updateItem u t : map id (updateItem u t) = map id t.
Proof.
  unfold updateItem. rewrite map_map. apply map_ext.
  intros c. destruct (hasId (up_id u) c); reflexivity.
Qed.

Lemma getItem_updateItem_other u k t :
  up_id u <> k -> getItem k (updateItem u t) = getItem k t.
Proof.
  intros Hne. induction t as [|a t IH]; simpl; [reflexivity|].
  destruct (hasId (up_id u) a) eqn:Ha.
  - assert (Hk : hasId k a = false).
    { unfold hasId in *. apply String.eqb_eq in Ha. apply String.eqb_neq.
      congruence. }
    change (hasId k (applyUpdate u a)) with (hasId k a).
    rewrite Hk. exact IH.
  - destruct (hasId k a); [reflexivity|exact IH].
Qed.

Lemma getItem_updateItem_same u t c :
  getItem (up_id u) t = Some c ->
  getItem (up_id u) (updateItem u t) = Some (applyUpdate u c).
Proof.
  induction t as [|a t IH]; simpl; [discriminate|].
  destruct (hasId (up_id u) a) eqn:Ha.
  - intros H. injection H as <-. simpl.
    unfold hasId in *. simpl. rewrite Ha. reflexivity.
  - intros H. simpl. rewrite Ha. apply IH. exact H.
Qed.

Lemma getItem_inserted k item t : forall pos,
  id item <> k ->
  getItem k (firstn pos t ++ item :: skipn pos t) = getItem k t.
Proof.
  intros pos Hne. revert pos.
  assert (Hk : hasId k item = false)
    by (unfold hasId; apply String.eqb_neq; exact Hne).
  induction t as [|a t IH]; intros pos.
  - rewrite firstn_nil, skipn_nil. simpl. rewrite Hk. reflexivity.
  - destruct pos as [|pos]; simpl.
    + rewrite Hk. reflexivity.
    + destruct (hasId k a); [reflexivity|]. apply IH.
Qed.

Lemma existsb_hasId_absent k t :
  ~ In k (map id t) -> existsb (hasId k) t = false.
Proof.
  intros Hn. destruct (existsb (hasId k) t) eqn:H; [|reflexivity].
  apply existsb_exists in H. destruct H as (c & Hin & Hc).
  exfalso. apply Hn. unfold hasId in Hc. apply String.eqb_eq in Hc.
  rewrite <- Hc. apply in_map. exact Hin.
Qed.

Lemma getItem_putItem_fresh pos item k t :
  ~ In (id item) (map id t) ->
  id item <> k ->
  getItem k (putItem pos item t) = getItem k t.
Proof.
  intros Hfresh Hne. unfold putItem.
  rewrite (existsb_hasId_absent _ _ Hfresh). apply getItem_inserted. exact Hne.
Qed.

Lemma getItem_key_known k t c : getItem k t = Some c -> In k (map id t).
Proof.
  intros H. rewrite <- (getItem_id _ _ _ H). apply in_map.
  exact (getItem_In _ _ _ H).
Qed.

(** ** Groups come from the records and carry distinct keys *)

Lemma pushContact_keys pid c groups :
  map primaryId (pushContact pid c groups) = map primaryId groups.
Proof.
  unfold pushContact. rewrite map_map. apply map_ext.
  intros g. destruct (String.eqb (primaryId g) pid); reflexivity.
Qed.

Lemma hasGroup_false_absent pid groups :
  hasGroup pid groups = false -> ~ In pid (map primaryId groups).
Proof.
  unfold hasGroup. intros H Hin. apply in_map_iff in Hin.
  destruct Hin as (g & Hk & Hg).
  assert (Ht : existsb (fun g => String.eqb (primaryId g) pid) groups = true).
  { apply existsb_exists. exists g. split; [exact Hg|].
    apply String.eqb_eq. exact Hk. }
  congruence.
Qed.

Lemma groupLoop_distinct E cs : forall groups w gs w',
  groupLoop E cs groups w = (Ret gs, w') ->
  NoDup (map primaryId groups) -> NoDup (map primaryId gs).
Proof.
  induction cs as [|c cs IH]; intros groups w gs w' Hrun Hnd; simpl in Hrun.
  - unfold ret in Hrun. injection Hrun as <- _. exact Hnd.
  - destruct (rootIdOf c) as [pid|]; [|discriminate].
    unfold bind in Hrun.
    destruct (ensureGroup E c pid groups w) as [[groups'|] w1] eqn:He;
      [|discriminate].
    apply (IH _ _ _ _ Hrun). rewrite pushContact_keys.
    apply ensureGroup_cases in He. destruct He as [[_ ->]|[Hno [t ->]]].
    + exact Hnd.
    + rewrite map_app. simpl.
      apply NoDup_snoc; [exact Hnd|]. apply hasGroup_false_absent. exact Hno.
Qed.

Lemma pushContact_members pid c groups g x :
  In g (pushContact pid c groups) -> In x (contacts g) ->
  x = c \/ exists g0, In g0 groups /\ In x (contacts g0).
Proof.
  unfold pushContact. intros Hg Hx. apply in_map_iff in Hg.
  destruct Hg as (g0 & Heq & Hg0).
  destruct (String.eqb (primaryId g0) pid); subst g; simpl in Hx.
  - apply in_app_or in Hx. destruct Hx as [Hx|[<-|[]]]; eauto.
  - eauto.
Qed.

Lemma groupLoop_members E cs : forall groups w gs w',
  groupLoop E cs groups w = (Ret gs, w') ->
  forall g x, In g gs -> In x (contacts g) ->
    In x cs \/ exists g0, In g0 groups /\ In x (contacts g0).
Proof.
  induction cs as [|c cs IH]; intros groups w gs w' Hrun g x Hg Hx;
    simpl in Hrun.
  - unfold ret in Hrun. injection Hrun as <- _. right. eauto.
  - destruct (rootIdOf c) as [pid|]; [|discriminate].
    unfold bind in Hrun.
    destruct (ensureGroup E c pid groups w) as [[groups'|] w1] eqn:He;
      [|discriminate].
    destruct (IH _ _ _ _ Hrun g x Hg Hx) as [Hin|(g1 & Hg1 & Hx1)].
    + left. right. exact Hin.
    + destruct (pushContact_members _ _ _ _ _ Hg1 Hx1) as [->|(g0 & Hg0 & Hx0)].
      * left. left. reflexivity.
      * apply ensureGroup_cases in He. destruct He as [[_ ->]|[_ [t ->]]].
        -- right. eauto.
        -- apply in_app_or in Hg0. destruct Hg0 as [Hg0|[<-|[]]].
           ++ right. eauto.
           ++ destruct Hx0.
Qed.

Lemma groupContactsByPrimary_members E cs w gs w' g x :
  groupContactsByPrimary E cs w = (Ret gs, w') ->
  In g gs -> In x (contacts g) -> In x cs.
Proof.
  intros Hrun Hg Hx.
  destruct (groupLoop_members E cs [] w gs w' Hrun g x Hg Hx)
    as [H|(g0 & [] & _)].
  exact H.
Qed.

Lemma groupContactsByPrimary_distinct E cs w g1 g2 w' :
  groupContactsByPrimary E cs w = (Ret [g1; g2], w') ->
  primaryId g1 <> primaryId g2.
Proof.
  intros Hrun.
  pose proof (groupLoop_distinct E cs [] w [g1; g2] w' Hrun (NoDup_nil _)) as H.
  simpl in H. inversion H as [|x l Hx _]; subst.
  intros Heq. apply Hx. left. symmetry. exact Heq.
Qed.

(** ** Merging two chains *)

Section Merge.

Variable E : Env.
Variables olderId newerId : string.
Variables rootO demoted : Contact.
Variable keys : list string.
Variable drawn : nat.

Local Abbreviation inv := (merged olderId newerId rootO demoted keys drawn).

Lemma merged_send c w :
  spares olderId newerId c -> inv w -> inv (snd (docClient_send E c w)).
Proof.
  unfold inv, merged, docClient_send. intros Hc (Ho & Hn & Hk & Hd).
  destruct (online E (length (trace w))); simpl; [|tauto].
  destruct c as [item|k|u|f]; simpl in *; try tauto.
  destruct Hc as [Hc1 Hc2].
  rewrite !getItem_updateItem_other, ids_updateItem by assumption. tauto.
Qed.

Lemma merged_date w : inv w -> inv (snd (newDate E w)).
Proof. intros H; exact H. Qed.

Lemma repoint_merged c :
  (linkPrecedence c = secondary -> id c <> olderId /\ id c <> newerId) ->
  preserves inv (repoint E olderId c).
Proof.
  intros Hc. unfold repoint.
  destruct (linkPrecedence c); [apply preserves_ret|].
  apply preserves_bind; [exact merged_date|]. intros now.
  apply preserves_bind; [|intros _; apply preserves_ret].
  apply preserves_update with (ok := spares olderId newerId).
  - exact merged_send.
  - simpl. apply Hc. reflexivity.
Qed.

Lemma repointing_merged cs :
  (forall c, In c cs -> linkPrecedence c = secondary ->
             id c <> olderId /\ id c <> newerId) ->
  preserves inv (forOf cs (repoint E olderId)).
Proof.
  intros Hcs. apply preserves_forOf. intros c Hin.
  apply repoint_merged. apply Hcs. exact Hin.
Qed.

End Merge.

Lemma forOf_returns A (xs : list A) (body : A -> M unit) :
  (forall x w, exists w', body x w = (Ret tt, w')) ->
  forall w, exists w', forOf xs body w = (Ret tt, w').
Proof.
  intros Hb. induction xs as [|x xs IH]; intros w; simpl.
  - exists w. reflexivity.
  - unfold bind. destruct (Hb x w) as [w1 ->]. apply IH.
Qed.

Lemma update_returns E u w : exists r w', update E u w = (Ret r, w').
Proof.
  unfold update, tryCatch, bind.
  destruct (docClient_send E (UpdateCommand u) w) as [[r|] w'];
    do 2 eexists; reflexivity.
Qed.

Lemma repoint_returns E older c w : exists w', repoint E older c w = (Ret tt, w').
Proof.
  unfold repoint. destruct (linkPrecedence c).
  - exists w. reflexivity.
  - unfold bind. simpl.
    destruct (update_returns E (demotion (id c) older (clock E (dates w)))
                (snd (newDate E w))) as (r & w' & Hu).
    simpl in Hu. rewrite Hu. eexists. reflexivity.
Qed.

Lemma createSecondaryContact_online E request k w :
  online E (length (trace w)) = true ->
  exists params,
    createSecondaryContact E request k w = (Ret tt, afterCreate E params w).
Proof.
  intros Hon. unfold createSecondaryContact, bind. eexists.
  rewrite (create_online E _ w Hon). reflexivity.
Qed.

(** The body of the two-chain branch, when the store answers, the two
    roots are stored under distinct keys, the older one as a primary, and
    the loop re-points no record stored under either key. *)
Lemma linkTwoPrimaryContacts_merges E request g1 g2 w rootO rootN :
  (forall n, online E n = true) ->
  let older := olderGroup g1 g2 in
  let newer := newerGroup g1 g2 in
  primaryId older <> primaryId newer ->
  getItem (primaryId older) (table w) = Some rootO ->
  linkPrecedence rootO = primary ->
  getItem (primaryId newer) (table w) = Some rootN ->
  ~ In (uuidv4 E (uuids w)) (map id (table w)) ->
  (forall c, In c (contacts newer) -> linkPrecedence c = secondary ->
             id c <> primaryId older /\ id c <> primaryId newer) ->
  exists view w',
    linkTwoPrimaryContacts E [g1; g2] request w = (Ret (succeeded view), w')
    /\ primaryContactId view = primaryId older
    /\ getItem (primaryId older) (table w') = Some rootO
    /\ getItem (primaryId newer) (table w')
       = Some (applyUpdate (demotion (primaryId newer) (primaryId older)
                                     (clock E (dates w))) rootN).
Proof.
  intros Hon older newer Hdistinct HrootO Hprimary HrootN Hfresh Hloop.
  set (u := demotion (primaryId newer) (primaryId older) (clock E (dates w))).
  set (wa := snd (newDate E w)).
  set (wb := served 0 (UpdateCommand u) wa).
  assert (Hb : merged (primaryId older) (primaryId newer) rootO
                      (applyUpdate u rootN) (map id (table w)) (uuids w) wb).
  { unfold merged, wb, wa. simpl. repeat split.
    - rewrite getItem_updateItem_other; [exact HrootO|].
      simpl. intros Heq. apply Hdistinct. symmetry. exact Heq.
    - apply (getItem_updateItem_same u). exact HrootN.
    - apply ids_updateItem. }
  destruct (forOf_returns _ (contacts newer) (repoint E (primaryId older))
              (repoint_returns E (primaryId older)) wb) as [wc Hc].
  assert (Hcinv : merged (primaryId older) (primaryId newer) rootO
                         (applyUpdate u rootN) (map id (table w)) (uuids w) wc).
  { pose proof (repointing_merged E (primaryId older) (primaryId newer) rootO
                  (applyUpdate u rootN) (map id (table w)) (uuids w)
                  (contacts newer) Hloop wb Hb) as H.
    rewrite Hc in H. exact H. }
  assert (Hd : exists wd,
             when (shouldCreateSecondaryContact request
                     (contacts older ++ contacts newer))
                  (createSecondaryContact E request (primaryId older)) wc
             = (Ret tt, wd)
             /\ getItem (primaryId older) (table wd) = Some rootO
             /\ getItem (primaryId newer) (table wd) = Some (applyUpdate u rootN)).
  { destruct Hcinv as (Ho & Hn & Hk & Hu).
    destruct (shouldCreateSecondaryContact request
                (contacts older ++ contacts newer)); simpl.
    - destruct (createSecondaryContact_online E request (primaryId older) wc
                  (Hon _)) as [params Hrun].
      exists (afterCreate E params wc). split; [exact Hrun|].
      assert (Hnew : ~ In (id (createdIn E params wc)) (map id (table wc)))
        by (simpl; rewrite Hk, Hu; exact Hfresh).
      simpl. split.
      + rewrite getItem_putItem_fresh; [exact Ho|exact Hnew|].
        intros Heq. apply Hnew. rewrite Heq.
        exact (getItem_key_known _ _ _ Ho).
      + rewrite getItem_putItem_fresh; [exact Hn|exact Hnew|].
        intros Heq. apply Hnew. rewrite Heq.
        exact (getItem_key_known _ _ _ Hn).
    - exists wc. auto. }
  destruct Hd as (wd & Hwhen & Ho & Hn).
  exists (viewOf rootO (secondariesOf (chainScan (primaryId older) (table wd)))).
  exists (afterView (primaryId older) wd).
  split; [|split; [|split]].
  - unfold linkTwoPrimaryContacts.
    change (if Z.ltb (g_createdAt g1) (g_createdAt g2) then g1 else g2) with older.
    change (if Z.ltb (g_createdAt g1) (g_createdAt g2) then g2 else g1) with newer.
    unfold bind at 1.
    change (newDate E w) with (Ret (clock E (dates w)), wa). cbv iota beta.
    fold u. unfold bind at 1. rewrite (update_online E u wa (Hon _)). fold wb.
    cbn [success negb]. unfold bind at 1. rewrite Hc.
    unfold bind at 1. rewrite Hwhen.
    apply (buildConsolidatedResponse_online E (primaryId older) wd rootO
             (Hon _) (Hon _) Ho Hprimary).
  - simpl. exact (getItem_id _ _ _ HrootO).
  - exact Ho.
  - exact Hn.
Qed.

Lemma older_newer_swap g1 g2 :
  (olderGroup g1 g2 = g1 /\ newerGroup g1 g2 = g2)
  \/ (olderGroup g1 g2 = g2 /\ newerGroup g1 g2 = g1).
Proof.
  unfold olderGroup, newerGroup.
  destruct (Z.ltb (g_createdAt g1) (g_createdAt g2)); auto.
Qed.

(** ** The creation time of a group is that of its stored root *)

Lemma getById_data E k w r w' p :
  getById E k w = (Ret r, w') ->
  data r = Some p ->
  getItem k (table w) = Some p.
Proof.
  unfold getById, tryCatch, bind, docClient_send.
  destruct (online E (length (trace w))); simpl.
  - destruct (getItem k (table w)) as [item|]; unfold ret; intros H Hd;
      injection H as <- _; simpl in Hd; congruence.
  - unfold ret. intros H Hd. injection H as <- _. discriminate.
Qed.

Lemma ensureGroup_unwritten E w0 c pid groups :
  preserves (unwritten w0) (ensureGroup E c pid groups).
Proof.
  apply preserves_ensureGroup with (ok := isRead); [|reflexivity].
  intros; apply unwritten_send; assumption.
Qed.

Lemma pushContact_header pid c groups g :
  In g (pushContact pid c groups) ->
  exists g0,
    In g0 groups /\ primaryId g = primaryId g0 /\ g_createdAt g = g_createdAt g0.
Proof.
  unfold pushContact. intros Hg. apply in_map_iff in Hg.
  destruct Hg as (g0 & Heq & Hg0). exists g0. split; [exact Hg0|].
  destruct (String.eqb (primaryId g0) pid); subst g; simpl; auto.
Qed.

(** A group that [ensureGroup] adds for a stored record carries the
    [createdAt] of the record stored under the group's key: the record
    itself when it is a primary, the record fetched by id otherwise. *)
Lemma ensureGroup_root E c pid groups w groups' w' :
  ensureGroup E c pid groups w = (Ret groups', w') ->
  rootIdOf c = Some pid ->
  NoDup (map id (table w)) ->
  In c (table w) ->
  (hasGroup pid groups = true /\ groups' = groups)
  \/ exists root,
       getItem pid (table w) = Some root
       /\ groups' = groups ++ [ {| primaryId := pid;
                                   g_createdAt := createdAt root;
                                   contacts := [] |} ].
Proof.
  unfold ensureGroup, rootIdOf. destruct (hasGroup pid groups).
  - unfold ret. intros H _ _ _. left. split; congruence.
  - intros H Hroot Hnd Hin. right. unfold bind in H.
    destruct (linkPrecedence c).
    + unfold ret in H. simpl in H. injection H as <- _. injection Hroot as <-.
      exists c. split; [apply getItem_unique; assumption|reflexivity].
    + destruct (getById E pid w) as [[r|] w1] eqn:Hget; [|discriminate].
      destruct (data r) as [p|] eqn:Hd; [|discriminate].
      unfold ret in H. simpl in H. injection H as <- _.
      exists p. split; [exact (getById_data E pid w r w1 p Hget Hd)|reflexivity].
Qed.

Lemma groupLoop_createdAt E t cs : forall groups w gs w',
  groupLoop E cs groups w = (Ret gs, w') ->
  table w = t ->
  NoDup (map id t) ->
  (forall c, In c cs -> In c t) ->
  (forall g, In g groups ->
             exists root, getItem (primaryId g) t = Some root
                          /\ g_createdAt g = createdAt root) ->
  forall g, In g gs ->
            exists root, getItem (primaryId g) t = Some root
                         /\ g_createdAt g = createdAt root.
Proof.
  induction cs as [|c cs IH]; intros groups w gs w' Hrun Ht Hnd Hcs Hgroups;
    simpl in Hrun.
  - unfold ret in Hrun. injection Hrun as <- _. exact Hgroups.
  - destruct (rootIdOf c) as [pid|] eqn:Hroot; [|discriminate].
    unfold bind in Hrun.
    destruct (ensureGroup E c pid groups w) as [[groups'|] w1] eqn:He;
      [|discriminate].
    assert (Ht1 : table w1 = t).
    { pose proof (ensureGroup_unwritten E w c pid groups w (unwritten_refl w))
        as Hu.
      rewrite He in Hu. destruct Hu as [Hu _]. simpl in Hu. congruence. }
    apply (IH _ _ _ _ Hrun Ht1 Hnd).
    + intros x Hx. apply Hcs. right. exact Hx.
    + intros g Hg. apply pushContact_header in Hg.
      destruct Hg as (g0 & Hg0 & -> & ->).
      assert (Hc : In c (table w)) by (rewrite Ht; apply Hcs; left; reflexivity).
      assert (Hndw : NoDup (map id (table w))) by (rewrite Ht; exact Hnd).
      destruct (ensureGroup_root E c pid groups w groups' w1 He Hroot Hndw Hc)
        as [[_ ->]|(root & Hget & ->)].
      * apply Hgroups. exact Hg0.
      * apply in_app_or in Hg0. destruct Hg0 as [Hg0|[<-|[]]].
        -- apply Hgroups. exact Hg0.
        -- simpl. exists root. rewrite <- Ht. split; [exact Hget|reflexivity].
Qed.

Lemma groupContactsByPrimary_createdAt E cs w gs w' :
  groupContactsByPrimary E cs w = (Ret gs, w') ->
  NoDup (map id (table w)) ->
  (forall c, In c cs -> In c (table w)) ->
  forall g, In g gs ->
            exists root, getItem (primaryId g) (table w) = Some root
                         /\ g_createdAt g = createdAt root.
Proof.
  intros Hrun Hnd Hcs.
  apply (groupLoop_createdAt E (table w) cs [] w gs w' Hrun eq_refl Hnd Hcs).
  intros g [].
Qed.

(** In a call, the group of a matched record carries the [createdAt] of
    the record that the table of the call holds under the group's key. *)
Lemma matched_groups_rooted E request w r w1 cs gs w2 :
  supplied request ->
  NoDup (map id (table w)) ->
  findByEmailOrPhone E (queryOf request) w = (Ret r, w1) ->
  success r = true ->
  data r = Some cs ->
  groupContactsByPrimary E cs w1 = (Ret gs, w2) ->
  forall g, In g gs ->
            exists root, getItem (primaryId g) (table w) = Some root
                         /\ g_createdAt g = createdAt root.
Proof.
  intros Hs Hnd Hfind Hok Hdata Hgroup g Hg.
  assert (H1 : unwritten w w1)
    by (eapply unwritten_after; [|exact Hfind];
        intros; apply findByEmailOrPhone_unwritten).
  destruct H1 as [Ht _].
  assert (Hcs : forall c, In c cs -> In c (table w1)).
  { intros c Hc. rewrite Ht.
    rewrite (findByEmailOrPhone_matched E request w r w1 cs Hs Hfind Hok Hdata)
      in Hc.
    apply filter_In in Hc. tauto. }
  rewrite <- Ht in Hnd.
  destruct (groupContactsByPrimary_createdAt E cs w1 gs w2 Hgroup Hnd Hcs g Hg)
    as (root & Hget & Heq).
  exists root. rewrite <- Ht. split; assumption.
Qed.

Lemma matched_groups_createdAt E request w r w1 cs gs w2 g root :
  supplied request ->
  NoDup (map id (table w)) ->
  findByEmailOrPhone E (queryOf request) w = (Ret r, w1) ->
  success r = true ->
  data r = Some cs ->
  groupContactsByPrimary E cs w1 = (Ret gs, w2) ->
  In g gs ->
  getItem (primaryId g) (table w) = Some root ->
  g_createdAt g = createdAt root.
Proof.
  intros Hs Hnd Hfind Hok Hdata Hgroup Hg Hroot.
  destruct (matched_groups_rooted E request w r w1 cs gs w2 Hs Hnd Hfind Hok
              Hdata Hgroup g Hg) as (root' & Hget & Heq).
  congruence.
Qed.

(** ** The two-chain branch of a call *)

(** In terms of the group the code calls older and the one it calls newer,
    whatever the two creation times are: the older root is left as it is
    and the newer root is stored with the demotion applied. *)
Lemma identifyContact_merges_groups E request w r w1 cs g1 g2 w2 rootO rootN :
  (forall n, online E n = true) ->
  supplied request ->
  NoDup (map id (table w)) ->
  ~ In (uuidv4 E (uuids w)) (map id (table w)) ->
  findByEmailOrPhone E (queryOf request) w = (Ret r, w1) ->
  success r = true ->
  data r = Some cs ->
  groupContactsByPrimary E cs w1 = (Ret [g1; g2], w2) ->
  getItem (primaryId (olderGroup g1 g2)) (table w) = Some rootO ->
  linkPrecedence rootO = primary ->
  getItem (primaryId (newerGroup g1 g2)) (table w) = Some rootN ->
  linkPrecedence rootN = primary ->
  exists view w',
    identifyContact E request w = (Ret (succeeded view), w')
    /\ primaryContactId view = primaryId (olderGroup g1 g2)
    /\ getItem (primaryId (olderGroup g1 g2)) (table w') = Some rootO
    /\ getItem (primaryId (newerGroup g1 g2)) (table w')
       = Some (applyUpdate (demotion (primaryId (newerGroup g1 g2))
                                     (primaryId (olderGroup g1 g2))
                                     (clock E (dates w))) rootN).
Proof.
  intros Hon Hs Hnd Hfresh Hfind Hok Hdata Hgroup HrootO HprimO HrootN HprimN.
  set (older := olderGroup g1 g2) in *. set (newer := newerGroup g1 g2) in *.
  pose proof (older_newer_swap g1 g2) as Hcases. fold older newer in Hcases.
  destruct (matching_unwritten E request w r w1 cs _ w2 Hfind Hgroup)
    as (Htable & _ & Huuids & Hdates).
  assert (Hdistinct : primaryId older <> primaryId newer).
  { pose proof (groupContactsByPrimary_distinct E cs w1 g1 g2 w2 Hgroup) as Hd.
    destruct Hcases as [[-> ->]|[-> ->]]; [exact Hd|].
    intros Heq. apply Hd. symmetry. exact Heq. }
  assert (Hloop : forall c, In c (contacts newer) -> linkPrecedence c = secondary ->
                            id c <> primaryId older /\ id c <> primaryId newer).
  { intros c Hc Hsec.
    assert (Hin : In c cs).
    { apply (groupContactsByPrimary_members E cs w1 [g1; g2] w2 newer c Hgroup);
        [|exact Hc].
      destruct Hcases as [[_ ->]|[_ ->]]; simpl; auto. }
    rewrite (findByEmailOrPhone_matched E request w r w1 cs Hs Hfind Hok Hdata)
      in Hin.
    apply filter_In in Hin. destruct Hin as [Hin _].
    pose proof (getItem_unique (table w) c Hnd Hin) as Hget.
    split; intros Heq; rewrite Heq in Hget; congruence. }
  rewrite <- Htable in HrootO, HrootN, Hfresh. rewrite <- Huuids in Hfresh.
  destruct (linkTwoPrimaryContacts_merges E request g1 g2 w2 rootO rootN Hon
              Hdistinct HrootO HprimO HrootN Hfresh Hloop)
    as (view & w' & Hrun & Hview & Ho & Hn).
  exists view, w'.
  split; [|split; [exact Hview|split; [exact Ho|]]].
  - rewrite (identifyContact_grouped E request w r w1 cs _ w2 Hs Hfind Hok Hdata
               Hgroup) by discriminate.
    unfold guarded, tryCatch, dispatch. rewrite Hrun. reflexivity.
  - rewrite <- Hdates. exact Hn.
Qed.

(** C3. The matched records fall into exactly two chains; [root1] and
    [root2] are the records the table holds under the two chains' keys,
    both primaries, with different [createdAt]; the store answers, its keys
    are unique and the next identifier is new.  Then the root with the
    strictly smaller stored [createdAt] remains primary: the call succeeds
    with that root's id as [primaryContactId], that root is stored
    unchanged, and the other root is now stored as a secondary whose
    [linkedId] is the older root's id and whose [updatedAt] is the clock
    reading taken for the demotion, its other fields being as before. *)
Theorem identifyContact_merge_older_remains_primary
        E request w r w1 cs g1 g2 w2 root1 root2 :
  (forall n, online E n = true) ->
  supplied request ->
  NoDup (map id (table w)) ->
  ~ In (uuidv4 E (uuids w)) (map id (table w)) ->
  findByEmailOrPhone E (queryOf request) w = (Ret r, w1) ->
  success r = true ->
  data r = Some cs ->
  groupContactsByPrimary E cs w1 = (Ret [g1; g2], w2) ->
  getItem (primaryId g1) (table w) = Some root1 ->
  getItem (primaryId g2) (table w) = Some root2 ->
  linkPrecedence root1 = primary ->
  linkPrecedence root2 = primary ->
  createdAt root1 <> createdAt root2 ->
  let older := if Z.ltb (createdAt root1) (createdAt root2) then root1 else root2 in
  let newer := if Z.ltb (createdAt root1) (createdAt root2) then root2 else root1 in
  (createdAt older < createdAt newer)%Z
  /\ exists view w' demoted,
       identifyContact E request w = (Ret (succeeded view), w')
       /\ primaryContactId view = id older
       /\ getItem (id older) (table w') = Some older
       /\ linkPrecedence older = primary
       /\ getItem (id newer) (table w') = Some demoted
       /\ linkPrecedence demoted = secondary
       /\ linkedId demoted = Some (id older)
       /\ updatedAt demoted = clock E (dates w)
       /\ email demoted = email newer
       /\ phoneNumber demoted = phoneNumber newer
       /\ createdAt demoted = createdAt newer.
Proof.
  intros Hon Hs Hnd Hfresh Hfind Hok Hdata Hgroup Hroot1 Hroot2 Hp1 Hp2 Hne
         older newer.
  assert (Hc1 : g_createdAt g1 = createdAt root1)
    by (apply (matched_groups_createdAt E request w r w1 cs [g1; g2] w2 g1 root1
                 Hs Hnd Hfind Hok Hdata Hgroup); [left; reflexivity|exact Hroot1]).
  assert (Hc2 : g_createdAt g2 = createdAt root2)
    by (apply (matched_groups_createdAt E request w r w1 cs [g1; g2] w2 g2 root2
                 Hs Hnd Hfind Hok Hdata Hgroup);
        [right; left; reflexivity|exact Hroot2]).
  pose proof (fun rootO rootN =>
                identifyContact_merges_groups E request w r w1 cs g1 g2 w2
                  rootO rootN Hon Hs Hnd Hfresh Hfind Hok Hdata Hgroup)
    as Hmerge.
  unfold olderGroup, newerGroup in Hmerge. rewrite Hc1, Hc2 in Hmerge.
  pose proof (getItem_id _ _ _ Hroot1) as Hid1.
  pose proof (getItem_id _ _ _ Hroot2) as Hid2.
  subst older newer. revert Hmerge.
  destruct (Z.ltb_spec (createdAt root1) (createdAt root2)) as [Hlt|Hge];
    intros Hmerge.
  - split; [exact Hlt|].
    destruct (Hmerge root1 root2 Hroot1 Hp1 Hroot2 Hp2)
      as (view & w' & Hrun & Hview & Ho & Hn).
    rewrite Hid1, Hid2.
    exists view, w'. eexists.
    split; [exact Hrun|]. split; [exact Hview|]. split; [exact Ho|].
    split; [exact Hp1|]. split; [exact Hn|].
    simpl. auto 10.
  - split; [lia|].
    destruct (Hmerge root2 root1 Hroot2 Hp2 Hroot1 Hp1)
      as (view & w' & Hrun & Hview & Ho & Hn).
    rewrite Hid1, Hid2.
    exists view, w'. eexists.
    split; [exact Hrun|]. split; [exact Hview|]. split; [exact Ho|].
    split; [exact Hp2|]. split; [exact Hn|].
    simpl. auto 10.
Qed.

(** Two primaries created independently, then a request that names the
    email of the first and the phone of the second. *)
Lemma identifyContact_merge_older_remains_primary_witness :
  let request := Scenario.req "g@h.edu" "717171" in
  let c1 := {| id := "c1"; phoneNumber := Some "919191"; email := Some "g@h.edu";
               linkedId := None; linkPrecedence := primary;
               createdAt := 10; updatedAt := 10 |} in
  let c2 := {| id := "c2"; phoneNumber := Some "717171"; email := Some "b@h.edu";
               linkedId := None; linkPrecedence := primary;
               createdAt := 20; updatedAt := 20 |} in
  getItem "c1" (table Scenario.twoPrimaries) = Some c1
  /\ getItem "c2" (table Scenario.twoPrimaries) = Some c2
  /\ (10 < 20)%Z
  /\ exists view w' demoted,
       identifyContact Scenario.calm request Scenario.twoPrimaries
       = (Ret (succeeded view), w')
       /\ primaryContactId view = "c1"
       /\ getItem "c1" (table w') = Some c1
       /\ linkPrecedence c1 = primary
       /\ getItem "c2" (table w') = Some demoted
       /\ linkPrecedence demoted = secondary
       /\ linkedId demoted = Some "c1"
       /\ updatedAt demoted = 30%Z
       /\ email demoted = Some "b@h.edu"
       /\ phoneNumber demoted = Some "717171"
       /\ createdAt demoted = 20%Z.
Proof.
  intros request c1 c2.
  assert (Hroot1 : getItem "c1" (table Scenario.twoPrimaries) = Some c1)
    by (vm_compute; reflexivity).
  assert (Hroot2 : getItem "c2" (table Scenario.twoPrimaries) = Some c2)
    by (vm_compute; reflexivity).
  split; [exact Hroot1|]. split; [exact Hroot2|].
  assert (Hnd : NoDup (map id (table Scenario.twoPrimaries))).
  { vm_compute. repeat constructor; simpl; intuition discriminate. }
  assert (Hfresh : ~ In (uuidv4 Scenario.calm (uuids Scenario.twoPrimaries))
                        (map id (table Scenario.twoPrimaries))).
  { vm_compute. intuition discriminate. }
  with_groups Scenario.calm request Scenario.twoPrimaries
    ltac:(fun r w1 cs gs w2 =>
            lazymatch gs with
            | [?g1; ?g2] =>
                apply (identifyContact_merge_older_remains_primary
                         Scenario.calm request Scenario.twoPrimaries
                         r w1 cs g1 g2 w2 c1 c2)
            end).
  - intros n. reflexivity.
  - left. reflexivity.
  - exact Hnd.
  - exact Hfresh.
  - vm_compute. reflexivity.
  - reflexivity.
  - reflexivity.
  - vm_compute. reflexivity.
  - exact Hroot1.
  - exact Hroot2.
  - reflexivity.
  - reflexivity.
  - simpl. discriminate.
Defined.

(** ** Where the code departs from the claims *)

(** C1 fails on the code.  With every store operation succeeding, the
    store reached by three calls satisfies chain integrity; the fourth call
    merges the chain of c2 into the chain of c1 and answers with success,
    and afterwards the secondary c3 still names c2, which is itself a
    secondary. *)
Theorem chain_integrity_lost_by_merge :
  chainIntegrity (table Orphan.before) = true
  /\ fst (identifyContact Scenario.calm Orphan.request Orphan.before)
     = Ret (succeeded {| primaryContactId := "c1";
                         emails := ["a"; "b"];
                         phoneNumbers := ["1"; "2"];
                         secondaryContactIds := ["c2"] |})
  /\ chainIntegrity (table Orphan.after) = false
  /\ option_map linkPrecedence (getItem "c3" (table Orphan.after)) = Some secondary
  /\ option_map linkedId (getItem "c3" (table Orphan.after)) = Some (Some "c2")
  /\ option_map linkPrecedence (getItem "c2" (table Orphan.after)) = Some secondary.
Proof.
  repeat split; vm_compute; reflexivity.
Qed.

(** C2 fails on the code.  The fourth call of the scenario is a two-chain
    merge with older root c1 and newer root c2.  The record c3 is a
    secondary of the newer chain that the request does not match; it is not
    among the members of the newer group, the only write sent is the
    demotion of c2, and afterwards the [linkedId] of c3 is still c2 instead
    of c1. *)
Theorem unmatched_secondary_not_repointed :
  map id Orphan.matched = ["c1"; "c2"]
  /\ match Orphan.groups with
     | Ret [g1; g2] =>
         primaryId (olderGroup g1 g2) = "c1"
         /\ primaryId (newerGroup g1 g2) = "c2"
         /\ map id (contacts (newerGroup g1 g2)) = ["c2"]
     | _ => False
     end
  /\ option_map linkPrecedence (getItem "c3" (table Orphan.before)) = Some secondary
  /\ option_map linkedId (getItem "c3" (table Orphan.before)) = Some (Some "c2")
  /\ option_map (matches Orphan.request) (getItem "c3" (table Orphan.before))
     = Some false
  /\ writes Orphan.after
     = writes Orphan.before ++ [UpdateCommand (demotion "c2" "c1" 40%Z)]
  /\ option_map linkedId (getItem "c2" (table Orphan.after)) = Some (Some "c1")
  /\ option_map linkedId (getItem "c3" (table Orphan.after)) = Some (Some "c2").
Proof.
  repeat split; vm_compute; reflexivity.
Qed.

(** C5 fails on the code.  (1) The chain of c1 is matched by phone and the
    request brings the new email b; the Put of the secondary is refused by
    the store, yet the call answers with success and a view without the new
    email.  (2) In a two-chain merge the Update that re-points the matched
    secondary c3 is refused; the call answers with success and c3 still
    names the demoted root c2. *)
Theorem refused_writes_answered_with_success :
  (online Flaky.env 3 = false
   /\ option_map isWrite (nth_error (trace Flaky.after) 3) = Some true
   /\ fst (identifyContact Flaky.env Flaky.request Flaky.before)
      = Ret (succeeded {| primaryContactId := "c1";
                          emails := ["a"];
                          phoneNumbers := ["1"];
                          secondaryContactIds := [] |})
   /\ table Flaky.after = table Flaky.before)
  /\ (online Flaky.env' 10 = false
      /\ nth_error (trace Flaky.after') 10
         = Some (UpdateCommand (demotion "c3" "c1" 50%Z))
      /\ fst (identifyContact Flaky.env' Flaky.request' Flaky.before')
         = Ret (succeeded {| primaryContactId := "c1";
                             emails := ["a"; "b"];
                             phoneNumbers := ["1"; "2"];
                             secondaryContactIds := ["c2"] |})
      /\ option_map linkedId (getItem "c3" (table Flaky.after'))
         = Some (Some "c2")).
Proof.
  repeat split; vm_compute; reflexivity.
Qed.

(** C9 fails on the code.  With every store operation succeeding, seven
    calls leave five records: c3 was demoted under c2 by a request that did
    not match its secondary c4, and c2 was then demoted under c1 by a
    request that did not match c3.  The request finds c3, c4 and c5, which
    fall into three chains with the roots c2, c3 and c5; of these c2 has
    the smallest stored [createdAt].  The call picks c2 and writes nothing,
    but it does not return the consolidated view of that chain: c2 is
    stored as a secondary, no primary is among the records read for the
    view, and the call answers with the internal error. *)
Theorem many_chains_answered_with_internal_error :
  map id Stale.matched = ["c3"; "c4"; "c5"]
  /\ match Stale.groups with
     | Ret gs =>
         map primaryId gs = ["c2"; "c3"; "c5"]
         /\ map g_createdAt gs = [20; 30; 70]%Z
     | Throw => False
     end
  /\ map (fun k => option_map createdAt (getItem k (table Stale.before)))
         ["c2"; "c3"; "c5"]
     = [Some 20; Some 30; Some 70]%Z
  /\ option_map linkPrecedence (getItem "c2" (table Stale.before)) = Some secondary
  /\ fst (identifyContact Scenario.calm Stale.request Stale.before)
     = Ret internalError
  /\ table Stale.after = table Stale.before
  /\ writes Stale.after = writes Stale.before.
Proof.
  split; [vm_compute; reflexivity|].
  split; [vm_compute; split; reflexivity|].
  split; [vm_compute; reflexivity|].
  split; [vm_compute; reflexivity|].
  split; [vm_compute; reflexivity|].
  split; vm_compute; reflexivity.
Qed.

(** * Further properties of the model and the service *)

(** ** ContactModel: what is stored can be read back *)

Lemma getItem_replaced item t :
  existsb (hasId (id item)) t = true ->
  getItem (id item) (map (fun c => if hasId (id item) c then item else c) t)
  = Some item.
Proof.
  induction t as [|a t IH]; simpl; [discriminate|].
  destruct (hasId (id item) a) eqn:Ha; simpl.
  - unfold hasId at 1. rewrite String.eqb_refl. reflexivity.
  - intros H. rewrite Ha. apply IH. exact H.
Qed.

Lemma getItem_inserted_same item t : forall pos,
  existsb (hasId (id item)) t = false ->
  getItem (id item) (firstn pos t ++ item :: skipn pos t) = Some item.
Proof.
  induction t as [|a t IH]; intros pos H.
  - rewrite firstn_nil, skipn_nil. simpl. unfold hasId.
    rewrite String.eqb_refl. reflexivity.
  - simpl in H. apply orb_false_iff in H. destruct H as [Ha Ht].
    destruct pos as [|pos]; simpl.
    + unfold hasId at 1. rewrite String.eqb_refl. reflexivity.
    + rewrite Ha. apply IH. exact Ht.
Qed.

Lemma getItem_putItem_same pos item t :
  getItem (id item) (putItem pos item t) = Some item.
Proof.
  unfold putItem. destruct (existsb (hasId (id item)) t) eqn:H.
  - apply getItem_replaced. exact H.
  - apply getItem_inserted_same. exact H.
Qed.

Lemma length_trace_served pos c w :
  length (trace (served pos c w)) = S (length (trace w)).
Proof. simpl. rewrite length_app. simpl. apply Nat.add_1_r. Qed.

(** X1. When the store answers, [create] returns the record it stored,
    built from the parameters with a new key and one clock reading for both
    timestamps, and [getById] on that key then returns exactly this
    record. *)
Theorem create_then_getById E params w :
  online E (length (trace w)) = true ->
  online E (S (length (trace w))) = true ->
  exists c w1,
    create E params w = (Ret (succeeded c), w1)
    /\ c = recordOf params (uuidv4 E (uuids w)) (clock E (dates w))
    /\ fst (getById E (id c) w1) = Ret (succeeded c).
Proof.
  intros H0 H1.
  exists (createdIn E params w), (afterCreate E params w).
  split; [apply create_online; exact H0|]. split; [reflexivity|].
  rewrite getById_online.
  - change (table (afterCreate E params w))
      with (putItem (slot E (length (trace w))) (createdIn E params w) (table w)).
    rewrite getItem_putItem_same. reflexivity.
  - simpl. rewrite length_app. simpl. rewrite Nat.add_1_r. exact H1.
Qed.

Lemma create_then_getById_witness :
  exists c w1,
    create Scenario.calm (primaryParams (Scenario.req "a" "1")) Scenario.oneChain
    = (Ret (succeeded c), w1)
    /\ c = recordOf (primaryParams (Scenario.req "a" "1"))
                    (uuidv4 Scenario.calm (uuids Scenario.oneChain))
                    (clock Scenario.calm (dates Scenario.oneChain))
    /\ fst (getById Scenario.calm (id c) w1) = Ret (succeeded c).
Proof.
  apply (create_then_getById Scenario.calm
           (primaryParams (Scenario.req "a" "1")) Scenario.oneChain);
    reflexivity.
Defined.

(** X2. When the store answers, [update] of a stored key returns the item
    as it is after the update ([ReturnValues: ALL_NEW]): [updatedAt] is the
    one given, [linkedId] and [linkPrecedence] are the ones given when
    given, and key, email, phone and creation time are as before.  The
    item is stored under its key, the items under other keys are untouched
    and no key is added or removed. *)
Theorem update_returns_new_item E u w c :
  online E (length (trace w)) = true ->
  getItem (up_id u) (table w) = Some c ->
  exists c' w',
    update E u w = (Ret (succeeded c'), w')
    /\ getItem (up_id u) (table w') = Some c'
    /\ id c' = id c /\ email c' = email c /\ phoneNumber c' = phoneNumber c
    /\ createdAt c' = createdAt c /\ updatedAt c' = up_updatedAt u
    /\ (forall k, up_linkedId u = Some k -> linkedId c' = Some k)
    /\ (forall p, up_linkPrecedence u = Some p -> linkPrecedence c' = p)
    /\ (forall k, k <> up_id u -> getItem k (table w') = getItem k (table w))
    /\ map id (table w') = map id (table w).
Proof.
  intros Hon Hc.
  exists (applyUpdate u c), (served 0 (UpdateCommand u) w).
  pose proof (getItem_updateItem_same u (table w) c Hc) as Hnew.
  split.
  - rewrite (update_online E u w Hon), Hnew. reflexivity.
  - split; [exact Hnew|]. repeat split.
    + intros k Hk. simpl. rewrite Hk. reflexivity.
    + intros p Hp. simpl. rewrite Hp. reflexivity.
    + intros k Hk. simpl. apply getItem_updateItem_other.
      intros Heq. apply Hk. symmetry. exact Heq.
    + simpl. apply ids_updateItem.
Qed.

Lemma update_returns_new_item_witness :
  exists c c' w',
    getItem "c2" (table Scenario.oneChain) = Some c
    /\ update Scenario.calm (demotion "c2" "c9" 99%Z) Scenario.oneChain
       = (Ret (succeeded c'), w')
    /\ getItem "c2" (table w') = Some c'
    /\ email c' = email c
    /\ linkedId c' = Some "c9"
    /\ getItem "c1" (table w') = getItem "c1" (table Scenario.oneChain).
Proof.
  assert (Hc : exists c, getItem "c2" (table Scenario.oneChain) = Some c)
    by (eexists; vm_compute; reflexivity).
  destruct Hc as [c Hc].
  destruct (update_returns_new_item Scenario.calm (demotion "c2" "c9" 99%Z)
              Scenario.oneChain c eq_refl Hc)
    as (c' & w' & Hrun & Hget & _ & He & _ & _ & _ & Hl & _ & Hothers & _).
  exists c, c', w'. repeat split; try assumption.
  - apply Hl. reflexivity.
  - apply Hothers. discriminate.
Defined.

(** ** ContactModel: failures *)

Lemma docClient_send_offline E c w :
  online E (length (trace w)) = false ->
  docClient_send E c w = (Throw, refused c w).
Proof. intros H. unfold docClient_send. rewrite H. reflexivity. Qed.

(** X3. A command the store refuses never escapes as an exception: each
    method of the model returns its own failure result and leaves the table
    as it was.  [findByEmailOrPhone] does so when the query has a usable
    field; [getLinkedContacts] reports "Primary contact not found" when the
    read of the primary is refused and "Failed to get linked contacts" when
    the scan for the secondaries is. *)
Theorem refused_commands_become_failures E w :
  online E (length (trace w)) = false ->
  (forall params,
      fst (create E params w) = Ret (failed "Failed to create contact")
      /\ table (snd (create E params w)) = table w)
  /\ (forall k,
         fst (getById E k w) = Ret (failed "Failed to get contact")
         /\ table (snd (getById E k w)) = table w)
  /\ (forall u,
         fst (update E u w) = Ret (failed "Failed to update contact")
         /\ table (snd (update E u w)) = table w)
  /\ (forall q,
         truthy (q_email q) || truthy (q_phoneNumber q) = true ->
         fst (findByEmailOrPhone E q w) = Ret (failed "Failed to find contacts")
         /\ table (snd (findByEmailOrPhone E q w)) = table w)
  /\ (forall k,
         fst (getLinkedContacts E k w) = Ret (failed "Primary contact not found")
         /\ table (snd (getLinkedContacts E k w)) = table w)
  /\ (forall k w0 root,
         online E (length (trace w0)) = true ->
         getItem k (table w0) = Some root ->
         w = served 0 (GetCommand k) w0 ->
         fst (getLinkedContacts E k w0)
         = Ret (failed "Failed to get linked contacts")
         /\ table (snd (getLinkedContacts E k w0)) = table w0).
Proof.
  intros Hoff. repeat split.
  - unfold create, tryCatch, bind, newDate, newUuid, docClient_send. simpl.
    rewrite Hoff. reflexivity.
  - unfold create, tryCatch, bind, newDate, newUuid, docClient_send. simpl.
    rewrite Hoff. reflexivity.
  - unfold getById, tryCatch, bind. rewrite (docClient_send_offline E _ w Hoff).
    reflexivity.
  - unfold getById, tryCatch, bind. rewrite (docClient_send_offline E _ w Hoff).
    reflexivity.
  - unfold update, tryCatch, bind. rewrite (docClient_send_offline E _ w Hoff).
    reflexivity.
  - unfold update, tryCatch, bind. rewrite (docClient_send_offline E _ w Hoff).
    reflexivity.
  - unfold findByEmailOrPhone, tryCatch, bind. rewrite H.
    rewrite (docClient_send_offline E _ w Hoff). reflexivity.
  - unfold findByEmailOrPhone, tryCatch, bind. rewrite H.
    rewrite (docClient_send_offline E _ w Hoff). reflexivity.
  - unfold getLinkedContacts, getById, tryCatch, bind.
    rewrite (docClient_send_offline E _ w Hoff). reflexivity.
  - unfold getLinkedContacts, getById, tryCatch, bind.
    rewrite (docClient_send_offline E _ w Hoff). reflexivity.
  - unfold getLinkedContacts, tryCatch. unfold bind at 1.
    rewrite (getById_online E k w0 H), H0. simpl. unfold bind.
    rewrite <- H1. rewrite (docClient_send_offline E _ w Hoff). reflexivity.
  - unfold getLinkedContacts, tryCatch. unfold bind at 1.
    rewrite (getById_online E k w0 H), H0. simpl. unfold bind.
    rewrite <- H1. rewrite (docClient_send_offline E _ w Hoff). subst w.
    reflexivity.
Qed.

Lemma refused_commands_become_failures_witness :
  online Flaky.env (length (trace Flaky.before)) = true
  /\ online Flaky.env
       (length (trace (served 0 (matchingScan Flaky.request) Flaky.before)))
     = false
  /\ fst (create Flaky.env (secondaryParams Flaky.request "c1")
            (served 0 (matchingScan Flaky.request) Flaky.before))
     = Ret (failed "Failed to create contact").
Proof.
  split; [reflexivity|]. split; [reflexivity|].
  apply (proj1 (refused_commands_become_failures Flaky.env
                  (served 0 (matchingScan Flaky.request) Flaky.before)
                  eq_refl)).
Defined.

(** X4. A key the table lacks: when the store answers, [getById] returns
    the failure "Contact not found"; [getLinkedContacts] returns "Primary
    contact not found" after that single read, without scanning for
    secondaries; [buildConsolidatedResponse] returns the failure "Failed to
    retrieve linked contacts".  The table is not changed. *)
Theorem missing_key_reported E k w :
  online E (length (trace w)) = true ->
  getItem k (table w) = None ->
  getById E k w = (Ret (failed "Contact not found"), served 0 (GetCommand k) w)
  /\ getLinkedContacts E k w
     = (Ret (failed "Primary contact not found"), served 0 (GetCommand k) w)
  /\ buildConsolidatedResponse E k w
     = (Ret (failed "Failed to retrieve linked contacts"),
        served 0 (GetCommand k) w).
Proof.
  intros Hon Hk.
  assert (Hget : getById E k w
                 = (Ret (failed "Contact not found"), served 0 (GetCommand k) w))
    by (rewrite (getById_online E k w Hon), Hk; reflexivity).
  assert (Hlinked : getLinkedContacts E k w
                    = (Ret (failed "Primary contact not found"),
                       served 0 (GetCommand k) w))
    by (unfold getLinkedContacts, tryCatch, bind; rewrite Hget; reflexivity).
  repeat split; try assumption.
  unfold buildConsolidatedResponse, bind. rewrite Hlinked. reflexivity.
Qed.

Lemma missing_key_reported_witness :
  getById Scenario.calm "c7" Scenario.oneChain
  = (Ret (failed "Contact not found"), served 0 (GetCommand "c7") Scenario.oneChain)
  /\ getLinkedContacts Scenario.calm "c7" Scenario.oneChain
     = (Ret (failed "Primary contact not found"),
        served 0 (GetCommand "c7") Scenario.oneChain)
  /\ buildConsolidatedResponse Scenario.calm "c7" Scenario.oneChain
     = (Ret (failed "Failed to retrieve linked contacts"),
        served 0 (GetCommand "c7") Scenario.oneChain).
Proof.
  apply (missing_key_reported Scenario.calm "c7" Scenario.oneChain).
  - reflexivity.
  - vm_compute. reflexivity.
Defined.

(** ** ContactModel: the matching scan *)

(** X5. A query with no usable field (each field absent or the empty
    string) is answered with success and an empty list without any command
    being sent to the store. *)
Theorem findByEmailOrPhone_empty_query E q w :
  truthy (q_email q) = false ->
  truthy (q_phoneNumber q) = false ->
  findByEmailOrPhone E q w = (Ret (succeeded []), w).
Proof.
  intros He Hp. unfold findByEmailOrPhone, tryCatch. rewrite He, Hp. reflexivity.
Qed.

Lemma findByEmailOrPhone_empty_query_witness :
  findByEmailOrPhone Scenario.calm
    {| q_email := Some EmptyString; q_phoneNumber := None |} Scenario.oneChain
  = (Ret (succeeded []), Scenario.oneChain).
Proof.
  apply (findByEmailOrPhone_empty_query Scenario.calm
           {| q_email := Some EmptyString; q_phoneNumber := None |});
    reflexivity.
Defined.

Lemma attrIs_eq attr v : attrIs attr v = true <-> attr = Some v.
Proof. unfold attrIs. apply strictEq_eq. Qed.

(** X6. When the store answers a query with a usable field,
    [findByEmailOrPhone] returns, in scan order, exactly the stored records
    whose email is the usable email of the query or whose phone is its
    usable phone; an empty-string field selects nothing.  The table is not
    changed. *)
Theorem findByEmailOrPhone_exact E q w :
  online E (length (trace w)) = true ->
  truthy (q_email q) || truthy (q_phoneNumber q) = true ->
  exists cs w',
    findByEmailOrPhone E q w = (Ret (succeeded cs), w')
    /\ table w' = table w
    /\ (exists keep, cs = filter keep (table w))
    /\ forall c,
         In c cs <->
         In c (table w)
         /\ ((truthy (q_email q) = true /\ email c = q_email q)
             \/ (truthy (q_phoneNumber q) = true /\ phoneNumber c = q_phoneNumber q)).
Proof.
  intros Hon Hq.
  set (f := FilterEmailOrPhone (provided (q_email q)) (provided (q_phoneNumber q))).
  exists (filter (satisfies f) (table w)), (served 0 (ScanCommand f) w).
  split; [|split; [reflexivity|split; [eexists; reflexivity|]]].
  - unfold findByEmailOrPhone, tryCatch, bind. rewrite Hq.
    rewrite (docClient_send_online E _ w Hon). reflexivity.
  - intros c. rewrite filter_In.
    assert (Hsat : satisfies f c = true <->
                   (truthy (q_email q) = true /\ email c = q_email q)
                   \/ (truthy (q_phoneNumber q) = true
                       /\ phoneNumber c = q_phoneNumber q)).
    { unfold f, satisfies, provided. rewrite orb_true_iff.
      destruct (truthy (q_email q)) eqn:He, (truthy (q_phoneNumber q)) eqn:Hp;
        destruct (q_email q) as [e|], (q_phoneNumber q) as [p|];
        try discriminate; rewrite ?attrIs_eq;
        intuition (try discriminate; auto). }
    rewrite Hsat. tauto.
Qed.

Lemma findByEmailOrPhone_exact_witness :
  exists cs w',
    findByEmailOrPhone Scenario.calm (queryOf (Scenario.req "b" "9"))
                       Scenario.oneChain
    = (Ret (succeeded cs), w')
    /\ table w' = table Scenario.oneChain
    /\ map id cs = ["c2"].
Proof.
  destruct (findByEmailOrPhone_exact Scenario.calm (queryOf (Scenario.req "b" "9"))
              Scenario.oneChain eq_refl eq_refl)
    as (cs & w' & Hrun & Htable & _ & _).
  exists cs, w'. split; [exact Hrun|]. split; [exact Htable|].
  assert (Hcs : fst (findByEmailOrPhone Scenario.calm
                       (queryOf (Scenario.req "b" "9")) Scenario.oneChain)
                = Ret (succeeded cs)) by (rewrite Hrun; reflexivity).
  vm_compute in Hcs. injection Hcs as <-. reflexivity.
Defined.

(** ** The service always answers *)

Lemma yields_ret A (Q : A -> Prop) a : Q a -> yields Q (ret a).
Proof. intros H w a' w' Hrun. unfold ret in Hrun. congruence. Qed.

Lemma yields_throw A (Q : A -> Prop) : yields Q (@throw A).
Proof. intros w a w' Hrun. discriminate Hrun. Qed.

Lemma yields_bind A B (Q : B -> Prop) (m : M A) (f : A -> M B) :
  (forall a, yields Q (f a)) -> yields Q (bind m f).
Proof.
  intros Hf w b w' Hrun. unfold bind in Hrun.
  destruct (m w) as [[a|] w1]; [|discriminate].
  exact (Hf a w1 b w' Hrun).
Qed.

Lemma wellFormed_succeeded T (x : T) : wellFormed (succeeded x).
Proof. left. eauto. Qed.

Lemma wellFormed_failed T msg : wellFormed (@failed T msg).
Proof. right. eauto. Qed.

Lemma buildConsolidatedResponse_wellFormed E k :
  yields wellFormed (buildConsolidatedResponse E k).
Proof.
  unfold buildConsolidatedResponse. apply yields_bind. intros r.
  destruct (success r); [|apply yields_ret, wellFormed_failed].
  destruct (data r) as [cs|]; [|apply yields_ret, wellFormed_failed].
  destruct (find _ cs);
    [apply yields_ret, wellFormed_succeeded|apply yields_throw].
Qed.

Lemma createNewPrimaryContact_wellFormed E request :
  yields wellFormed (createNewPrimaryContact E request).
Proof.
  unfold createNewPrimaryContact. apply yields_bind. intros r.
  destruct (success r); [|apply yields_ret, wellFormed_failed].
  destruct (data r);
    [apply yields_ret, wellFormed_succeeded|apply yields_ret, wellFormed_failed].
Qed.

Lemma linkTwoPrimaryContacts_wellFormed E gs request :
  yields wellFormed (linkTwoPrimaryContacts E gs request).
Proof.
  unfold linkTwoPrimaryContacts.
  destruct gs as [|g1 [|g2 [|g3 rest]]];
    try (apply yields_ret, wellFormed_failed).
  apply yields_bind. intros now. apply yields_bind. intros r.
  destruct (negb (success r)); [apply yields_ret, wellFormed_failed|].
  apply yields_bind. intros _. apply yields_bind. intros _.
  apply buildConsolidatedResponse_wellFormed.
Qed.

Lemma identifyContact_answers E request w :
  exists r w', identifyContact E request w = (Ret r, w') /\ wellFormed r.
Proof.
  unfold identifyContact, tryCatch.
  match goal with
  | |- context [let (o, w') := ?m w in _] =>
      assert (Hy : yields wellFormed m); [|destruct (m w) as [[r|] w1] eqn:Hrun]
  end.
  - destruct (negb (truthy (req_email request))
              && negb (truthy (req_phoneNumber request)));
      [apply yields_ret, wellFormed_failed|].
    apply yields_bind. intros r.
    destruct (negb (success r)); [apply yields_ret, wellFormed_failed|].
    destruct (match data r with Some l => l | None => [] end) as [|c cs].
    + apply createNewPrimaryContact_wellFormed.
    + apply yields_bind. intros gs.
      destruct gs as [|g1 [|g2 [|g3 rest]]].
      * apply yields_throw.
      * apply yields_bind. intros _. apply buildConsolidatedResponse_wellFormed.
      * apply linkTwoPrimaryContacts_wellFormed.
      * apply buildConsolidatedResponse_wellFormed.
  - exists r, w1. split; [reflexivity|]. exact (Hy w r w1 Hrun).
  - exists internalError, w1. split; [reflexivity|]. apply wellFormed_failed.
Qed.

(** X7. [identifyContact] never throws, whatever the request, the table
    and the behaviour of the store: it returns a result, and the result is
    either a success that carries a consolidated view and no error, or a
    failure that carries an error message and no data. *)
Theorem identifyContact_always_returns_result E request w :
  exists r w',
    identifyContact E request w = (Ret r, w')
    /\ ((success r = true /\ error r = None /\ exists view, data r = Some view)
        \/ (success r = false /\ data r = None /\ exists msg, error r = Some msg)).
Proof.
  destruct (identifyContact_answers E request w) as (r & w' & Hrun & Hwf).
  exists r, w'. split; [exact Hrun|].
  destruct Hwf as [[x ->]|[msg ->]]; [left|right]; simpl; eauto.
Qed.

(** X8. [ContactController.identify] answers every request with status 200
    or 400 and never with 500: 200 with the consolidated view exactly when
    the service result is a success, and otherwise 400 carrying the error
    message of the service, also when the failure is a refused store
    operation or the internal error of the service.  The handler itself
    touches the store only through the service. *)
Theorem identify_status E request w :
  exists response,
    identify E request w = (Ret response, snd (identifyContact E request w))
    /\ ((exists view,
            fst (identifyContact E request w) = Ret (succeeded view)
            /\ response = {| statusCode := 200; body := IdentifyResponse view |})
        \/ (exists msg,
               fst (identifyContact E request w) = Ret (failed msg)
               /\ response
                  = {| statusCode := 400;
                       body := ApiFailure (Some msg) "Failed to identify contact" |})).
Proof.
  destruct (identifyContact_answers E request w) as (r & w' & Hrun & Hwf).
  unfold identify, tryCatch, bind. rewrite Hrun. simpl.
  destruct Hwf as [[view ->]|[msg ->]]; simpl; eexists; split; try reflexivity.
  - left. eauto.
  - right. eauto.
Qed.

(** ** What the service writes

    Every write of [identifyContact] is a [create] of a record built from
    the request, as a primary or as a secondary under some key, or an
    [update] that makes a record a secondary of some key.  A predicate that
    these and the reads keep is kept by the whole call. *)

Section ServiceWrites.

Variable E : Env.
Variable P : World -> Prop.
Variable request : IdentifyRequest.

Hypothesis P_read : forall c w, isRead c -> P w -> P (snd (docClient_send E c w)).
Hypothesis P_date : forall w, P w -> P (snd (newDate E w)).
Hypothesis P_primary :
  supplied request -> preserves P (create E (primaryParams request)).
Hypothesis P_secondary :
  supplied request -> forall k, preserves P (create E (secondaryParams request k)).
Hypothesis P_demotion :
  forall k older now, preserves P (update E (demotion k older now)).

Lemma view_kept k : preserves P (buildConsolidatedResponse E k).
Proof.
  apply preserves_buildConsolidatedResponse with (ok := isRead);
    try reflexivity. exact P_read.
Qed.

Lemma attach_and_view_kept cs k :
  supplied request ->
  preserves P (when (shouldCreateSecondaryContact request cs)
                    (createSecondaryContact E request k) ;;;
               buildConsolidatedResponse E k).
Proof.
  intros Hs. apply preserves_bind; [|intros _; apply view_kept].
  apply preserves_when. unfold createSecondaryContact.
  apply preserves_bind; [|intros _; apply preserves_ret].
  apply (P_secondary Hs k).
Qed.

Lemma linkTwoPrimaryContacts_kept gs :
  supplied request -> preserves P (linkTwoPrimaryContacts E gs request).
Proof.
  intros Hs. unfold linkTwoPrimaryContacts.
  destruct gs as [|g1 [|g2 [|g3 rest]]]; try apply preserves_ret.
  apply preserves_bind; [exact P_date|]. intros now.
  apply preserves_bind; [apply P_demotion|]. intros r.
  destruct (negb (success r)); [apply preserves_ret|].
  apply preserves_bind; [|intros _; apply attach_and_view_kept; exact Hs].
  apply preserves_forOf. intros c _. unfold repoint.
  destruct (linkPrecedence c); [apply preserves_ret|].
  apply preserves_bind; [exact P_date|]. intros now'.
  apply preserves_bind; [apply P_demotion|]. intros _. apply preserves_ret.
Qed.

Lemma identifyContact_kept : preserves P (identifyContact E request).
Proof.
  unfold identifyContact.
  apply preserves_tryCatch; [|apply preserves_ret].
  destruct (negb (truthy (req_email request))
            && negb (truthy (req_phoneNumber request))) eqn:Hguard;
    [apply preserves_ret|].
  assert (Hs : supplied request).
  { unfold supplied.
    destruct (truthy (req_email request)); [left; reflexivity|].
    destruct (truthy (req_phoneNumber request)); [right; reflexivity|].
    discriminate Hguard. }
  apply preserves_bind.
  - apply preserves_findByEmailOrPhone with (ok := isRead);
      [exact P_read|reflexivity].
  - intros r. destruct (negb (success r)); [apply preserves_ret|].
    destruct (match data r with Some l => l | None => [] end) as [|c cs].
    + unfold createNewPrimaryContact. apply preserves_bind.
      * apply (P_primary Hs).
      * intros r'. destruct (success r'); [|apply preserves_ret].
        destruct (data r'); apply preserves_ret.
    + apply preserves_bind.
      * apply preserves_groupContactsByPrimary with (ok := isRead);
          [exact P_read|reflexivity].
      * intros gs. destruct gs as [|g1 [|g2 [|g3 rest]]].
        -- apply preserves_throw.
        -- apply attach_and_view_kept. exact Hs.
        -- apply linkTwoPrimaryContacts_kept. exact Hs.
        -- apply view_kept.
Qed.

End ServiceWrites.

(** The same, for a predicate stated on the commands: [ok] holds of the
    reads, of the Put of a record built from a supplied request and of the
    Update that demotes or re-points. *)
Section ServiceCommands.

Variable E : Env.
Variable P : World -> Prop.
Variable ok : Command -> Prop.

Hypothesis P_send : forall c w, ok c -> P w -> P (snd (docClient_send E c w)).
Hypothesis P_date : forall w, P w -> P (snd (newDate E w)).
Hypothesis P_uuid : forall w, P w -> P (snd (newUuid E w)).
Hypothesis ok_read : forall c, isRead c -> ok c.
Hypothesis ok_primary :
  forall request k now,
    supplied request -> ok (PutCommand (recordOf (primaryParams request) k now)).
Hypothesis ok_secondary :
  forall request older k now,
    supplied request ->
    ok (PutCommand (recordOf (secondaryParams request older) k now)).
Hypothesis ok_demotion :
  forall k older now, ok (UpdateCommand (demotion k older now)).

Lemma identifyContact_keeps request : preserves P (identifyContact E request).
Proof.
  apply identifyContact_kept.
  - intros c w Hc. apply P_send. apply ok_read. exact Hc.
  - exact P_date.
  - intros Hs. apply preserves_create with (ok := ok); try assumption.
    intros k now. apply (ok_primary request k now Hs).
  - intros Hs older. apply preserves_create with (ok := ok); try assumption.
    intros k now. apply (ok_secondary request older k now Hs).
  - intros k older now. apply preserves_update with (ok := ok); [assumption|].
    apply ok_demotion.
Qed.

Lemma identifyAll_keeps requests : forall w,
  P w -> P (identifyAll E requests w).
Proof.
  induction requests as [|r rest IH]; intros w Hw; simpl; [exact Hw|].
  apply IH. apply identifyContact_keeps. exact Hw.
Qed.

End ServiceCommands.

(** ** Keys *)

Lemma ids_replaced item t :
  map id (map (fun c => if hasId (id item) c then item else c) t) = map id t.
Proof.
  rewrite map_map. apply map_ext_in. intros c _.
  destruct (hasId (id item) c) eqn:H; [|reflexivity].
  unfold hasId in H. apply String.eqb_eq in H. symmetry. exact H.
Qed.

Lemma ids_inserted item t pos :
  Permutation (id item :: map id t)
              (map id (firstn pos t ++ item :: skipn pos t)).
Proof.
  rewrite map_app. simpl.
  rewrite <- (firstn_skipn pos t) at 1. rewrite map_app.
  apply Permutation_middle.
Qed.

Lemma ids_putItem_incl pos item t : incl (map id t) (map id (putItem pos item t)).
Proof.
  unfold putItem. destruct (existsb (hasId (id item)) t).
  - rewrite ids_replaced. apply incl_refl.
  - intros k Hk. apply (Permutation_in _ (ids_inserted item t pos)).
    right. exact Hk.
Qed.

Lemma ids_putItem_NoDup pos item t :
  NoDup (map id t) -> NoDup (map id (putItem pos item t)).
Proof.
  intros Hnd. unfold putItem. destruct (existsb (hasId (id item)) t) eqn:H.
  - rewrite ids_replaced. exact Hnd.
  - apply (Permutation_NoDup (ids_inserted item t pos)).
    constructor; [|exact Hnd].
    intros Hin. apply in_map_iff in Hin. destruct Hin as (c & Hc & Hin).
    assert (Ht : existsb (hasId (id item)) t = true).
    { apply existsb_exists. exists c. split; [exact Hin|].
      unfold hasId. apply String.eqb_eq. exact Hc. }
    congruence.
Qed.

Lemma table_after_send E c w :
  table (snd (docClient_send E c w)) = table w
  \/ (exists pos item, c = PutCommand item
                       /\ table (snd (docClient_send E c w))
                          = putItem pos item (table w))
  \/ (exists u, c = UpdateCommand u
                /\ table (snd (docClient_send E c w)) = updateItem u (table w)).
Proof.
  unfold docClient_send. destruct (online E (length (trace w))); [|left; reflexivity].
  destruct c as [item|k|u|f]; simpl.
  - right. left. do 2 eexists. split; reflexivity.
  - left. reflexivity.
  - right. right. eexists. split; reflexivity.
  - left. reflexivity.
Qed.

Lemma uniqueKeys_send E c w :
  uniqueKeys w -> uniqueKeys (snd (docClient_send E c w)).
Proof.
  unfold uniqueKeys. intros H.
  destruct (table_after_send E c w)
    as [->|[(pos & item & _ & ->)|(u & _ & ->)]].
  - exact H.
  - apply ids_putItem_NoDup. exact H.
  - rewrite ids_updateItem. exact H.
Qed.

Lemma keepsKeys_send E keys c w :
  keepsKeys keys w -> keepsKeys keys (snd (docClient_send E c w)).
Proof.
  unfold keepsKeys. intros H.
  destruct (table_after_send E c w)
    as [->|[(pos & item & _ & ->)|(u & _ & ->)]].
  - exact H.
  - intros k Hk. apply ids_putItem_incl. apply H. exact Hk.
  - rewrite ids_updateItem. exact H.
Qed.

(** X9. Keys stay unique: if no two items of the table share a key, the
    same holds after any sequence of [identifyContact] calls, whatever the
    store refuses and whatever identifiers are generated (a Put under an
    existing key replaces the item). *)
Theorem identifyAll_keeps_keys_unique E requests w :
  NoDup (map id (table w)) ->
  NoDup (map id (table (identifyAll E requests w))).
Proof.
  apply (identifyAll_keeps E uniqueKeys (fun _ => True)); auto.
  intros c w0 _. apply uniqueKeys_send.
Qed.

Lemma identifyAll_keeps_keys_unique_witness :
  NoDup (map id (table emptyWorld))
  /\ NoDup (map id (table (identifyAll Scenario.calm
                             [Scenario.req "a" "1"; Scenario.req "b" "1";
                              Scenario.req "c" "2"; Scenario.req "a" "2"]
                             emptyWorld))).
Proof.
  assert (H : NoDup (map id (table emptyWorld))) by constructor.
  split; [exact H|].
  apply (identifyAll_keeps_keys_unique Scenario.calm). exact H.
Defined.

(** X10. Reconciliation never deletes: every key present in the table is
    still present after any sequence of [identifyContact] calls, whatever
    the store refuses. *)
Theorem identifyAll_never_deletes E requests w k :
  In k (map id (table w)) ->
  In k (map id (table (identifyAll E requests w))).
Proof.
  intros Hk.
  apply (identifyAll_keeps E (keepsKeys (map id (table w))) (fun _ => True));
    auto.
  - intros c w0 _. apply keepsKeys_send.
  - unfold keepsKeys. apply incl_refl.
Qed.

Lemma identifyAll_never_deletes_witness :
  In "c2" (map id (table Scenario.twoPrimaries))
  /\ In "c2" (map id (table (identifyAll Scenario.calm
                               [Scenario.req "g@h.edu" "717171"]
                               Scenario.twoPrimaries))).
Proof.
  assert (H : In "c2" (map id (table Scenario.twoPrimaries)))
    by (vm_compute; auto).
  split; [exact H|].
  apply (identifyAll_never_deletes Scenario.calm). exact H.
Defined.

(** ** Shape of the stored records *)

Lemma Forall_putItem (Q : Contact -> Prop) pos item t :
  Q item -> Forall Q t -> Forall Q (putItem pos item t).
Proof.
  intros Hi Ht. unfold putItem. destruct (existsb (hasId (id item)) t).
  - apply Forall_forall. intros c Hc. apply in_map_iff in Hc.
    destruct Hc as (c0 & <- & Hc0).
    destruct (hasId (id item) c0); [exact Hi|].
    exact (proj1 (Forall_forall Q t) Ht c0 Hc0).
  - rewrite <- (firstn_skipn pos t) in Ht. apply Forall_app in Ht.
    destruct Ht as [H1 H2]. apply Forall_app. split; [exact H1|].
    constructor; assumption.
Qed.

Lemma Forall_updateItem (Q : Contact -> Prop) u t :
  (forall c, Q c -> Q (applyUpdate u c)) ->
  Forall Q t -> Forall Q (updateItem u t).
Proof.
  intros Hu Ht. unfold updateItem. apply Forall_forall. intros c Hc.
  apply in_map_iff in Hc. destruct Hc as (c0 & <- & Hc0).
  pose proof (proj1 (Forall_forall Q t) Ht c0 Hc0) as H0.
  destruct (hasId (up_id u) c0); auto.
Qed.

Lemma linkShape_send E c w :
  linkWrite c ->
  Forall linkShape (table w) ->
  Forall linkShape (table (snd (docClient_send E c w))).
Proof.
  intros Hc H.
  destruct (table_after_send E c w)
    as [->|[(pos & item & -> & ->)|(u & -> & ->)]].
  - exact H.
  - apply Forall_putItem; assumption.
  - apply Forall_updateItem; [|exact H].
    destruct Hc as [Hl Hp]. intros c0 _. unfold linkShape. simpl.
    rewrite Hp. destruct (up_linkedId u); [discriminate|contradiction].
Qed.

(** X11. The link fields stay consistent: if every stored primary has no
    [linkedId] and every stored secondary has one, the same holds after any
    sequence of [identifyContact] calls, whatever the store refuses.
    Records are created either primary without [linkedId] or secondary
    with one, and every update sets both fields together. *)
Theorem identifyAll_keeps_link_shape E requests w :
  Forall linkShape (table w) ->
  Forall linkShape (table (identifyAll E requests w)).
Proof.
  apply (identifyAll_keeps E (fun w0 => Forall linkShape (table w0)) linkWrite);
    auto.
  - intros c w0. apply linkShape_send.
  - intros c Hc. destruct c; try discriminate Hc; exact I.
  - intros request k now _. reflexivity.
  - intros request older k now _. simpl. unfold linkShape. simpl. discriminate.
  - intros k older now. simpl. split; [discriminate|reflexivity].
Qed.

Lemma identifyAll_keeps_link_shape_witness :
  Forall linkShape (table emptyWorld)
  /\ Forall linkShape
       (table (identifyAll Scenario.calm
                 [Scenario.req "a" "1"; Scenario.req "b" "2";
                  Scenario.req "b" "3"; Scenario.req "a" "2"] emptyWorld)).
Proof.
  assert (H : Forall linkShape (table emptyWorld)) by constructor.
  split; [exact H|].
  apply (identifyAll_keeps_link_shape Scenario.calm). exact H.
Defined.

Lemma hasContactInfo_send E c w :
  infoWrite c ->
  Forall hasContactInfo (table w) ->
  Forall hasContactInfo (table (snd (docClient_send E c w))).
Proof.
  intros Hc H.
  destruct (table_after_send E c w)
    as [->|[(pos & item & -> & ->)|(u & -> & ->)]].
  - exact H.
  - apply Forall_putItem; assumption.
  - apply Forall_updateItem; [|exact H]. intros c0 H0. exact H0.
Qed.

Lemma provided_truthy s : truthy s = true -> truthy (provided s) = true.
Proof. intros H. rewrite truthy_provided. exact H. Qed.

(** X12. Every stored record keeps an email or a phone: if each item of
    the table carries a non-empty email or a non-empty phone, so does each
    item after any sequence of [identifyContact] calls.  A record is
    created only from a request that supplies one of the two, and updates
    never touch these fields. *)
Theorem identifyAll_keeps_contact_info E requests w :
  Forall hasContactInfo (table w) ->
  Forall hasContactInfo (table (identifyAll E requests w)).
Proof.
  apply (identifyAll_keeps E (fun w0 => Forall hasContactInfo (table w0))
           infoWrite); auto.
  - intros c w0. apply hasContactInfo_send.
  - intros c Hc. destruct c; try discriminate Hc; exact I.
  - intros request k now [H|H]; [left|right]; simpl; apply provided_truthy;
      exact H.
  - intros request older k now [H|H]; [left|right]; simpl; apply provided_truthy;
      exact H.
  - intros k older now. exact I.
Qed.

Lemma identifyAll_keeps_contact_info_witness :
  Forall hasContactInfo (table emptyWorld)
  /\ Forall hasContactInfo
       (table (identifyAll Scenario.calm
                 [ {| req_email := Some EmptyString; req_phoneNumber := Some "1" |};
                   {| req_email := Some "a"; req_phoneNumber := None |};
                   {| req_email := Some "a"; req_phoneNumber := Some "1" |} ]
                 emptyWorld)).
Proof.
  assert (H : Forall hasContactInfo (table emptyWorld)) by constructor.
  split; [exact H|].
  apply (identifyAll_keeps_contact_info Scenario.calm). exact H.
Defined.

(** ** Stored records keep their fields *)

Lemma sameCore_refl c : sameCore c c.
Proof. repeat split. auto. Qed.

Lemma keepsRecords_refl t : keepsRecords t t.
Proof. intros c Hc. exists c. split; [exact Hc|apply sameCore_refl]. Qed.

Lemma keepsRecords_putItem t0 pos item t :
  ~ In (id item) (map id t0) ->
  keepsRecords t0 t -> keepsRecords t0 (putItem pos item t).
Proof.
  intros Hfresh Hk c Hc. destruct (Hk c Hc) as (c' & Hin & Hcore).
  exists c'. split; [|exact Hcore].
  assert (Hne : hasId (id item) c' = false).
  { unfold hasId. apply String.eqb_neq. intros Heq. apply Hfresh.
    rewrite <- Heq. destruct Hcore as [-> _]. apply in_map. exact Hc. }
  unfold putItem. destruct (existsb (hasId (id item)) t).
  - apply in_map_iff. exists c'. rewrite Hne. auto.
  - rewrite <- (firstn_skipn pos t) in Hin. apply in_app_or in Hin.
    apply in_or_app. destruct Hin as [Hin|Hin]; [left|right; right]; exact Hin.
Qed.

Lemma keepsRecords_updateItem t0 u t :
  up_linkPrecedence u = Some secondary ->
  keepsRecords t0 t -> keepsRecords t0 (updateItem u t).
Proof.
  intros Hp Hk c Hc. destruct (Hk c Hc) as (c' & Hin & Hcore).
  exists (if hasId (up_id u) c' then applyUpdate u c' else c'). split.
  - unfold updateItem. apply in_map_iff. exists c'. auto.
  - destruct (hasId (up_id u) c'); [|exact Hcore].
    destruct Hcore as (H1 & H2 & H3 & H4 & H5).
    repeat split; simpl; try assumption. intros _. rewrite Hp. reflexivity.
Qed.

Section Records.

Variable E : Env.
Variable t0 : list Contact.
Variable drawn : nat.

Hypothesis fresh : forall n, drawn <= n -> ~ In (uuidv4 E n) (map id t0).

Local Abbreviation kept := (keepsRecordsFrom t0 drawn).

Lemma kept_read c w : isRead c -> kept w -> kept (snd (docClient_send E c w)).
Proof.
  intros Hc [Hk Hd]. unfold keepsRecordsFrom, docClient_send.
  destruct (online E (length (trace w))); simpl; [|auto].
  destruct c; try discriminate Hc; simpl; auto.
Qed.

Lemma kept_create params : preserves kept (create E params).
Proof.
  intros w [Hk Hd]. unfold create, tryCatch, bind, newDate, newUuid, docClient_send.
  simpl. destruct (online E (length (trace w))); simpl; split; auto;
    try (unfold served, refused; simpl; lia).
  apply keepsRecords_putItem; [|exact Hk]. simpl. apply fresh. exact Hd.
Qed.

Lemma kept_demotion k older now : preserves kept (update E (demotion k older now)).
Proof.
  intros w [Hk Hd]. unfold update, tryCatch, bind, docClient_send.
  destruct (online E (length (trace w))); simpl; split; auto.
  apply keepsRecords_updateItem; [reflexivity|exact Hk].
Qed.

Lemma identifyAll_kept requests : forall w, kept w -> kept (identifyAll E requests w).
Proof.
  induction requests as [|r rest IH]; intros w Hw; simpl; [exact Hw|].
  apply IH. apply identifyContact_kept; try assumption.
  - exact kept_read.
  - intros w0 H. exact H.
  - intros _. apply kept_create.
  - intros _ older. apply kept_create.
  - exact kept_demotion.
Qed.

End Records.

(** X13. Stored records keep their fields and are never promoted.  If the
    identifiers still to be generated are not keys of the table, then after
    any sequence of [identifyContact] calls every record of the initial
    table is still stored under its key with the same email, phone and
    [createdAt], and a record that was a secondary is still a secondary. *)
Theorem identifyAll_keeps_records E requests w c :
  freshFrom E w ->
  In c (table w) ->
  exists c',
    In c' (table (identifyAll E requests w))
    /\ id c' = id c
    /\ email c' = email c
    /\ phoneNumber c' = phoneNumber c
    /\ createdAt c' = createdAt c
    /\ (linkPrecedence c = secondary -> linkPrecedence c' = secondary).
Proof.
  intros Hfresh Hc.
  destruct (identifyAll_kept E (table w) (uuids w) Hfresh requests w) as [Hk _].
  - split; [apply keepsRecords_refl|apply le_n].
  - exact (Hk c Hc).
Qed.

Lemma identifyAll_keeps_records_witness :
  exists c c',
    getItem "c2" (table Scenario.twoPrimaries) = Some c
    /\ In c' (table (identifyAll Scenario.calm
                       [Scenario.req "g@h.edu" "717171"; Scenario.req "x" "919191"]
                       Scenario.twoPrimaries))
    /\ id c' = "c2"
    /\ email c' = Some "b@h.edu"
    /\ phoneNumber c' = Some "717171"
    /\ createdAt c' = 20%Z.
Proof.
  assert (Hfresh : freshFrom Scenario.calm Scenario.twoPrimaries).
  { intros n Hn. vm_compute in Hn. vm_compute.
    destruct n as [|[|[|[|[|n]]]]]; try lia; intuition discriminate. }
  assert (Hc : exists c, getItem "c2" (table Scenario.twoPrimaries) = Some c
                         /\ In c (table Scenario.twoPrimaries)
                         /\ id c = "c2" /\ email c = Some "b@h.edu"
                         /\ phoneNumber c = Some "717171" /\ createdAt c = 20%Z).
  { eexists. vm_compute. repeat split. right. left. reflexivity. }
  destruct Hc as (c & Hget & Hin & H1 & H2 & H3 & H4).
  destruct (identifyAll_keeps_records Scenario.calm
              [Scenario.req "g@h.edu" "717171"; Scenario.req "x" "919191"]
              Scenario.twoPrimaries c Hfresh Hin)
    as (c' & Hin' & H1' & H2' & H3' & H4' & _).
  exists c, c'.
  split; [exact Hget|]. split; [exact Hin'|].
  split; [congruence|]. split; [congruence|]. split; congruence.
Defined.

(** ** The lists of a view *)

Lemma keepFirst_In v l : In v (keepFirst l) -> In v l.
Proof.
  induction l as [|x l IH]; simpl; [tauto|].
  intros [->|H]; [left; reflexivity|].
  apply filter_In in H. right. apply IH. tauto.
Qed.

Lemma keepFirst_distinct l : NoDup (keepFirst l).
Proof.
  induction l as [|x l IH]; simpl; constructor.
  - intros H. apply filter_In in H. destruct H as [_ H].
    rewrite differs_refl in H. discriminate H.
  - apply NoDup_filter. exact IH.
Qed.

Lemma valuesOf_In f cs v :
  In v (valuesOf f cs) ->
  v <> EmptyString /\ exists c, In c cs /\ f c = Some v.
Proof.
  unfold valuesOf. intros H. apply in_flat_map in H.
  destruct H as (c & Hc & Hv). unfold singleton in Hv.
  destruct (f c) as [x|] eqn:Hf; [|destruct Hv].
  destruct (truthy (Some x)) eqn:Ht; [|destruct Hv].
  destruct Hv as [<-|[]]. split.
  - simpl in Ht. intros ->. discriminate Ht.
  - exists c. auto.
Qed.

Lemma getLinkedContacts_success E k w r w' all :
  getLinkedContacts E k w = (Ret r, w') ->
  success r = true ->
  data r = Some all ->
  exists root,
    getItem k (table w) = Some root
    /\ all = root :: chainScan k (table w)
    /\ table w' = table w.
Proof.
  unfold getLinkedContacts, getById, tryCatch, bind, docClient_send.
  destruct (online E (length (trace w))); simpl.
  - destruct (getItem k (table w)) as [root|] eqn:Hroot; simpl.
    + destruct (online E _); simpl; intros Hrun Hok Hdata.
      * injection Hrun as <- <-. simpl in Hdata. injection Hdata as <-.
        exists root. auto.
      * injection Hrun as <- _. discriminate Hok.
    + intros Hrun Hok _. injection Hrun as <- _. discriminate Hok.
  - intros Hrun Hok _. injection Hrun as <- _. discriminate Hok.
Qed.

Lemma chain_member k t root c :
  getItem k t = Some root ->
  In c (root :: chainScan k t) ->
  In c t /\ (id c = k \/ linkedId c = Some k).
Proof.
  intros Hroot [<-|Hc].
  - split; [exact (getItem_In _ _ _ Hroot)|left; exact (getItem_id _ _ _ Hroot)].
  - unfold chainScan in Hc. apply filter_In in Hc. destruct Hc as [Hin Hs].
    split; [exact Hin|right]. simpl in Hs. apply attrIs_eq. exact Hs.
Qed.

(** X14. Whenever [buildConsolidatedResponse] returns a view for the key
    [k]: [emails] and [phoneNumbers] hold no value twice and no empty
    string; each listed value is carried by a stored record that is the
    record under [k] or has [linkedId] equal to [k]; each id of
    [secondaryContactIds] is the key of such a record whose
    [linkPrecedence] is secondary; and the table is left as it was. *)
Theorem buildConsolidatedResponse_view_sound E k w r w' view :
  buildConsolidatedResponse E k w = (Ret r, w') ->
  data r = Some view ->
  NoDup (emails view) /\ NoDup (phoneNumbers view)
  /\ ~ In EmptyString (emails view) /\ ~ In EmptyString (phoneNumbers view)
  /\ (forall v, In v (emails view) ->
        exists c, In c (table w) /\ email c = Some v
                  /\ (id c = k \/ linkedId c = Some k))
  /\ (forall v, In v (phoneNumbers view) ->
        exists c, In c (table w) /\ phoneNumber c = Some v
                  /\ (id c = k \/ linkedId c = Some k))
  /\ (forall i, In i (secondaryContactIds view) ->
        exists c, In c (table w) /\ id c = i /\ linkPrecedence c = secondary
                  /\ (id c = k \/ linkedId c = Some k))
  /\ table w' = table w.
Proof.
  unfold buildConsolidatedResponse, bind.
  destruct (getLinkedContacts E k w) as [[r0|] w0] eqn:Hlinked; [|discriminate].
  destruct (success r0) eqn:Hok;
    [|unfold ret; intros H; injection H as <- _; discriminate].
  destruct (data r0) as [all|] eqn:Hdata;
    [|unfold ret; intros H; injection H as <- _; discriminate].
  destruct (getLinkedContacts_success E k w r0 w0 all Hlinked Hok Hdata)
    as (root & Hroot & Hall & Htable).
  destruct (find (fun c => isPrimary (linkPrecedence c)) all) as [p|] eqn:Hp;
    [|discriminate].
  unfold ret. intros Hrun Hview. injection Hrun as <- <-.
  simpl in Hview. injection Hview as <-. simpl.
  rewrite collected_emails, collected_phoneNumbers.
  assert (Hmember : forall c, In c (p :: secondariesOf all) ->
                              In c (table w) /\ (id c = k \/ linkedId c = Some k)).
  { intros c Hc. apply (chain_member k (table w) root c Hroot). rewrite <- Hall.
    destruct Hc as [<-|Hc].
    - apply find_some in Hp. tauto.
    - unfold secondariesOf in Hc. apply filter_In in Hc. tauto. }
  fold (secondariesOf all).
  split; [apply keepFirst_distinct|]. split; [apply keepFirst_distinct|].
  split; [|split; [|split; [|split; [|split; [|exact Htable]]]]].
  - intros H. apply keepFirst_In, valuesOf_In in H. destruct H as [H _].
    apply H. reflexivity.
  - intros H. apply keepFirst_In, valuesOf_In in H. destruct H as [H _].
    apply H. reflexivity.
  - intros v H. apply keepFirst_In, valuesOf_In in H.
    destruct H as (_ & c & Hc & Hv). exists c.
    destruct (Hmember c Hc). auto.
  - intros v H. apply keepFirst_In, valuesOf_In in H.
    destruct H as (_ & c & Hc & Hv). exists c.
    destruct (Hmember c Hc). auto.
  - intros i H. apply in_map_iff in H. destruct H as (c & Hi & Hc).
    exists c. destruct (Hmember c (or_intror Hc)) as [H1 H2].
    repeat split; try assumption.
    unfold secondariesOf in Hc. apply filter_In in Hc. destruct Hc as [_ Hs].
    destruct (linkPrecedence c); [discriminate Hs|reflexivity].
Qed.

Lemma buildConsolidatedResponse_view_sound_witness :
  exists r w' view,
    buildConsolidatedResponse Scenario.calm "c1" Scenario.oneChain = (Ret r, w')
    /\ data r = Some view
    /\ phoneNumbers view = ["1"]
    /\ NoDup (emails view) /\ NoDup (phoneNumbers view)
    /\ table w' = table Scenario.oneChain.
Proof.
  assert (Hrun : exists r w' view,
             buildConsolidatedResponse Scenario.calm "c1" Scenario.oneChain
             = (Ret r, w')
             /\ data r = Some view /\ phoneNumbers view = ["1"]).
  { do 3 eexists. vm_compute. repeat split. }
  destruct Hrun as (r & w' & view & Hrun & Hdata & Hphones).
  destruct (buildConsolidatedResponse_view_sound Scenario.calm "c1"
              Scenario.oneChain r w' view Hrun Hdata)
    as (H1 & H2 & _ & _ & _ & _ & _ & H3).
  exists r, w', view. repeat split; assumption.
Defined.

(** ** New information, characterised *)

Lemma no_record_with cs (f : Contact -> option string) v :
  negb (existsb (fun contact => strictEq (f contact) v) cs) = true
  <-> forall c, In c cs -> f c <> v.
Proof.
  rewrite negb_true_iff. split.
  - intros H c Hc Heq.
    assert (Ht : existsb (fun contact => strictEq (f contact) v) cs = true).
    { apply existsb_exists. exists c. split; [exact Hc|].
      apply strictEq_eq. exact Heq. }
    congruence.
  - intros H. destruct (existsb _ cs) eqn:He; [|reflexivity].
    apply existsb_exists in He. destruct He as (c & Hc & Heq).
    apply strictEq_eq in Heq. exfalso. exact (H c Hc Heq).
Qed.

(** X15. [shouldCreateSecondaryContact] answers true exactly when the
    request supplies an email that no given record carries or a phone that
    no given record carries.  The exact-match test of the source never
    changes the answer, and an empty-string or absent field never counts as
    new. *)
Theorem shouldCreateSecondaryContact_iff request cs :
  shouldCreateSecondaryContact request cs = true
  <-> (truthy (req_email request) = true
       /\ forall c, In c cs -> email c <> req_email request)
      \/ (truthy (req_phoneNumber request) = true
          /\ forall c, In c cs -> phoneNumber c <> req_phoneNumber request).
Proof.
  rewrite shouldCreateSecondaryContact_new. unfold hasNewEmail, hasNewPhone.
  rewrite orb_true_iff, !andb_true_iff, !no_record_with. reflexivity.
Qed.

(** ** The grouper partitions what it is given *)

Lemma pushContact_group pid c groups g :
  In g (pushContact pid c groups) ->
  exists g0,
    In g0 groups /\ primaryId g = primaryId g0
    /\ ((primaryId g0 = pid /\ contacts g = contacts g0 ++ [c]) \/ g = g0).
Proof.
  unfold pushContact. intros Hg. apply in_map_iff in Hg.
  destruct Hg as (g0 & Heq & Hg0). exists g0. split; [exact Hg0|].
  destruct (String.eqb_spec (primaryId g0) pid) as [Hk|_]; subst g; simpl; auto.
Qed.

Lemma groupLoop_roots E cs : forall groups w gs w',
  groupLoop E cs groups w = (Ret gs, w') ->
  (forall g x, In g groups -> In x (contacts g) -> rootIdOf x = Some (primaryId g)) ->
  forall g x, In g gs -> In x (contacts g) -> rootIdOf x = Some (primaryId g).
Proof.
  induction cs as [|c cs IH]; intros groups w gs w' Hrun Hinv; simpl in Hrun.
  - unfold ret in Hrun. injection Hrun as <- _. exact Hinv.
  - destruct (rootIdOf c) as [pid|] eqn:Hroot; [|discriminate].
    unfold bind in Hrun.
    destruct (ensureGroup E c pid groups w) as [[groups'|] w1] eqn:He;
      [|discriminate].
    apply (IH _ _ _ _ Hrun). intros g x Hg Hx.
    destruct (pushContact_group _ _ _ _ Hg) as (g0 & Hg0 & Hk & Hcase).
    assert (Hold : forall y, In y (contacts g0) -> rootIdOf y = Some (primaryId g0)).
    { intros y Hy. apply ensureGroup_cases in He.
      destruct He as [[_ ->]|[_ [t ->]]]; [exact (Hinv g0 y Hg0 Hy)|].
      apply in_app_or in Hg0. destruct Hg0 as [Hg0|[<-|[]]].
      - exact (Hinv g0 y Hg0 Hy).
      - destruct Hy. }
    rewrite Hk. destruct Hcase as [[Hpid Hc]| ->]; [|exact (Hold x Hx)].
    rewrite Hc in Hx. apply in_app_or in Hx. destruct Hx as [Hx|[<-|[]]].
    + exact (Hold x Hx).
    + rewrite Hpid. exact Hroot.
Qed.

(** X16. The groups that [groupContactsByPrimary] returns partition the
    records it is given by chain root: no two groups have the same
    [primaryId]; a record belongs to some group exactly when it was given;
    and every member of a group names the [primaryId] of its group as its
    root (its own id when primary, its [linkedId] when secondary).  The
    grouper only reads: the table is as before. *)
Theorem groupContactsByPrimary_partitions E cs w gs w' :
  groupContactsByPrimary E cs w = (Ret gs, w') ->
  NoDup (map primaryId gs)
  /\ (forall c, In c cs <-> exists g, In g gs /\ In c (contacts g))
  /\ (forall g c, In g gs -> In c (contacts g) ->
                  rootIdOf c = Some (primaryId g))
  /\ table w' = table w.
Proof.
  intros Hrun. split; [|split; [|split]].
  - exact (groupLoop_distinct E cs [] w gs w' Hrun (NoDup_nil _)).
  - intros c. split.
    + intros Hc. exact (groupLoop_covers E cs [] w gs w' Hrun c (or_introl Hc)).
    + intros (g & Hg & Hc).
      exact (groupContactsByPrimary_members E cs w gs w' g c Hrun Hg Hc).
  - apply (groupLoop_roots E cs [] w gs w' Hrun). intros g x [].
  - pose proof (groupContactsByPrimary_unwritten E w cs w (unwritten_refl w)) as H.
    rewrite Hrun in H. destruct H as [H _]. exact H.
Qed.

Lemma groupContactsByPrimary_partitions_witness :
  exists gs w',
    groupContactsByPrimary Scenario.calm (table Scenario.threeChains)
                           Scenario.threeChains
    = (Ret gs, w')
    /\ map primaryId gs = ["c1"; "c2"; "c4"]
    /\ NoDup (map primaryId gs)
    /\ table w' = table Scenario.threeChains.
Proof.
  assert (Hrun : exists gs w',
             groupContactsByPrimary Scenario.calm (table Scenario.threeChains)
                                    Scenario.threeChains
             = (Ret gs, w')
             /\ map primaryId gs = ["c1"; "c2"; "c4"]).
  { do 2 eexists. vm_compute. split; reflexivity. }
  destruct Hrun as (gs & w' & Hrun & Hkeys).
  destruct (groupContactsByPrimary_partitions Scenario.calm
              (table Scenario.threeChains) Scenario.threeChains gs w' Hrun)
    as (H1 & _ & _ & H2).
  exists gs, w'. repeat split; assumption.
Defined.

(** ** Creating records *)

(** X17. No stored record matches the request, the request supplies an
    email or a phone, and the store answers: [identifyContact] creates one
    record, a primary without [linkedId] that carries exactly the usable
    fields of the request, and answers with its key, its fields and no
    secondary.  The only write sent is that Put, and the record can be read
    back under the returned key. *)
Theorem identifyContact_creates_primary E request w :
  online E (length (trace w)) = true ->
  online E (S (length (trace w))) = true ->
  supplied request ->
  filter (matches request) (table w) = [] ->
  exists p w',
    identifyContact E request w
    = (Ret (succeeded {| primaryContactId := id p;
                         emails := singleton (email p);
                         phoneNumbers := singleton (phoneNumber p);
                         secondaryContactIds := [] |}),
       w')
    /\ p = recordOf (primaryParams request) (uuidv4 E (uuids w)) (clock E (dates w))
    /\ getItem (id p) (table w') = Some p
    /\ writes w' = writes w ++ [PutCommand p].
Proof.
  intros H0 H1 Hs Hnone.
  set (w0 := served 0 (matchingScan request) w).
  exists (createdIn E (primaryParams request) w0),
         (afterCreate E (primaryParams request) w0).
  assert (Hfind : findByEmailOrPhone E (queryOf request) w
                  = (Ret (succeeded []), w0))
    by (rewrite (findByEmailOrPhone_online E request w H0 Hs), Hnone; reflexivity).
  split; [|split; [reflexivity|split]].
  - rewrite (identifyContact_unmatched E request w _ w0 Hs Hfind eq_refl eq_refl).
    unfold guarded, tryCatch, createNewPrimaryContact, bind.
    fold (primaryParams request).
    rewrite (create_online E (primaryParams request) w0).
    + reflexivity.
    + unfold w0. rewrite length_trace_served. exact H1.
  - change (table (afterCreate E (primaryParams request) w0))
      with (putItem (slot E (length (trace w0)))
                    (createdIn E (primaryParams request) w0) (table w0)).
    apply getItem_putItem_same.
  - unfold writes. simpl. rewrite !filter_app. simpl. rewrite app_nil_r.
    reflexivity.
Qed.

Lemma identifyContact_creates_primary_witness :
  exists p w',
    identifyContact Scenario.calm (Scenario.req "z" "9") Scenario.oneChain
    = (Ret (succeeded {| primaryContactId := id p;
                         emails := singleton (email p);
                         phoneNumbers := singleton (phoneNumber p);
                         secondaryContactIds := [] |}),
       w')
    /\ p = recordOf (primaryParams (Scenario.req "z" "9"))
                    (uuidv4 Scenario.calm (uuids Scenario.oneChain))
                    (clock Scenario.calm (dates Scenario.oneChain))
    /\ getItem (id p) (table w') = Some p
    /\ writes w' = writes Scenario.oneChain ++ [PutCommand p].
Proof.
  apply (identifyContact_creates_primary Scenario.calm (Scenario.req "z" "9")
           Scenario.oneChain).
  - reflexivity.
  - reflexivity.
  - left. reflexivity.
  - vm_compute. reflexivity.
Defined.



(** ** Merging, beyond the roots *)

Lemma create_returns E params w : exists r w', create E params w = (Ret r, w').
Proof.
  unfold create, tryCatch.
  match goal with
  | |- context [let (o, w') := ?m w in _] => destruct (m w) as [[r|] w1]
  end; do 2 eexists; reflexivity.
Qed.

Lemma createSecondaryContact_returns E request k w :
  exists w', createSecondaryContact E request k w = (Ret tt, w').
Proof.
  unfold createSecondaryContact, bind.
  destruct (create_returns E (secondaryParams request k) w) as (r & w' & Hrun).
  unfold secondaryParams in Hrun. rewrite Hrun. eexists. reflexivity.
Qed.

(** When the store answers, the two-chain branch builds its answer in
    [afterDemotion]. *)
Lemma linkTwoPrimaryContacts_run E request g1 g2 w :
  online E (length (trace w)) = true ->
  linkTwoPrimaryContacts E [g1; g2] request w
  = buildConsolidatedResponse E (primaryId (olderGroup g1 g2))
      (afterDemotion E request (olderGroup g1 g2) (newerGroup g1 g2) w).
Proof.
  intros Hon. unfold linkTwoPrimaryContacts, afterDemotion.
  change (if Z.ltb (g_createdAt g1) (g_createdAt g2) then g1 else g2)
    with (olderGroup g1 g2).
  change (if Z.ltb (g_createdAt g1) (g_createdAt g2) then g2 else g1)
    with (newerGroup g1 g2).
  set (older := olderGroup g1 g2). set (newer := newerGroup g1 g2).
  set (u := demotion (primaryId newer) (primaryId older) (clock E (dates w))).
  set (wa := snd (newDate E w)).
  unfold bind at 1.
  change (newDate E w) with (Ret (clock E (dates w)), wa). cbv iota beta.
  fold u. unfold bind at 1. rewrite (update_online E u wa Hon).
  cbn [success negb]. cbv zeta.
  set (wb := served 0 (UpdateCommand u) wa).
  destruct (forOf_returns _ (contacts newer) (repoint E (primaryId older))
              (repoint_returns E (primaryId older)) wb) as [wc Hc].
  unfold bind at 1. rewrite Hc. cbn [snd].
  unfold bind at 1.
  destruct (shouldCreateSecondaryContact request
              (contacts older ++ contacts newer)); simpl.
  - destruct (createSecondaryContact_returns E request (primaryId older) wc)
      as [wd ->]. reflexivity.
  - reflexivity.
Qed.

Lemma getItem_putItem_other pos item k t :
  id item <> k -> getItem k (putItem pos item t) = getItem k t.
Proof.
  intros Hne. unfold putItem. destruct (existsb (hasId (id item)) t).
  - induction t as [|a t IH]; simpl; [reflexivity|].
    destruct (hasId (id item) a) eqn:Ha.
    + assert (Hk : hasId k a = false /\ hasId k item = false).
      { unfold hasId in *. apply String.eqb_eq in Ha.
        split; apply String.eqb_neq; congruence. }
      destruct Hk as [-> ->]. exact IH.
    + destruct (hasId k a); [reflexivity|exact IH].
  - apply getItem_inserted. exact Hne.
Qed.

Section Repointing.

Variable E : Env.
Variables older k : string.

Lemma linkedTo_repoint c w :
  linkedTo older k (table w) ->
  linkedTo older k (table (snd (repoint E older c w))).
Proof.
  intros (x & Hx & Hl & Hp). unfold repoint.
  destruct (linkPrecedence c); [exists x; auto|].
  unfold bind, update, tryCatch, bind, docClient_send. simpl.
  destruct (online E (length (trace w))); simpl; [|exists x; auto].
  destruct (String.eqb_spec (id c) k) as [Heq|Hne].
  - exists (applyUpdate (demotion (id c) older (clock E (dates w))) x).
    split; [|split; reflexivity].
    rewrite <- Heq in Hx |- *.
    exact (getItem_updateItem_same (demotion (id c) older (clock E (dates w)))
             (table w) x Hx).
  - exists x. split; [|auto].
    rewrite getItem_updateItem_other; [exact Hx|exact Hne].
Qed.

Lemma keys_repoint c w :
  map id (table (snd (repoint E older c w))) = map id (table w)
  /\ uuids (snd (repoint E older c w)) = uuids w.
Proof.
  unfold repoint. destruct (linkPrecedence c); [auto|].
  unfold bind, update, tryCatch, bind, docClient_send. simpl.
  destruct (online E (length (trace w))); simpl; [|auto].
  split; [apply ids_updateItem|reflexivity].
Qed.

Lemma keys_repointing cs : forall w,
  map id (table (snd (forOf cs (repoint E older) w))) = map id (table w)
  /\ uuids (snd (forOf cs (repoint E older) w)) = uuids w.
Proof.
  induction cs as [|c cs IH]; intros w; simpl; [auto|].
  unfold bind. destruct (repoint_returns E older c w) as [w1 Hrun].
  rewrite Hrun. destruct (IH w1) as [H1 H2]. rewrite H1, H2.
  pose proof (keys_repoint c w) as H. rewrite Hrun in H. exact H.
Qed.

Lemma linkedTo_repointing cs : forall w,
  linkedTo older k (table w) ->
  linkedTo older k (table (snd (forOf cs (repoint E older) w))).
Proof.
  induction cs as [|c cs IH]; intros w H; simpl; [exact H|].
  unfold bind. destruct (repoint_returns E older c w) as [w1 Hrun].
  rewrite Hrun. apply IH.
  pose proof (linkedTo_repoint c w H) as H1. rewrite Hrun in H1. exact H1.
Qed.

Hypothesis served_always : forall n, online E n = true.

Lemma repoint_links c w :
  id c = k -> linkPrecedence c = secondary ->
  In k (map id (table w)) ->
  linkedTo older k (table (snd (repoint E older c w))).
Proof.
  intros Hk Hsec Hin. unfold repoint. rewrite Hsec.
  unfold bind, update, tryCatch, bind, docClient_send. simpl.
  rewrite served_always. simpl.
  destruct (getItem k (table w)) as [x|] eqn:Hx.
  - exists (applyUpdate (demotion (id c) older (clock E (dates w))) x).
    split; [|split; reflexivity].
    rewrite <- Hk in Hx |- *.
    exact (getItem_updateItem_same (demotion (id c) older (clock E (dates w)))
             (table w) x Hx).
  - exfalso. apply in_map_iff in Hin. destruct Hin as (x & Hid & Hin).
    unfold getItem in Hx.
    apply (find_none _ _ Hx x) in Hin. unfold hasId in Hin.
    rewrite Hid, String.eqb_refl in Hin. discriminate Hin.
Qed.

Lemma repointing_links cs : forall w c,
  In c cs -> id c = k -> linkPrecedence c = secondary ->
  In k (map id (table w)) ->
  linkedTo older k (table (snd (forOf cs (repoint E older) w))).
Proof.
  induction cs as [|c0 cs IH]; intros w c Hin Hk Hsec Hkey; [destruct Hin|].
  simpl. unfold bind. destruct (repoint_returns E older c0 w) as [w1 Hrun].
  rewrite Hrun. destruct Hin as [->|Hin].
  - apply linkedTo_repointing.
    pose proof (repoint_links c w Hk Hsec Hkey) as H. rewrite Hrun in H. exact H.
  - apply (IH w1 c Hin Hk Hsec).
    destruct (keys_repoint c0 w) as [H _]. rewrite Hrun in H. simpl in H.
    rewrite H. exact Hkey.
Qed.

End Repointing.

Lemma linkedTo_create E older k params w :
  uuidv4 E (uuids w) <> k ->
  linkedTo older k (table w) ->
  linkedTo older k (table (snd (create E params w))).
Proof.
  intros Hne (x & Hx & Hl). unfold create, tryCatch, bind, newDate, newUuid,
    docClient_send. simpl.
  destruct (online E (length (trace w))); simpl; [|exists x; auto].
  exists x. split; [|exact Hl].
  rewrite getItem_putItem_other; [exact Hx|exact Hne].
Qed.

(** X19. In a two-chain merge with the store answering and a new
    identifier, every matched member of the newer chain that was a
    secondary is re-pointed: after the call the record under its key is a
    secondary whose [linkedId] is the root of the older chain.  (Members of
    the newer chain that the request did not match are not in the group and
    are not covered.) *)
Theorem identifyContact_merge_repoints_matched E request w r w1 cs g1 g2 w2 c :
  (forall n, online E n = true) ->
  supplied request ->
  ~ In (uuidv4 E (uuids w)) (map id (table w)) ->
  findByEmailOrPhone E (queryOf request) w = (Ret r, w1) ->
  success r = true ->
  data r = Some cs ->
  groupContactsByPrimary E cs w1 = (Ret [g1; g2], w2) ->
  In c (contacts (newerGroup g1 g2)) ->
  linkPrecedence c = secondary ->
  exists c',
    getItem (id c) (table (snd (identifyContact E request w))) = Some c'
    /\ linkedId c' = Some (primaryId (olderGroup g1 g2))
    /\ linkPrecedence c' = secondary.
Proof.
  intros Hon Hs Hfresh Hfind Hok Hdata Hgroup Hc Hsec.
  set (older := olderGroup g1 g2) in *. set (newer := newerGroup g1 g2) in *.
  destruct (matching_unwritten E request w r w1 cs _ w2 Hfind Hgroup)
    as (Htable & _ & Huuids & _).
  assert (Hstored : In c (table w)).
  { assert (Hin : In c cs).
    { apply (groupContactsByPrimary_members E cs w1 [g1; g2] w2 newer c Hgroup);
        [|exact Hc].
      unfold newer. destruct (older_newer_swap g1 g2) as [[_ ->]|[_ ->]];
        simpl; auto. }
    rewrite (findByEmailOrPhone_matched E request w r w1 cs Hs Hfind Hok Hdata)
      in Hin.
    apply filter_In in Hin. tauto. }
  assert (Hkey : In (id c) (map id (table w))) by (apply in_map; exact Hstored).
  assert (Hrun : identifyContact E request w
                 = guarded (buildConsolidatedResponse E (primaryId older))
                           (afterDemotion E request older newer w2)).
  { rewrite (identifyContact_grouped E request w r w1 cs _ w2 Hs Hfind Hok Hdata
               Hgroup) by discriminate.
    unfold guarded, tryCatch, dispatch.
    rewrite (linkTwoPrimaryContacts_run E request g1 g2 w2 (Hon _)).
    reflexivity. }
  assert (Hfinal : table (snd (identifyContact E request w))
                   = table (afterDemotion E request older newer w2)).
  { pose proof (guarded_view_unwritten E (primaryId older) _ _
                  (unwritten_refl (afterDemotion E request older newer w2))) as H.
    rewrite <- Hrun in H. destruct H as [H _]. exact H. }
  assert (Hlinked : linkedTo (primaryId older) (id c)
                             (table (afterDemotion E request older newer w2))).
  { unfold afterDemotion.
    set (wb := served 0 _ (snd (newDate E w2))).
    assert (Hwb : map id (table wb) = map id (table w) /\ uuids wb = uuids w).
    { unfold wb. simpl. rewrite ids_updateItem, Htable, Huuids. auto. }
    destruct Hwb as [Hkeys Hdrawn].
    pose proof (repointing_links E (primaryId older) (id c) Hon (contacts newer)
                  wb c Hc eq_refl Hsec) as Hloop.
    rewrite Hkeys in Hloop. specialize (Hloop Hkey).
    destruct (keys_repointing E (primaryId older) (contacts newer) wb)
      as [Hkeys' Hdrawn'].
    set (wc := snd (forOf (contacts newer) (repoint E (primaryId older)) wb)) in *.
    destruct (shouldCreateSecondaryContact request
                (contacts older ++ contacts newer)); simpl; [|exact Hloop].
    unfold createSecondaryContact, bind.
    pose proof (linkedTo_create E (primaryId older) (id c)
                  (secondaryParams request (primaryId older)) wc) as Hcreate.
    unfold secondaryParams in Hcreate.
    destruct (create E _ wc) as [[r0|] wd]; simpl in *; apply Hcreate;
      try exact Hloop;
      rewrite Hdrawn', Hdrawn; intros Heq; apply Hfresh; rewrite Heq; exact Hkey. }
  destruct Hlinked as (c' & Hget & Hl & Hp).
  exists c'. rewrite Hfinal. auto.
Qed.

Lemma identifyContact_merge_repoints_matched_witness :
  let w := identifyAll Scenario.calm
             [Scenario.req "a" "1"; Scenario.req "b" "2"; Scenario.req "c" "2"]
             emptyWorld in
  exists c',
    getItem "c3" (table (snd (identifyContact Scenario.calm (Scenario.req "a" "2") w)))
    = Some c'
    /\ linkedId c' = Some "c1"
    /\ linkPrecedence c' = secondary.
Proof.
  intros w.
  assert (Hfresh : ~ In (uuidv4 Scenario.calm (uuids w)) (map id (table w))).
  { vm_compute. intuition discriminate. }
  assert (Hc : exists c, getItem "c3" (table w) = Some c
                         /\ id c = "c3" /\ linkPrecedence c = secondary).
  { eexists. vm_compute. repeat split. }
  destruct Hc as (c & Hget & Hid & Hsec).
  rewrite <- Hid.
  with_groups Scenario.calm (Scenario.req "a" "2") w
    ltac:(fun r w1 cs gs w2 =>
            lazymatch gs with
            | [?g1; ?g2] =>
                apply (identifyContact_merge_repoints_matched Scenario.calm
                         (Scenario.req "a" "2") w r w1 cs g1 g2 w2 c)
            end).
  - intros n. reflexivity.
  - left. reflexivity.
  - exact Hfresh.
  - vm_compute. reflexivity.
  - reflexivity.
  - reflexivity.
  - vm_compute. reflexivity.
  - vm_compute in Hget. injection Hget as <-. vm_compute. right. left. reflexivity.
  - exact Hsec.
Defined.

(** X20. Two matched chains whose stored roots [root1] and [root2], both
    primaries, have the same [createdAt]: the comparison is strict, so the
    chain that the grouper lists second is kept.  With the store answering,
    unique keys and a new identifier, the call answers with the id of
    [root2] as [primaryContactId], [root2] is stored unchanged, and the
    record under the key of [root1] is a secondary of [root2]. *)
Theorem identifyContact_merge_tie_keeps_second
        E request w r w1 cs g1 g2 w2 root1 root2 :
  (forall n, online E n = true) ->
  supplied request ->
  NoDup (map id (table w)) ->
  ~ In (uuidv4 E (uuids w)) (map id (table w)) ->
  findByEmailOrPhone E (queryOf request) w = (Ret r, w1) ->
  success r = true ->
  data r = Some cs ->
  groupContactsByPrimary E cs w1 = (Ret [g1; g2], w2) ->
  getItem (primaryId g1) (table w) = Some root1 ->
  getItem (primaryId g2) (table w) = Some root2 ->
  linkPrecedence root1 = primary ->
  linkPrecedence root2 = primary ->
  createdAt root1 = createdAt root2 ->
  exists view w' demoted,
    identifyContact E request w = (Ret (succeeded view), w')
    /\ primaryContactId view = id root2
    /\ getItem (id root2) (table w') = Some root2
    /\ getItem (id root1) (table w') = Some demoted
    /\ linkPrecedence demoted = secondary
    /\ linkedId demoted = Some (id root2).
Proof.
  intros Hon Hs Hnd Hfresh Hfind Hok Hdata Hgroup Hroot1 Hroot2 Hp1 Hp2 Htie.
  assert (Hc1 : g_createdAt g1 = createdAt root1)
    by (apply (matched_groups_createdAt E request w r w1 cs [g1; g2] w2 g1 root1
                 Hs Hnd Hfind Hok Hdata Hgroup); [left; reflexivity|exact Hroot1]).
  assert (Hc2 : g_createdAt g2 = createdAt root2)
    by (apply (matched_groups_createdAt E request w r w1 cs [g1; g2] w2 g2 root2
                 Hs Hnd Hfind Hok Hdata Hgroup);
        [right; left; reflexivity|exact Hroot2]).
  pose proof (identifyContact_merges_groups E request w r w1 cs g1 g2 w2
                root2 root1 Hon Hs Hnd Hfresh Hfind Hok Hdata Hgroup) as Hmerge.
  unfold olderGroup, newerGroup in Hmerge.
  rewrite Hc1, Hc2, Htie, Z.ltb_irrefl in Hmerge.
  destruct (Hmerge Hroot2 Hp2 Hroot1 Hp1) as (view & w' & Hrun & Hview & Ho & Hn).
  rewrite (getItem_id _ _ _ Hroot1), (getItem_id _ _ _ Hroot2).
  exists view, w'. eexists.
  split; [exact Hrun|]. split; [exact Hview|]. split; [exact Ho|].
  split; [exact Hn|]. split; reflexivity.
Qed.

(** Two primaries created at the same clock reading, then a request that
    names the email of the first and the phone of the second. *)
Lemma identifyContact_merge_tie_keeps_second_witness :
  let w := identifyAll Tie.still
             [Scenario.req "g@h.edu" "919191"; Scenario.req "b@h.edu" "717171"]
             emptyWorld in
  let c1 := {| id := "c1"; phoneNumber := Some "919191"; email := Some "g@h.edu";
               linkedId := None; linkPrecedence := primary;
               createdAt := 10; updatedAt := 10 |} in
  let c2 := {| id := "c2"; phoneNumber := Some "717171"; email := Some "b@h.edu";
               linkedId := None; linkPrecedence := primary;
               createdAt := 10; updatedAt := 10 |} in
  getItem "c1" (table w) = Some c1
  /\ getItem "c2" (table w) = Some c2
  /\ exists view w' demoted,
       identifyContact Tie.still (Scenario.req "g@h.edu" "717171") w
       = (Ret (succeeded view), w')
       /\ primaryContactId view = "c2"
       /\ getItem "c2" (table w') = Some c2
       /\ getItem "c1" (table w') = Some demoted
       /\ linkPrecedence demoted = secondary
       /\ linkedId demoted = Some "c2".
Proof.
  intros w c1 c2.
  assert (Hroot1 : getItem "c1" (table w) = Some c1) by (vm_compute; reflexivity).
  assert (Hroot2 : getItem "c2" (table w) = Some c2) by (vm_compute; reflexivity).
  split; [exact Hroot1|]. split; [exact Hroot2|].
  assert (Hnd : NoDup (map id (table w))).
  { vm_compute. repeat constructor; simpl; intuition discriminate. }
  assert (Hfresh : ~ In (uuidv4 Tie.still (uuids w)) (map id (table w))).
  { vm_compute. intuition discriminate. }
  with_groups Tie.still (Scenario.req "g@h.edu" "717171") w
    ltac:(fun r w1 cs gs w2 =>
            lazymatch gs with
            | [?g1; ?g2] =>
                apply (identifyContact_merge_tie_keeps_second Tie.still
                         (Scenario.req "g@h.edu" "717171") w r w1 cs g1 g2 w2
                         c1 c2)
            end).
  - intros n. reflexivity.
  - left. reflexivity.
  - exact Hnd.
  - exact Hfresh.
  - vm_compute. reflexivity.
  - reflexivity.
  - reflexivity.
  - vm_compute. reflexivity.
  - exact Hroot1.
  - exact Hroot2.
  - reflexivity.
  - reflexivity.
  - reflexivity.
Defined.

(** ** More than two chains, in terms of the stored roots *)

(** X25. More than two matched chains, the keys of the table unique.  The
    call picks a chain whose stored root has the smallest [createdAt]
    among the stored roots of the matched chains, and it writes nothing:
    the table is as before and no Put or Update was sent.  When moreover
    that root is stored as a primary and the store answers the two reads of
    the view, the call returns the consolidated view of that chain. *)
Theorem identifyContact_many_chains_oldest_root E request w r w1 cs gs w2 :
  supplied request ->
  NoDup (map id (table w)) ->
  findByEmailOrPhone E (queryOf request) w = (Ret r, w1) ->
  success r = true ->
  data r = Some cs ->
  groupContactsByPrimary E cs w1 = (Ret gs, w2) ->
  2 < length gs ->
  exists g root,
    In g gs
    /\ getItem (primaryId g) (table w) = Some root
    /\ (forall g' root',
           In g' gs -> getItem (primaryId g') (table w) = Some root' ->
           (createdAt root <= createdAt root')%Z)
    /\ table (snd (identifyContact E request w)) = table w
    /\ writes (snd (identifyContact E request w)) = writes w
    /\ (linkPrecedence root = primary ->
        online E (length (trace w2)) = true ->
        online E (S (length (trace w2))) = true ->
        identifyContact E request w
        = (Ret (succeeded
                  (viewOf root
                          (secondariesOf (chainScan (primaryId g) (table w))))),
           afterView (primaryId g) w2)).
Proof.
  intros Hs Hnd Hfind Hok Hdata Hgroup Hlen.
  destruct gs as [|g1 [|g2 [|g3 rest]]]; simpl in Hlen; try lia.
  set (others := g2 :: g3 :: rest) in *.
  set (g := fold_left olderOf others g1).
  destruct (reduce_olderOf_oldest others g1) as [Hin Hmin]. fold g in Hin, Hmin.
  destruct (matched_groups_rooted E request w r w1 cs _ w2 Hs Hnd Hfind Hok Hdata
              Hgroup g Hin) as (root & Hroot & Hstamp).
  assert (Hrun : identifyContact E request w
                 = guarded (buildConsolidatedResponse E (primaryId g)) w2).
  { rewrite (identifyContact_grouped E request w r w1 cs _ w2 Hs Hfind Hok Hdata
               Hgroup); [reflexivity|].
    discriminate. }
  pose proof (matching_unwritten E request w r w1 cs _ w2 Hfind Hgroup) as Hw2.
  assert (Hkept : unwritten w (snd (identifyContact E request w)))
    by (rewrite Hrun; apply guarded_view_unwritten; exact Hw2).
  destruct Hkept as (Htable & Hwrites & _).
  destruct Hw2 as (Htable2 & _).
  exists g, root.
  split; [exact Hin|]. split; [exact Hroot|].
  split; [|split; [exact Htable|split; [exact Hwrites|]]].
  - intros g' root' Hg' Hroot'.
    rewrite <- Hstamp.
    rewrite <- (matched_groups_createdAt E request w r w1 cs _ w2 g' root'
                  Hs Hnd Hfind Hok Hdata Hgroup Hg' Hroot').
    apply Hmin. exact Hg'.
  - intros Hprimary H0 H1. rewrite Hrun. unfold guarded, tryCatch.
    rewrite <- Htable2 in Hroot.
    rewrite (buildConsolidatedResponse_online E (primaryId g) w2 root H0 H1 Hroot
               Hprimary).
    rewrite Htable2. reflexivity.
Qed.

(** The request finds c2, c3 and c4, which fall into the chains of c1, c2
    and c4; c1 has the smallest [createdAt] and is a primary. *)
Lemma identifyContact_many_chains_oldest_root_witness :
  let request := Scenario.req "b" "4" in
  exists gs w2 g root,
    In g gs
    /\ getItem (primaryId g) (table Scenario.threeChains) = Some root
    /\ (forall g' root',
           In g' gs ->
           getItem (primaryId g') (table Scenario.threeChains) = Some root' ->
           (createdAt root <= createdAt root')%Z)
    /\ table (snd (identifyContact Scenario.calm request Scenario.threeChains))
       = table Scenario.threeChains
    /\ writes (snd (identifyContact Scenario.calm request Scenario.threeChains))
       = writes Scenario.threeChains
    /\ (linkPrecedence root = primary ->
        online Scenario.calm (length (trace w2)) = true ->
        online Scenario.calm (S (length (trace w2))) = true ->
        identifyContact Scenario.calm request Scenario.threeChains
        = (Ret (succeeded
                  (viewOf root
                          (secondariesOf
                             (chainScan (primaryId g)
                                        (table Scenario.threeChains))))),
           afterView (primaryId g) w2)).
Proof.
  intros request.
  assert (Hnd : NoDup (map id (table Scenario.threeChains))).
  { vm_compute. repeat constructor; simpl; intuition discriminate. }
  with_groups Scenario.calm request Scenario.threeChains
    ltac:(fun r w1 cs gs w2 =>
            exists gs, w2;
            apply (identifyContact_many_chains_oldest_root Scenario.calm request
                     Scenario.threeChains r w1 cs gs w2)).
  - left. reflexivity.
  - exact Hnd.
  - vm_compute. reflexivity.
  - reflexivity.
  - reflexivity.
  - vm_compute. reflexivity.
  - simpl. lia.
Defined.

(** ** Store failures that the service reports *)

(** X21. The matching read is refused: [identifyContact] answers with the
    failure "Failed to search for existing contacts"; that Scan is the only
    command sent and the table is untouched. *)
Theorem identifyContact_matching_read_refused E request w :
  supplied request ->
  online E (length (trace w)) = false ->
  identifyContact E request w
  = (Ret (failed "Failed to search for existing contacts"),
     refused (matchingScan request) w).
Proof.
  intros Hs Hoff. unfold identifyContact, tryCatch.
  rewrite (supplied_guard request Hs). unfold bind at 1.
  unfold findByEmailOrPhone, tryCatch, bind. simpl.
  rewrite !truthy_provided, !provided_idem.
  replace (truthy (req_email request) || truthy (req_phoneNumber request))
    with true
    by (destruct Hs as [H|H]; rewrite H; auto using orb_true_r).
  rewrite (docClient_send_offline E _ w Hoff). reflexivity.
Qed.

Lemma identifyContact_matching_read_refused_witness :
  identifyContact (Tie.until 0) (Scenario.req "a" "1") emptyWorld
  = (Ret (failed "Failed to search for existing contacts"),
     refused (matchingScan (Scenario.req "a" "1")) emptyWorld).
Proof.
  apply (identifyContact_matching_read_refused (Tie.until 0)
           (Scenario.req "a" "1") emptyWorld).
  - left. reflexivity.
  - reflexivity.
Defined.

(** X22. No stored record matches and the Put of the new primary is
    refused: [identifyContact] answers with the failure "Failed to create
    new primary contact" and the table is untouched. *)
Theorem identifyContact_primary_create_refused E request w :
  supplied request ->
  online E (length (trace w)) = true ->
  online E (S (length (trace w))) = false ->
  filter (matches request) (table w) = [] ->
  fst (identifyContact E request w)
  = Ret (failed "Failed to create new primary contact")
  /\ table (snd (identifyContact E request w)) = table w.
Proof.
  intros Hs H0 H1 Hnone.
  set (w0 := served 0 (matchingScan request) w).
  assert (Hfind : findByEmailOrPhone E (queryOf request) w
                  = (Ret (succeeded []), w0))
    by (rewrite (findByEmailOrPhone_online E request w H0 Hs), Hnone; reflexivity).
  rewrite (identifyContact_unmatched E request w _ w0 Hs Hfind eq_refl eq_refl).
  unfold guarded, tryCatch, createNewPrimaryContact, bind, create, tryCatch, bind,
    newDate, newUuid, docClient_send.
  simpl. rewrite length_app. simpl. rewrite Nat.add_1_r, H1. split; reflexivity.
Qed.

Lemma identifyContact_primary_create_refused_witness :
  fst (identifyContact (Tie.until 1) (Scenario.req "a" "1") emptyWorld)
  = Ret (failed "Failed to create new primary contact")
  /\ table (snd (identifyContact (Tie.until 1) (Scenario.req "a" "1") emptyWorld))
     = table emptyWorld.
Proof.
  apply (identifyContact_primary_create_refused (Tie.until 1)
           (Scenario.req "a" "1") emptyWorld).
  - left. reflexivity.
  - reflexivity.
  - reflexivity.
  - reflexivity.
Defined.

(** X23. Two chains are matched and the Update that demotes the newer root
    is refused: [identifyContact] answers with the failure "Failed to link
    primary contacts" and stops there: no member is re-pointed, no record
    is created, the table is untouched and the refused Update is the only
    write sent. *)
Theorem identifyContact_demotion_refused E request w r w1 cs g1 g2 w2 :
  supplied request ->
  findByEmailOrPhone E (queryOf request) w = (Ret r, w1) ->
  success r = true ->
  data r = Some cs ->
  groupContactsByPrimary E cs w1 = (Ret [g1; g2], w2) ->
  online E (length (trace w2)) = false ->
  fst (identifyContact E request w) = Ret (failed "Failed to link primary contacts")
  /\ table (snd (identifyContact E request w)) = table w
  /\ writes (snd (identifyContact E request w))
     = writes w ++ [UpdateCommand (demotion (primaryId (newerGroup g1 g2))
                                            (primaryId (olderGroup g1 g2))
                                            (clock E (dates w)))].
Proof.
  intros Hs Hfind Hok Hdata Hgroup Hoff.
  destruct (matching_unwritten E request w r w1 cs _ w2 Hfind Hgroup)
    as (Htable & Hwrites & _ & Hdates).
  rewrite (identifyContact_grouped E request w r w1 cs _ w2 Hs Hfind Hok Hdata
             Hgroup) by discriminate.
  set (u := demotion (primaryId (newerGroup g1 g2)) (primaryId (olderGroup g1 g2))
                     (clock E (dates w2))).
  assert (Hupdate : update E u (snd (newDate E w2))
                    = (Ret (failed "Failed to update contact"),
                       refused (UpdateCommand u) (snd (newDate E w2)))).
  { unfold update, tryCatch, bind.
    rewrite docClient_send_offline by exact Hoff. reflexivity. }
  assert (Hlink : linkTwoPrimaryContacts E [g1; g2] request w2
                  = (Ret (failed "Failed to link primary contacts"),
                     refused (UpdateCommand u) (snd (newDate E w2)))).
  { unfold linkTwoPrimaryContacts.
    change (if Z.ltb (g_createdAt g1) (g_createdAt g2) then g1 else g2)
      with (olderGroup g1 g2).
    change (if Z.ltb (g_createdAt g1) (g_createdAt g2) then g2 else g1)
      with (newerGroup g1 g2).
    unfold bind at 1.
    change (newDate E w2) with (Ret (clock E (dates w2)), snd (newDate E w2)).
    cbv iota beta. fold u. unfold bind at 1. rewrite Hupdate. reflexivity. }
  unfold guarded, tryCatch, dispatch. rewrite Hlink.
  unfold writes in *. simpl. rewrite filter_app. simpl.
  unfold u. rewrite Htable, Hwrites, Hdates. repeat split.
Qed.

Lemma identifyContact_demotion_refused_witness :
  let request := Scenario.req "g@h.edu" "717171" in
  let w := identifyAll (Tie.until 5)
             [Scenario.req "g@h.edu" "919191"; Scenario.req "b@h.edu" "717171"]
             emptyWorld in
  fst (identifyContact (Tie.until 5) request w)
  = Ret (failed "Failed to link primary contacts")
  /\ table (snd (identifyContact (Tie.until 5) request w)) = table w.
Proof.
  intros request w.
  assert (H : fst (identifyContact (Tie.until 5) request w)
              = Ret (failed "Failed to link primary contacts")
              /\ table (snd (identifyContact (Tie.until 5) request w)) = table w
              /\ writes (snd (identifyContact (Tie.until 5) request w))
                 = writes w ++ [UpdateCommand (demotion "c2" "c1" 30%Z)]).
  { with_groups (Tie.until 5) request w
      ltac:(fun r w1 cs gs w2 =>
              lazymatch gs with
              | [?g1; ?g2] =>
                  apply (identifyContact_demotion_refused (Tie.until 5) request w
                           r w1 cs g1 g2 w2)
              end).
    - left. reflexivity.
    - vm_compute. reflexivity.
    - reflexivity.
    - reflexivity.
    - vm_compute. reflexivity.
    - vm_compute. reflexivity. }
  destruct H as (H1 & H2 & _). split; assumption.
Defined.

(** X24. A dangling link is an internal error.  The store answers, and the
    first matched record is a secondary whose [linkedId] names a key the
    table lacks: the grouper cannot fetch the root, and [identifyContact]
    answers with the failure "Internal server error during contact
    identification" after two reads, without any write. *)
Theorem identifyContact_dangling_link E request w c rest k :
  supplied request ->
  online E (length (trace w)) = true ->
  online E (S (length (trace w))) = true ->
  filter (matches request) (table w) = c :: rest ->
  linkPrecedence c = secondary ->
  linkedId c = Some k ->
  getItem k (table w) = None ->
  identifyContact E request w
  = (Ret internalError,
     served 0 (GetCommand k) (served 0 (matchingScan request) w)).
Proof.
  intros Hs H0 H1 Hmatched Hsec Hlink Hmissing.
  set (w1 := served 0 (matchingScan request) w).
  unfold identifyContact, tryCatch.
  rewrite (supplied_guard request Hs). fold (queryOf request).
  unfold bind at 1.
  rewrite (findByEmailOrPhone_online E request w H0 Hs), Hmatched. fold w1.
  cbn [success succeeded negb data].
  unfold bind at 1.
  assert (Hgroup : groupContactsByPrimary E (c :: rest) w1
                   = (Throw, served 0 (GetCommand k) w1)).
  { unfold groupContactsByPrimary. simpl. unfold rootIdOf. rewrite Hsec, Hlink.
    unfold bind at 1. unfold ensureGroup. simpl. rewrite Hsec.
    unfold bind at 1. unfold bind at 1.
    rewrite getById_online
      by (unfold w1; rewrite length_trace_served; exact H1).
    change (table w1) with (table w). rewrite Hmissing. reflexivity. }
  rewrite Hgroup. reflexivity.
Qed.

Lemma identifyContact_dangling_link_witness :
  let w := {| table := [ {| id := "s"; phoneNumber := Some "1"; email := None;
                            linkedId := Some "gone"; linkPrecedence := secondary;
                            createdAt := 5; updatedAt := 5 |} ];
              trace := []; uuids := 0; dates := 0 |} in
  let request := {| req_email := None; req_phoneNumber := Some "1" |} in
  identifyContact Scenario.calm request w
  = (Ret internalError,
     served 0 (GetCommand "gone") (served 0 (matchingScan request) w)).
Proof.
  intros w request.
  eapply (identifyContact_dangling_link Scenario.calm request w).
  - right. reflexivity.
  - reflexivity.
  - reflexivity.
  - reflexivity.
  - reflexivity.
  - reflexivity.
  - reflexivity.
Defined.
